(** * screenshots-diff: the image diffing routine of [diffImagesAsync.ts]

    A shallow embedding of [src/screenshots-diff/diffImagesAsync.ts] and the
    properties of its result.

    Conventions of the embedding.
    - Pixel counts, coordinates and array indices are natural numbers; where the
      source subtracts them (the row-copy guard) the subtraction is done in [Z].
    - A [Uint32Array] is a [list Z] of 32-bit words; reading and writing by
      index is stdpp's list lookup and insert (a typed array ignores a write
      out of range, as stdpp's insert does).  The byte view of the same buffer
      ([diffData] next to [diffData32]) is little-endian: byte [k] of a word is
      bits [8k .. 8k+7], which is what the source's [ABGR] names assume.
    - A JavaScript number is a double.  The numbers the program computes with
      fractions ([threshold], the brightness difference, [indexLowRes]) are
      rationals [Q] that are doubles: every operation on them is the exact
      operation followed by [round64], the rounding to the nearest double.
      [diffHash], which can pass [2^53], is an integer [Z] that is a double:
      its additions are followed by [round64Z].  The other numbers are counts
      and indices of the canvas, integers far below [2^53], on which the
      operations of doubles are exact; they are kept as [nat] and [Z].
    - The bitwise operators work on [ToInt32] of their operands and a store into
      a [Uint32Array] reduces modulo [2^32]. *)

From Stdlib Require Import ZArith QArith Qminmax Qround Qabs Qpower String Ascii
  Strings.Byte Lia Lqa.
From stdpp Require Import base list.

Local Open Scope Z_scope.

(** ** Data model *)

Module Viewport.
Record t := mk { x : nat; y : nat; width : nat; height : nat; scale : nat }.
End Viewport.

Module TestInformation.
Record t := mk { name : string; viewport : Viewport.t }.
End TestInformation.

(** A decoded image: [data] is the RGBA byte buffer the codec returns, taken
    to be the whole of the memory behind it. *)
Module Image.
Record t := mk { width : nat; height : nat; data : list byte }.
End Image.

(** The canvas [new PNG({ width, height })]: [data] is its buffer seen through
    the [Uint32Array] view. *)
Module PNG.
Record t := mk { width : nat; height : nat; data : list Z }.
End PNG.

Record ImageAndTestInformation := {
  image : option Image.t;
  info : option TestInformation.t
}.

Module DiffResult.
Record t := mk { mismatchedPixels : Z; diffHash : Z }.
End DiffResult.

(** The value of the [threshold] field of a job.  [JsNum q] is the number
    written [q]; the program holds it as the double [round64 q]. *)
Inductive JsValue :=
| JsUndefined
| JsNaN
| JsNum (q : Q).

(** ** Constants *)

Definition COLOR_COMPONENTS : nat := 4.
Definition DEFAULT_THRESHOLD : Q := 3 # 100.
Definition COLOR_HIGHLIGHT_ABGR : Z := 0xff0000ff.
Definition DIFF_HASH_SPREAD : Z := 0x1337.

(** ** JavaScript integer operations *)

Definition ToInt32 (z : Z) : Z := (z + 2 ^ 31) mod 2 ^ 32 - 2 ^ 31.
Definition ToUint32 (z : Z) : Z := z mod 2 ^ 32.

(** [a >> n], [a & b], [a | b] *)
Definition js_shr (a n : Z) : Z := Z.shiftr (ToInt32 a) (n mod 32).
Definition js_and (a b : Z) : Z := Z.land (ToInt32 a) (ToInt32 b).
Definition js_or (a b : Z) : Z := Z.lor (ToInt32 a) (ToInt32 b).

(** ** Double-precision numbers *)

(** A finite double is a rational [m * 2^(e - 52)] with an integer mantissa
    [|m| < 2^53] and an exponent [e >= -1022].  An operation of the program on
    doubles is the exact operation on the rationals followed by [round64], the
    rounding to the nearest double with ties to the even mantissa.  No number
    of the program comes near [2^1024]; the overflow to [Infinity] is left
    out (a threshold that large is clamped to 1 either way). *)

Definition pow2 (e : Z) : Q := (2 ^ e)%Q.

(** [floor (log2 x)] for a positive [x]. *)
Definition binade (x : Q) : Z :=
  let e := Z.log2 (Qnum x) - Z.log2 (Zpos (Qden x)) in
  if Qle_bool (pow2 e) x then e else e - 1.

(** The nearest integer, the even one of two that are equally near. *)
Definition rne (x : Q) : Z :=
  let f := Qfloor x in
  match (x - inject_Z f ?= 1 # 2)%Q with
  | Lt => f
  | Gt => f + 1
  | Eq => if Z.even f then f else f + 1
  end.

(** The exponent of the doubles around [a]: that of its binade, and [-1022]
    for the subnormal numbers. *)
Definition exponent (a : Q) : Z := Z.max (binade a) (-1022).

Definition roundAbs (a : Q) : Q :=
  (inject_Z (rne (a * pow2 (52 - exponent a))) * pow2 (exponent a - 52))%Q.

Definition round64 (x : Q) : Q :=
  if Qle_bool 0 x then roundAbs x else (- roundAbs (- x))%Q.

(** [round64] on an integer that is kept as [Z]. *)
Definition round64Z (z : Z) : Z := Qfloor (round64 (inject_Z z)).

(** [a + b], [a * b] and [a / b] on doubles, and a literal of the source. *)
Definition fadd (a b : Q) : Q := round64 (a + b).
Definition fmul (a b : Q) : Q := round64 (a * b).
Definition fdiv (a b : Q) : Q := round64 (a / b).
Definition literal (q : Q) : Q := round64 q.

(** ** Typed arrays *)

(** [new Uint32Array(bytes.buffer)]: four bytes per word, lowest byte first.
    The codecs return whole pixels; bytes that do not fill a word, for which
    the constructor would throw, are left out. *)
Fixpoint Uint32Array_of_bytes (bs : list byte) : list Z :=
  match bs with
  | b0 :: b1 :: b2 :: b3 :: rest =>
      (Z.of_N (Byte.to_N b0)
       + Z.shiftl (Z.of_N (Byte.to_N b1)) 8
       + Z.shiftl (Z.of_N (Byte.to_N b2)) 16
       + Z.shiftl (Z.of_N (Byte.to_N b3)) 24) :: Uint32Array_of_bytes rest
  | _ => []
  end.

(** [a32[i]] *)
Definition get32 (a32 : list Z) (i : nat) : Z := default 0 (a32 !! i).

(** [a8[i]] on the byte view of the buffer behind [a32] *)
Definition get8 (a32 : list Z) (i : nat) : Z :=
  Z.land (Z.shiftr (get32 a32 (i / 4)) (8 * Z.of_nat (i mod 4))) 0xff.

(** [a32.fill(value, start, end)] *)
Definition fill32 (a32 : list Z) (value : Z) (start end_ : nat) : list Z :=
  list_inserts start (replicate (end_ - start) value) a32.

(** [a32.set(source, offset)] *)
Definition set32 (a32 : list Z) (source : list Z) (offset : nat) : list Z :=
  list_inserts offset source a32.

(** [new Uint32Array(a32.buffer, offset32 * 4, length)] *)
Definition subarray32 (a32 : list Z) (offset32 length : nat) : list Z :=
  take length (drop offset32 a32).

(** [a[i]++] on a [Uint8ClampedArray] *)
Definition clampedIncrement (a : list Z) (i : nat) : list Z :=
  alter (fun v => Z.min 255 (v + 1)) i a.

(** ** Comparison of fractions *)

Definition Qltb (a b : Q) : bool :=
  match (a ?= b)%Q with Lt => true | _ => false end.

(** ** Image and metadata loader *)

(** What a path of the file system holds, as the codecs and [JSON.parse] read
    it: an image a codec decodes, or a metadata text ([None] when it parses to
    a falsy value such as [null]).  Any other content makes the reader throw. *)
Inductive FileContent :=
| PngFile (img : Image.t)
| JpegFile (img : Image.t)
| JsonFile (parsed : option TestInformation.t)
| OtherFile.

Definition Disk := string -> option FileContent.

Definition existsSync (disk : Disk) (path : string) : bool :=
  match disk path with Some _ => true | None => false end.

Fixpoint dotFree (s : string) : bool :=
  match s with
  | EmptyString => true
  | String c rest => negb (Ascii.eqb c ".") && dotFree rest
  end.

(** [Some p] when [s] is [p], a dot and a non-empty extension without dots:
    the match of [/\.[^.]+$/]. *)
Fixpoint stripExtension (s : string) : option string :=
  match s with
  | EmptyString => None
  | String c rest =>
      match stripExtension rest with
      | Some p => Some (String c p)
      | None =>
          if Ascii.eqb c "." && negb (String.eqb rest "") && dotFree rest
          then Some EmptyString
          else None
      end
  end.

(** [imagePath.replace(/\.[^.]+$/i, ".json")] *)
Definition jsonPathOf (imagePath : string) : string :=
  match stripExtension imagePath with
  | Some p => (p ++ ".json")%string
  | None => imagePath
  end.

(** [s.endsWith(suffix)] *)
Definition endsWith (s suffix : string) : bool :=
  (String.length suffix <=? String.length s)%nat
  && String.eqb
       (substring (String.length s - String.length suffix) (String.length suffix) s)
       suffix.

(** [sep] of the platform's [path] module. *)
Definition sep : ascii := "/"%char.

(** [imagePath.split(sep).pop()] *)
Fixpoint getImageFileNameFromPath (imagePath : string) : string :=
  match imagePath with
  | EmptyString => EmptyString
  | String c rest =>
      if existsb (Ascii.eqb sep) (list_ascii_of_string imagePath)
      then getImageFileNameFromPath rest
      else imagePath
  end.

(** [getImageAndTestInformation]; [None] when reading, parsing or decoding
    throws, in which case the promise is never resolved. *)
Definition getImageAndTestInformation (disk : Disk) (imagePath : string)
  : option ImageAndTestInformation :=
  if existsSync disk imagePath then
    let jsonPath := jsonPathOf imagePath in
    parsed ← (if existsSync disk jsonPath then
                match disk jsonPath with
                | Some (JsonFile parsed) => Some parsed
                | _ => None
                end
              else Some None);
    let isPNG := endsWith imagePath ".png" in
    img ← match disk imagePath with
          | Some (PngFile img) => if isPNG then Some img else None
          | Some (JpegFile img) => if isPNG then None else Some img
          | _ => None
          end;
    Some {|
      image := Some img;
      info :=
        Some (match parsed with
              | Some i => i
              | None =>
                  TestInformation.mk (getImageFileNameFromPath imagePath)
                    (Viewport.mk 0 0 (Image.width img) (Image.height img) 1)
              end)
    |}
  else Some {| image := None; info := None |}.

(** ** The diff engine *)

(** [threshold || DEFAULT_THRESHOLD]: [undefined], [NaN] and [0] are falsy. *)
Definition thresholdOrDefault (threshold : JsValue) : Q :=
  match threshold with
  | JsNum q => if Qeq_bool q 0 then DEFAULT_THRESHOLD else q
  | JsUndefined | JsNaN => DEFAULT_THRESHOLD
  end.

Definition BRIGHTNESS_DIFFERENCE_THRESHOLD (threshold : JsValue) : Q :=
  255 * Qmin 1 (Qmax 0 (thresholdOrDefault threshold)).

(** The two definitions above are the expressions of lines 81 and 82 over the
    rationals.  The program evaluates them on doubles: the threshold it is
    given is the double of the number, the default is the double of [0.03],
    and the product with 255 is rounded.  These are the values the loops
    use. *)
Module Double.

Definition thresholdOrDefault (threshold : JsValue) : Q :=
  match threshold with
  | JsNum q => if Qeq_bool (round64 q) 0 then literal DEFAULT_THRESHOLD else round64 q
  | JsUndefined | JsNaN => literal DEFAULT_THRESHOLD
  end.

Definition BRIGHTNESS_DIFFERENCE_THRESHOLD (threshold : JsValue) : Q :=
  fmul 255 (Qmin 1 (Qmax 0 (thresholdOrDefault threshold))).

End Double.

(** The variables of [diffImagesAsync] that are set before the loops and not
    assigned afterwards. *)
Record Setup := {
  width : nat;
  height : nat;
  imagesCount : nat;
  baselineData32 : option (list Z);
  candidateData32 : option (list Z);
  baselineOffsetIncrement32 : nat;
  candidateOffsetIncrement32 : nat;
  lowResScale : nat;
  lowResWidth : nat;
  lowResHeight : nat
}.

(** The variables the loops assign. *)
Record Locals := {
  diffData32 : list Z;
  lowResHighlightData : list Z;
  mismatchedPixels : Z;
  diffHash : Z;
  diffHashStartIndex : Z;
  baselineOffset32 : nat;
  candidateOffset32 : nat
}.

(** The running indices of one row. *)
Record RowCursor := {
  indexDiff32 : nat;
  bIndex8 : nat;
  cIndex8 : nat;
  indexLowRes : Q
}.

(** [Math.ceil(a / b)] on integers.  The divisor is [0] only for a region
    without pixels, for which the program throws before it divides; the value
    is [0] there. *)
Definition ceilDiv (a b : nat) : nat := ((a + (b - 1)) / b)%nat.

(** [indexLowRes | 0] for the non-negative values the index takes. *)
Definition truncIndex (q : Q) : nat := Z.to_nat (Qfloor q).

(** [c * Math.abs(b1 - b2)] for a literal [c] and two bytes. *)
Definition weighted (c : Q) (b1 b2 : Z) : Q :=
  fmul (literal c) (Qabs (inject_Z (b1 - b2))).

(** The brightness difference of the pixels at byte offsets [bIndex8] and
    [cIndex8] of the canvas, whose packed values are [bABGR] and [cABGR]: the
    sum of the three products, added from the left. *)
Definition differenceBrightness (diffData32 : list Z) (bABGR cABGR : Z)
    (bIndex8 cIndex8 : nat) : Q :=
  if bABGR =? cABGR then 0%Q
  else
    fadd
      (fadd
         (weighted 0.299 (get8 diffData32 (bIndex8 + 1)) (get8 diffData32 (cIndex8 + 1)))
         (weighted 0.587 (get8 diffData32 (bIndex8 + 2)) (get8 diffData32 (cIndex8 + 2))))
      (weighted 0.114 (get8 diffData32 (bIndex8 + 3)) (get8 diffData32 (cIndex8 + 3))).

(** The body of the loop over [x], up to the increments of the indices. *)
Definition diffPixel (T : Q) (width x y : nat) (diffHashIndex : Z)
    (cur : RowCursor) (st : Locals) : Locals :=
  let i := indexDiff32 cur in
  let d := diffData32 st in
  let bABGR := get32 d (i - width) in
  let cABGR := get32 d (i + width) in
  let bBGRShifted := js_and (js_shr bABGR 3) 0x001f1f1f in
  if Qltb (differenceBrightness d bABGR cABGR (bIndex8 cur) (cIndex8 cur)) T then
    {| diffData32 := <[i := ToUint32 (js_or bBGRShifted 0xffe0e0e0)]> d;
       lowResHighlightData := lowResHighlightData st;
       mismatchedPixels := mismatchedPixels st;
       diffHash := diffHash st;
       diffHashStartIndex := diffHashStartIndex st;
       baselineOffset32 := baselineOffset32 st;
       candidateOffset32 := candidateOffset32 st |}
  else
    let d1 := <[i := COLOR_HIGHLIGHT_ABGR]> d in
    let seed := diffHash st =? 0 in
    let hash1 := if seed then round64Z (diffHash st + DIFF_HASH_SPREAD) else diffHash st in
    let start1 := if seed then diffHashIndex else diffHashStartIndex st in
    let d2 :=
      if Nat.odd (x + y) then
        let d' :=
          if negb (cABGR =? 0xffffffff)
          then <[(i - width)%nat := ToUint32 (js_or bBGRShifted 0xff6060e0)]> d1
          else d1 in
        if negb (bABGR =? 0xffffffff)
        then
          let cBGRShifted := js_and (js_shr cABGR 3) 0x001f1f1f in
          <[(i + width)%nat := ToUint32 (js_or cBGRShifted 0xff60e060)]> d'
        else d'
      else d1 in
    {| diffData32 := d2;
       lowResHighlightData :=
         clampedIncrement (lowResHighlightData st) (truncIndex (indexLowRes cur));
       mismatchedPixels := mismatchedPixels st + 1;
       diffHash := round64Z (hash1 + round64Z (diffHashIndex - start1));
       diffHashStartIndex := start1;
       baselineOffset32 := baselineOffset32 st;
       candidateOffset32 := candidateOffset32 st |}.

(** The increments at the end of the loop body. *)
Definition advance (lowResScale : nat) (cur : RowCursor) : RowCursor :=
  {| indexDiff32 := S (indexDiff32 cur);
     bIndex8 := bIndex8 cur + COLOR_COMPONENTS;
     cIndex8 := cIndex8 cur + COLOR_COMPONENTS;
     indexLowRes := fadd (indexLowRes cur) (fdiv 1 (inject_Z (Z.of_nat lowResScale))) |}.

(** [for (let x = ...; x < width; x++)] with [n] iterations left. *)
Fixpoint diffPixels (n : nat) (T : Q) (width lowResScale x y : nat)
    (diffHashIndex : Z) (cur : RowCursor) (st : Locals) : Locals :=
  match n with
  | O => st
  | S n' =>
      diffPixels n' T width lowResScale (S x) y diffHashIndex
        (advance lowResScale cur) (diffPixel T width x y diffHashIndex cur st)
  end.

(** The row copy: when the source buffer is there and the guard
    [offset32 <= data32.length - width] holds, [width] words from [offset32]
    are written at [target] and the offset moves on by [increment]. *)
Definition copyRow (data32 : option (list Z)) (offset32 increment width target : nat)
    (d : list Z) : list Z * nat :=
  match data32 with
  | Some a32 =>
      if Z.of_nat offset32 <=? Z.of_nat (length a32) - Z.of_nat width
      then (set32 d (subarray32 a32 offset32 width) target, (offset32 + increment)%nat)
      else (d, offset32)
  | None => (d, offset32)
  end.

(** The first part of the body of the loop over [y]: the highlight of the
    diff line when one image is missing, and the two row copies. *)
Definition copyRows (s : Setup) (y : nat) (st : Locals) : Locals :=
  let w := width s in
  let indexDiff32 := (y * w * 3 + w)%nat in
  let missingOneImage := (imagesCount s =? 1)%nat in
  let d0 :=
    if missingOneImage
    then fill32 (diffData32 st) COLOR_HIGHLIGHT_ABGR indexDiff32 (indexDiff32 + w)
    else diffData32 st in
  let '(d1, bOff) :=
    copyRow (baselineData32 s) (baselineOffset32 st) (baselineOffsetIncrement32 s)
      w (indexDiff32 - w) d0 in
  let '(d2, cOff) :=
    copyRow (candidateData32 s) (candidateOffset32 st) (candidateOffsetIncrement32 s)
      w (indexDiff32 + w) d1 in
  {| diffData32 := d2;
     lowResHighlightData := lowResHighlightData st;
     mismatchedPixels := mismatchedPixels st;
     diffHash := diffHash st;
     diffHashStartIndex := diffHashStartIndex st;
     baselineOffset32 := bOff;
     candidateOffset32 := cOff |}.

(** The indices of a row when its pixel loop starts. *)
Definition rowCursor (s : Setup) (y : nat) : RowCursor :=
  let w := width s in
  let indexDiff32 := (y * w * 3 + w)%nat in
  {| indexDiff32 := indexDiff32;
     bIndex8 := (indexDiff32 - w) * COLOR_COMPONENTS;
     cIndex8 := (indexDiff32 + w) * COLOR_COMPONENTS;
     indexLowRes := inject_Z (Z.of_nat (y / lowResScale s * lowResWidth s)) |}.

(** [y * DIFF_HASH_SPREAD], the value of [diffHashIndex] in row [y]. *)
Definition rowKey (y : nat) : Z := round64Z (Z.of_nat y * DIFF_HASH_SPREAD).

(** The body of the loop over [y]: the copies, then the pixels of the line
    when both images are there. *)
Definition diffRow (T : Q) (s : Setup) (y : nat) (st : Locals) : Locals :=
  let st' := copyRows s y st in
  match baselineData32 s, candidateData32 s with
  | Some _, Some _ =>
      diffPixels (width s) T (width s) (lowResScale s) 0 y (rowKey y) (rowCursor s y) st'
  | _, _ => st'
  end.

(** [for (let y = ...; y < height; y++)] with [n] iterations left. *)
Fixpoint diffRows (n : nat) (T : Q) (s : Setup) (y : nat) (st : Locals) : Locals :=
  match n with
  | O => st
  | S n' => diffRows n' T s (S y) (diffRow T s y st)
  end.

(** ** Low-resolution overlay *)

Definition tintPixel (d : list Z) (i : nat) : list Z :=
  let ABGR := get32 d i in
  if negb (ABGR =? COLOR_HIGHLIGHT_ABGR)
  then <[i := ToUint32 (js_or (js_and ABGR 0xff1f1f1f) 0x60c0e0)]> d
  else d.

(** The four nested loops; [indexDiff32] at column [x] of row [y] is
    [y * width * 3 + width + x]. *)
Definition lowResOverlay (s : Setup) (lowRes d : list Z) : list Z :=
  foldl (fun d lowResY =>
    let yStart := (lowResY * lowResScale s)%nat in
    let yEnd := Nat.min (height s) (yStart + lowResScale s) in
    foldl (fun d lowResX =>
      if 0 <? get32 lowRes (lowResX + lowResY * lowResWidth s) then
        let xStart := (lowResX * lowResScale s)%nat in
        let xEnd := Nat.min (width s) (xStart + lowResScale s) in
        foldl (fun d y =>
          foldl (fun d x => tintPixel d (y * width s * 3 + width s + x))
            d (seq xStart (xEnd - xStart)))
          d (seq yStart (yEnd - yStart))
      else d)
      d (seq 0 (lowResWidth s)))
    d (seq 0 (lowResHeight s)).

(** ** [diffImagesAsync] *)

(** [new PNG({ width: width * 3, height })] of pngjs allocates the buffer
    [data] only for a positive width and a positive height and leaves it
    [null] otherwise, in which case [diffData.buffer] throws. *)
Definition canvasAllocated (s : Setup) : bool :=
  (0 <? width s * 3)%nat && (0 <? height s)%nat.

Record Options := {
  baselineImagePath : string;
  candidateImagePath : string;
  diffImagePath : string;
  threshold : JsValue
}.

(** What one call that resolves does: the value it resolves to ([None] for
    [undefined]) and the canvas it sends to the file at [diffImagePath], if
    any. *)
Record Outcome := {
  result : option DiffResult.t;
  written : option (string * PNG.t)
}.

Section Sentinels.

(** Modelled from the spec: [./types], which exports the two sentinels, is not
    among the sources; the specification says they are the two reserved
    negative values of [mismatchedPixels] for an absent baseline and an absent
    candidate.  They are parameters of the engine. *)
Variables MISSING_BASELINE MISSING_CANDIDATE : Z.

(** The declarations, the two preparation blocks, the canvas and the
    low-resolution grid.  [diffData32] is the buffer of the fresh canvas
    [new PNG(...)] when there is one: [width * 3 * height] words, all zero.
    For a region without pixels there is none, see [canvasAllocated]. *)
Definition prepare (baseline candidate : ImageAndTestInformation) : Setup * Locals :=
  let '(width0, height0, count0, bData32, bOffset32, bIncrement32) :=
    match image baseline, info baseline with
    | Some img, Some inf =>
        let v := TestInformation.viewport inf in
        (Viewport.width v, Viewport.height v, 1%nat,
         Some (Uint32Array_of_bytes (Image.data img)),
         (Viewport.x v + Viewport.y v * Image.width img)%nat, Image.width img)
    | _, _ => (0%nat, 0%nat, 0%nat, None, 0%nat, 0%nat)
    end in
  let '(width1, height1, count1, cData32, cOffset32, cIncrement32) :=
    match image candidate, info candidate with
    | Some img, Some inf =>
        let v := TestInformation.viewport inf in
        (Nat.max width0 (Viewport.width v), Nat.max height0 (Viewport.height v),
         S count0, Some (Uint32Array_of_bytes (Image.data img)),
         (Viewport.x v + Viewport.y v * Image.width img)%nat, Image.width img)
    | _, _ => (width0, height0, count0, None, 0%nat, 0%nat)
    end in
  let missingOneImage := (count1 =? 1)%nat in
  let scale := ceilDiv (Nat.min width1 height1) 8 in
  ({| width := width1;
      height := height1;
      imagesCount := count1;
      baselineData32 := bData32;
      candidateData32 := cData32;
      baselineOffsetIncrement32 := bIncrement32;
      candidateOffsetIncrement32 := cIncrement32;
      lowResScale := scale;
      lowResWidth := ceilDiv width1 scale;
      lowResHeight := ceilDiv height1 scale |},
   {| diffData32 := replicate (width1 * 3 * height1) 0;
      lowResHighlightData := replicate (ceilDiv width1 scale * ceilDiv height1 scale) 0;
      mismatchedPixels :=
        if missingOneImage
        then match bData32 with None => MISSING_BASELINE | Some _ => MISSING_CANDIDATE end
        else 0;
      diffHash := 0;
      diffHashStartIndex := 0;
      baselineOffset32 := bOffset32;
      candidateOffset32 := cOffset32 |}).

(** The function once both loads have resolved; [None] when it throws.  It
    throws at [diffData.buffer] (line 126) when the region has no pixels, as
    [canvasAllocated] tells. *)
Definition diffImages (baseline candidate : ImageAndTestInformation)
    (diffImagePath : string) (threshold : JsValue) : option Outcome :=
  match image baseline, image candidate with
  | None, None => Some {| result := None; written := None |}
  | _, _ =>
      let T := Double.BRIGHTNESS_DIFFERENCE_THRESHOLD threshold in
      let '(s, st0) := prepare baseline candidate in
      if canvasAllocated s then
        let st := diffRows (height s) T s 0 st0 in
        let d :=
          match baselineData32 s, candidateData32 s with
          | Some _, Some _ =>
              if 0 <? mismatchedPixels st
              then lowResOverlay s (lowResHighlightData st) (diffData32 st)
              else diffData32 st
          | _, _ => diffData32 st
          end in
        Some {| result := Some (DiffResult.mk (mismatchedPixels st) (diffHash st));
                written :=
                  if negb (mismatchedPixels st =? 0)
                  then Some (diffImagePath, PNG.mk (width s * 3) (height s) d)
                  else None |}
      else None
  end.

(** [diffImagesAsync]; [None] when the call does not resolve: a load throws
    and its promise stays pending, or the function itself throws. *)
Definition diffImagesAsync (disk : Disk) (options : Options) : option Outcome :=
  baseline ← getImageAndTestInformation disk (baselineImagePath options);
  candidate ← getImageAndTestInformation disk (candidateImagePath options);
  diffImages baseline candidate (diffImagePath options) (threshold options).

End Sentinels.

(** ** Notions the properties are stated with *)

(** Byte [k] of a packed pixel: [0] is red, [1] green, [2] blue, [3] alpha. *)
Definition byteOf (word : Z) (k : Z) : Z := Z.land (Z.shiftr word (8 * k)) 0xff.

(** What [differenceBrightness] evaluates to on two pixels of the canvas, as a
    function of their packed values: the bytes the source reads are those at
    offsets [1], [2] and [3] of each pixel. *)
Definition pixelBrightness (bABGR cABGR : Z) : Q :=
  if bABGR =? cABGR then 0%Q
  else
    fadd
      (fadd (weighted 0.299 (byteOf bABGR 1) (byteOf cABGR 1))
         (weighted 0.587 (byteOf bABGR 2) (byteOf cABGR 2)))
      (weighted 0.114 (byteOf bABGR 3) (byteOf cABGR 3)).

(** The pixel is sent to the [else] branch of the classification. *)
Definition isMismatch (T : Q) (bABGR cABGR : Z) : bool :=
  negb (Qltb (pixelBrightness bABGR cABGR) T).

(** The number of columns [x0 <= x < x0 + n] that satisfy [p]. *)
Fixpoint countColumns (p : nat -> bool) (x0 n : nat) : Z :=
  match n with
  | O => 0
  | S n' => (if p x0 then 1 else 0) + countColumns p (S x0) n'
  end.

(** The number of columns [x0 <= x < x0 + n] of the row starting at word
    [rowBase] of the canvas [d] whose left and right panel pixels mismatch. *)
Definition countMismatches (T : Q) (d : list Z) (rowBase w x0 n : nat) : Z :=
  countColumns
    (fun x => isMismatch T (get32 d (rowBase + x)) (get32 d (rowBase + 2 * w + x)))
    x0 n.

(** The guard of a row copy: the source buffer is there and
    [offset32 <= data32.length - width]. *)
Definition copyGuard (data32 : option (list Z)) (offset32 w : nat) : bool :=
  match data32 with
  | Some a32 => Z.of_nat offset32 <=? Z.of_nat (length a32) - Z.of_nat w
  | None => false
  end.

(** The pixel a row copy puts at column [x] of a side panel of a row that still
    holds the zeros of the fresh canvas: the source pixel when the guard holds,
    and the zero otherwise. *)
Definition sourcePixel (data32 : option (list Z)) (offset32 w x : nat) : Z :=
  if copyGuard data32 offset32 w
  then get32 (default [] data32) (offset32 + x)
  else 0.

(** The indices of a row are those of column [x] of the row at [rowBase]. *)
Definition cursorAt (rowBase w x : nat) (cur : RowCursor) : Prop :=
  indexDiff32 cur = (rowBase + w + x)%nat
  /\ bIndex8 cur = ((rowBase + x) * 4)%nat
  /\ cIndex8 cur = ((rowBase + 2 * w + x) * 4)%nat.

(** The state before row [y]: the canvas has its full size, and the rows from
    [y] on still hold the zeros it was allocated with. *)
Definition pristineFrom (s : Setup) (y : nat) (st : Locals) : Prop :=
  length (diffData32 st) = (width s * 3 * height s)%nat
  /\ forall j, (y * width s * 3 <= j)%nat -> (j < length (diffData32 st))%nat ->
       diffData32 st !! j = Some 0.

(** The relation the loops keep between the count and the hash while the row
    key is [key]: nothing counted and no hash yet, or
    something counted, a hash of at least the seed and a start key that is not
    ahead of the current one. *)
Definition hashInv (key : Z) (st : Locals) : Prop :=
  (mismatchedPixels st = 0 /\ diffHash st = 0)
  \/ (0 < mismatchedPixels st /\ DIFF_HASH_SPREAD <= diffHash st
      /\ diffHashStartIndex st <= key).

(** What one mismatch in a row whose key is [key] does to the hash and to its
    start key (lines 220 to 225), on the pair of the two. *)
Definition hashStep (key : Z) (hs : Z * Z) : Z * Z :=
  let seed := hs.1 =? 0 in
  let hash1 := if seed then round64Z (hs.1 + DIFF_HASH_SPREAD) else hs.1 in
  let start1 := if seed then key else hs.2 in
  (round64Z (hash1 + round64Z (key - start1)), start1).

(** ** The specification's formulas, for comparison with the code *)


(** [0.299*|dR| + 0.587*|dG| + 0.114*|dB|] over the red, green and blue
    channels of two packed pixels; alpha takes no part. *)
Definition lumaDifference (bABGR cABGR : Z) : Q :=
  (0.299 * Qabs (inject_Z (byteOf bABGR 0 - byteOf cABGR 0))
   + 0.587 * Qabs (inject_Z (byteOf bABGR 1 - byteOf cABGR 1))
   + 0.114 * Qabs (inject_Z (byteOf bABGR 2 - byteOf cABGR 2)))%Q.

(** The key of the positional hash for a mismatch in row [y], with [x'] the
    per-row counter of the description. *)
Definition referenceKey (y x' : nat) : Z :=
  Z.of_nat y * DIFF_HASH_SPREAD + Z.of_nat x'.

(** The positional hash as described: [mismatches] lists the mismatched pixels
    in scan order as pairs [(y, x')]; the first seeds the hash with the spread
    and fixes the start key, every later one adds its key minus the start. *)
Definition referenceDiffHash (mismatches : list (nat * nat)) : Z :=
  match mismatches with
  | [] => 0
  | first :: rest =>
      foldl (fun h m => h + (referenceKey m.1 m.2 - referenceKey first.1 first.2))
        DIFF_HASH_SPREAD rest
  end.

(** ** The side-panel tints *)

Definition PURE_WHITE : Z := 0xffffffff.

(** The red filter over a pixel: [bBGRShifted | 0xff6060e0] as stored. *)
Definition redTint (ABGR : Z) : Z :=
  ToUint32 (js_or (js_and (js_shr ABGR 3) 0x001f1f1f) 0xff6060e0).

(** The green filter over a pixel: [cBGRShifted | 0xff60e060] as stored. *)
Definition greenTint (ABGR : Z) : Z :=
  ToUint32 (js_or (js_and (js_shr ABGR 3) 0x001f1f1f) 0xff60e060).

(** What the pixel loop leaves in the baseline-side (left) panel at a column
    whose pixels were [bABGR] and [cABGR], and in the candidate-side (right)
    panel. *)
Definition leftPanelPixel (T : Q) (x y : nat) (bABGR cABGR : Z) : Z :=
  if isMismatch T bABGR cABGR && Nat.odd (x + y) && negb (cABGR =? PURE_WHITE)
  then redTint bABGR else bABGR.

Definition rightPanelPixel (T : Q) (x y : nat) (bABGR cABGR : Z) : Z :=
  if isMismatch T bABGR cABGR && Nat.odd (x + y) && negb (bABGR =? PURE_WHITE)
  then greenTint cABGR else cABGR.

(** ** Sample inputs *)

Fixpoint solidPixels (n : nat) (r g b a : byte) : list byte :=
  match n with
  | O => []
  | S n' => r :: g :: b :: a :: solidPixels n' r g b a
  end.

(** An image of one colour. *)
Definition solidImage (w h : nat) (r g b a : byte) : Image.t :=
  Image.mk w h (solidPixels (w * h) r g b a).

(** What the loader returns for an image that has no metadata file. *)
Definition fullFrame (name : string) (img : Image.t) : ImageAndTestInformation :=
  {| image := Some img;
     info := Some (TestInformation.mk name
                     (Viewport.mk 0 0 (Image.width img) (Image.height img) 1)) |}.

(** A file system with the listed files. *)
Fixpoint diskOf (files : list (string * FileContent)) : Disk :=
  fun path =>
    match files with
    | [] => None
    | (p, f) :: rest => if String.eqb p path then Some f else diskOf rest path
    end.

Definition sampleJob (t : JsValue) : Options :=
  {| baselineImagePath := "baseline.png";
     candidateImagePath := "candidate.png";
     diffImagePath := "diff.png";
     threshold := t |}.

Definition black4x4 : Image.t := solidImage 4 4 x00 x00 x00 xff.
Definition white4x4 : Image.t := solidImage 4 4 xff xff xff xff.
Definition blackPixel : Image.t := solidImage 1 1 x00 x00 x00 xff.
Definition redPixel : Image.t := solidImage 1 1 xff x00 x00 xff.
Definition darkGreenPixel : Image.t := solidImage 1 1 x00 x0a x00 xff.
Definition clearPixel : Image.t := solidImage 1 1 x00 x00 x00 x00.
Definition black2x1 : Image.t := solidImage 2 1 x00 x00 x00 xff.
Definition white2x1 : Image.t := solidImage 2 1 xff xff xff xff.
Definition blue2x1 : Image.t := solidImage 2 1 x00 x00 xff xff.

Definition blackWhiteDisk : Disk :=
  diskOf [("baseline.png"%string, PngFile black4x4);
          ("candidate.png"%string, PngFile white4x4)].
Definition baselineOnlyDisk : Disk :=
  diskOf [("baseline.png"%string, PngFile black4x4)].
Definition candidateOnlyDisk : Disk :=
  diskOf [("candidate.png"%string, PngFile white4x4)].
Definition sameImageDisk : Disk :=
  diskOf [("baseline.png"%string, PngFile black4x4);
          ("candidate.png"%string, PngFile black4x4)].
Definition faintChangeDisk : Disk :=
  diskOf [("baseline.png"%string, PngFile blackPixel);
          ("candidate.png"%string, PngFile darkGreenPixel)].

(** A strip of two pixels, black then white, one pixel wide and two high, and
    the same two pixels side by side. *)
Definition twoPixels : list byte := [x00; x00; x00; xff; xff; xff; xff; xff].
Definition tallStrip : Image.t := Image.mk 1 2 twoPixels.
Definition wideStrip : Image.t := Image.mk 2 1 twoPixels.

(** A pixel whose exact brightness difference from the zero pixel is 127.5. *)
Definition tiePixel : Image.t := solidImage 1 1 x00 x00 xcc x44.

(** The metadata of a capture whose viewport has no width. *)
Definition noWidth (name : string) : TestInformation.t :=
  TestInformation.mk name (Viewport.mk 0 0 0 4 1).

Definition emptyViewportDisk : Disk :=
  diskOf [("baseline.png"%string, PngFile black4x4);
          ("baseline.json"%string, JsonFile (Some (noWidth "shot")));
          ("candidate.png"%string, PngFile black4x4);
          ("candidate.json"%string, JsonFile (Some (noWidth "shot")))].
Definition stripsDisk : Disk :=
  diskOf [("baseline.png"%string, PngFile tallStrip);
          ("candidate.png"%string, PngFile wideStrip)].
Definition tieDisk : Disk :=
  diskOf [("baseline.png"%string, PngFile clearPixel);
          ("candidate.png"%string, PngFile tiePixel)].

(** A black image of 17 by 17 pixels, and the same with a white pixel at
    column 6 of row 0. *)
Definition black17 : Image.t := solidImage 17 17 x00 x00 x00 xff.
Definition spot17 : Image.t :=
  Image.mk 17 17
    (solidPixels 6 x00 x00 x00 xff ++ solidPixels 1 xff xff xff xff
       ++ solidPixels (17 * 17 - 7) x00 x00 x00 xff).
Definition spotDisk : Disk :=
  diskOf [("baseline.png"%string, PngFile black17);
          ("candidate.png"%string, PngFile spot17)].

(** ** Notions for the further properties *)

(** The path has a separator in it. *)
Definition hasSep (path : string) : bool :=
  existsb (Ascii.eqb sep) (list_ascii_of_string path).

(** The setup of a comparison, and the state of its loop over the rows when
    row [y] starts (so that row [height] is the state the loop ends in). *)
Definition setupOf (MB MC : Z) (b c : ImageAndTestInformation) : Setup :=
  (prepare MB MC b c).1.

Definition stateAtRow (MB MC : Z) (b c : ImageAndTestInformation) (t : JsValue)
    (y : nat) : Locals :=
  diffRows y (Double.BRIGHTNESS_DIFFERENCE_THRESHOLD t) (setupOf MB MC b c) 0
    (prepare MB MC b c).2.

(** The baseline and candidate pixels that the copies of row [y] put on the
    canvas at column [x]. *)
Definition baselinePixelAt (MB MC : Z) (b c : ImageAndTestInformation) (t : JsValue)
    (x y : nat) : Z :=
  let s := setupOf MB MC b c in
  sourcePixel (baselineData32 s) (baselineOffset32 (stateAtRow MB MC b c t y)) (width s) x.

Definition candidatePixelAt (MB MC : Z) (b c : ImageAndTestInformation) (t : JsValue)
    (x y : nat) : Z :=
  let s := setupOf MB MC b c in
  sourcePixel (candidateData32 s) (candidateOffset32 (stateAtRow MB MC b c t y)) (width s) x.

(** Both images are there, each with its information record. *)
Definition bothPresent (b c : ImageAndTestInformation) : Prop :=
  image b <> None /\ info b <> None /\ image c <> None /\ info c <> None.

(** The washed-out pixel written to the centre panel for a match:
    [bBGRShifted | 0xffe0e0e0] as stored. *)
Definition washedOut (ABGR : Z) : Z :=
  ToUint32 (js_or (js_and (js_shr ABGR 3) 0x001f1f1f) 0xffe0e0e0).

(** The translucent tint of the overlay: [(ABGR & 0xff1f1f1f) | 0x60c0e0] as
    stored. *)
Definition overlayTint (ABGR : Z) : Z :=
  ToUint32 (js_or (js_and ABGR 0xff1f1f1f) 0x60c0e0).

(** What the pixel loop writes to the centre panel at a column whose pixels
    were [bABGR] and [cABGR]. *)
Definition centrePanelPixel (T : Q) (bABGR cABGR : Z) : Z :=
  if isMismatch T bABGR cABGR then COLOR_HIGHLIGHT_ABGR else washedOut bABGR.

(** * Double-precision numbers *)

(** ** Powers of two and binades *)

Lemma pow2_pos e : (0 < pow2 e)%Q.
Proof. apply Qpower_0_lt. reflexivity. Qed.

Lemma pow2_add a b : (pow2 (a + b) == pow2 a * pow2 b)%Q.
Proof. apply Qpower_plus. discriminate. Qed.

Lemma pow2_le a b : a <= b -> (pow2 a <= pow2 b)%Q.
Proof. intros H. apply Qpower_le_compat_l; [done | discriminate]. Qed.

Lemma pow2_lt a b : a < b -> (pow2 a < pow2 b)%Q.
Proof. intros H. apply Qpower_lt_compat_l; [done | reflexivity]. Qed.

Lemma pow2_Z e : 0 <= e -> (pow2 e == inject_Z (2 ^ e))%Q.
Proof. intros H. symmetry. apply (Zpower_Qpower 2 e H). Qed.

Lemma pow2_cancel a : (pow2 a * pow2 (- a) == 1)%Q.
Proof. rewrite <- pow2_add. replace (a + - a) with 0 by lia. reflexivity. Qed.

Lemma pow2_lt_inv a b : (pow2 a < pow2 b)%Q -> a < b.
Proof.
  intros H. destruct (Z.lt_ge_cases a b) as [|Hge]; [done |].
  apply pow2_le in Hge. lra.
Qed.

Lemma binade_spec x : (0 < x)%Q -> (pow2 (binade x) <= x < pow2 (binade x + 1))%Q.
Proof.
  intros Hx. destruct x as [n d]. unfold binade. cbn [Qnum Qden].
  assert (Hn : 0 < n) by (unfold Qlt in Hx; cbn in Hx; lia).
  set (ln := Z.log2 n). set (ld := Z.log2 (Z.pos d)).
  destruct (Z.log2_spec n Hn) as [Hn1 Hn2]. fold ln in Hn1, Hn2.
  destruct (Z.log2_spec (Z.pos d) ltac:(lia)) as [Hd1 Hd2]. fold ld in Hd1, Hd2.
  assert (Hln : 0 <= ln) by apply Z.log2_nonneg.
  assert (Hld : 0 <= ld) by apply Z.log2_nonneg.
  assert (Ex : ((n # d) * inject_Z (Z.pos d) == inject_Z n)%Q).
  { unfold Qeq, Qmult, inject_Z. cbn. lia. }
  assert (Qn1 : (pow2 ln <= inject_Z n)%Q).
  { rewrite pow2_Z by lia. rewrite <- Zle_Qle. lia. }
  assert (Qn2 : (inject_Z n < pow2 (ln + 1))%Q).
  { rewrite pow2_Z by lia. rewrite <- Zlt_Qlt. lia. }
  assert (Qd1 : (pow2 ld <= inject_Z (Z.pos d))%Q).
  { rewrite pow2_Z by lia. rewrite <- Zle_Qle. lia. }
  assert (Qd2 : (inject_Z (Z.pos d) < pow2 (ld + 1))%Q).
  { rewrite pow2_Z by lia. rewrite <- Zlt_Qlt. lia. }
  pose proof (pow2_pos ld) as Pld. pose proof (pow2_pos (ld + 1)) as Pld1.
  pose proof (pow2_pos (ln - ld - 1)) as P1. pose proof (pow2_pos (ln - ld + 1)) as P2.
  assert (Up : ((n # d) < pow2 (ln - ld + 1))%Q).
  { assert (E : (pow2 (ln + 1) == pow2 (ln - ld + 1) * pow2 ld)%Q).
    { rewrite <- pow2_add. by replace (ln - ld + 1 + ld) with (ln + 1) by lia. }
    nra. }
  assert (Lo : (pow2 (ln - ld - 1) < (n # d))%Q).
  { assert (E : (pow2 ln == pow2 (ln - ld - 1) * pow2 (ld + 1))%Q).
    { rewrite <- pow2_add. by replace (ln - ld - 1 + (ld + 1)) with ln by lia. }
    nra. }
  destruct (Qle_bool (pow2 (ln - ld)) (n # d)) eqn:E.
  - apply Qle_bool_iff in E. split; [done | done].
  - assert (Hlt : ((n # d) < pow2 (ln - ld))%Q).
    { apply Qnot_le_lt. intros H. apply Qle_bool_iff in H. congruence. }
    replace (ln - ld - 1 + 1) with (ln - ld) by lia. split; [lra | done].
Qed.

Lemma binade_mono x y : (0 < x)%Q -> (x <= y)%Q -> binade x <= binade y.
Proof.
  intros Hx Hxy.
  destruct (binade_spec x Hx) as [Hx1 _].
  destruct (binade_spec y ltac:(lra)) as [_ Hy2].
  assert (H : binade x < binade y + 1) by (apply pow2_lt_inv; lra).
  lia.
Qed.

Lemma rne_Z z : rne (inject_Z z) = z.
Proof.
  unfold rne. rewrite Qfloor_Z.
  destruct (Qcompare_spec (inject_Z z - inject_Z z) (1 # 2)) as [H|H|H]; [lra | done | lra].
Qed.

Lemma rne_mono x y : (x <= y)%Q -> rne x <= rne y.
Proof.
  intros Hxy. unfold rne.
  pose proof (Qfloor_le x) as Hx1. pose proof (Qlt_floor x) as Hx2.
  pose proof (Qfloor_le y) as Hy1. pose proof (Qlt_floor y) as Hy2.
  pose proof (Qfloor_resp_le x y Hxy) as Hf.
  rewrite inject_Z_plus in Hx2, Hy2.
  destruct (Z.eq_dec (Qfloor x) (Qfloor y)) as [E|E].
  - rewrite <- E in *. set (f := Qfloor x) in *.
    destruct (Qcompare_spec (x - inject_Z f) (1 # 2)) as [H1|H1|H1];
      destruct (Qcompare_spec (y - inject_Z f) (1 # 2)) as [H2|H2|H2];
      try lra; destruct (Z.even f); lia.
  - assert (Qfloor x + 1 <= Qfloor y) by lia.
    destruct (Qcompare_spec (x - inject_Z (Qfloor x)) (1 # 2));
      destruct (Qcompare_spec (y - inject_Z (Qfloor y)) (1 # 2));
      destruct (Z.even (Qfloor x)); destruct (Z.even (Qfloor y)); lia.
Qed.

Lemma rne_nonneg x : (0 <= x)%Q -> 0 <= rne x.
Proof. intros H. rewrite <- (rne_Z 0). by apply rne_mono. Qed.

Lemma exponent_min a : -1022 <= exponent a.
Proof. unfold exponent. lia. Qed.

Lemma roundAbs_nonneg a : (0 <= a)%Q -> (0 <= roundAbs a)%Q.
Proof.
  intros Ha. unfold roundAbs.
  pose proof (pow2_pos (52 - exponent a)). pose proof (pow2_pos (exponent a - 52)).
  assert (0 <= rne (a * pow2 (52 - exponent a))) as Hr by (apply rne_nonneg; nra).
  rewrite Zle_Qle in Hr. change (inject_Z 0) with 0%Q in Hr. nra.
Qed.

Lemma roundAbs_0 a : (a == 0)%Q -> (roundAbs a == 0)%Q.
Proof.
  intros Ha. unfold roundAbs.
  assert (E : rne (a * pow2 (52 - exponent a)) = 0).
  { pose proof (pow2_pos (52 - exponent a)). apply Z.le_antisymm.
    - rewrite <- (rne_Z 0). apply rne_mono. change (inject_Z 0) with 0%Q. nra.
    - apply rne_nonneg. nra. }
  rewrite E. change (inject_Z 0) with 0%Q. lra.
Qed.

(** The scaled mantissa of a positive number is below [2^53], and at least
    [2^52] unless the number is subnormal. *)
Lemma scaled_bounds a :
  (0 < a)%Q ->
  (a * pow2 (52 - exponent a) < inject_Z (2 ^ 53))%Q
  /\ (exponent a = binade a -> (inject_Z (2 ^ 52) <= a * pow2 (52 - exponent a))%Q).
Proof.
  intros Ha. destruct (binade_spec a Ha) as [H1 H2].
  pose proof (pow2_pos (52 - exponent a)) as Hp.
  rewrite <- !pow2_Z by lia. split.
  - assert (Hle : (pow2 (binade a + 1) <= pow2 (exponent a + 1))%Q).
    { apply pow2_le. unfold exponent. lia. }
    assert (E : (pow2 53 == pow2 (exponent a + 1) * pow2 (52 - exponent a))%Q).
    { rewrite <- pow2_add. by replace (exponent a + 1 + (52 - exponent a)) with 53 by lia. }
    nra.
  - intros E. rewrite <- E in H1.
    assert (E2 : (pow2 52 == pow2 (exponent a) * pow2 (52 - exponent a))%Q).
    { rewrite <- pow2_add. by replace (exponent a + (52 - exponent a)) with 52 by lia. }
    nra.
Qed.

Lemma roundAbs_bounds a :
  (0 < a)%Q ->
  (roundAbs a <= pow2 (exponent a + 1))%Q
  /\ (exponent a = binade a -> (pow2 (exponent a) <= roundAbs a)%Q).
Proof.
  intros Ha. destruct (scaled_bounds a Ha) as [H1 H2]. unfold roundAbs.
  pose proof (pow2_pos (exponent a - 52)) as Hp. split.
  - assert (Hr : rne (a * pow2 (52 - exponent a)) <= 2 ^ 53).
    { rewrite <- (rne_Z (2 ^ 53)). apply rne_mono. lra. }
    rewrite Zle_Qle in Hr. rewrite <- pow2_Z in Hr by lia.
    assert (E : (pow2 (exponent a + 1) == pow2 53 * pow2 (exponent a - 52))%Q).
    { rewrite <- pow2_add. by replace (53 + (exponent a - 52)) with (exponent a + 1) by lia. }
    nra.
  - intros E. specialize (H2 E).
    assert (Hr : 2 ^ 52 <= rne (a * pow2 (52 - exponent a))).
    { rewrite <- (rne_Z (2 ^ 52)). by apply rne_mono. }
    rewrite Zle_Qle in Hr. rewrite <- pow2_Z in Hr by lia.
    assert (E2 : (pow2 (exponent a) == pow2 52 * pow2 (exponent a - 52))%Q).
    { rewrite <- pow2_add. by replace (52 + (exponent a - 52)) with (exponent a) by lia. }
    nra.
Qed.

Lemma roundAbs_mono x y : (0 <= x)%Q -> (x <= y)%Q -> (roundAbs x <= roundAbs y)%Q.
Proof.
  intros Hx Hxy.
  destruct (Qlt_le_dec 0 x) as [Hpos|Hzero].
  2:{ rewrite (roundAbs_0 x) by lra. apply roundAbs_nonneg. lra. }
  assert (He : exponent x <= exponent y).
  { unfold exponent. pose proof (binade_mono x y Hpos Hxy). lia. }
  destruct (Z.eq_dec (exponent x) (exponent y)) as [E|E].
  - unfold roundAbs. rewrite E.
    pose proof (pow2_pos (52 - exponent y)). pose proof (pow2_pos (exponent y - 52)).
    assert (Hr : rne (x * pow2 (52 - exponent y)) <= rne (y * pow2 (52 - exponent y))).
    { apply rne_mono. nra. }
    rewrite Zle_Qle in Hr. nra.
  - destruct (roundAbs_bounds x Hpos) as [Hx1 _].
    destruct (roundAbs_bounds y ltac:(lra)) as [_ Hy2].
    assert (Ey : exponent y = binade y) by (unfold exponent in *; lia).
    specialize (Hy2 Ey).
    assert (Hle : (pow2 (exponent x + 1) <= pow2 (exponent y))%Q) by (apply pow2_le; lia).
    lra.
Qed.

Lemma round64_nonneg_eq x : (0 <= x)%Q -> round64 x = roundAbs x.
Proof. intros H. unfold round64. apply Qle_bool_iff in H. by rewrite H. Qed.

Lemma round64_neg_eq x : (x < 0)%Q -> round64 x = (- roundAbs (- x))%Q.
Proof.
  intros H. unfold round64. destruct (Qle_bool 0 x) eqn:E; [| done].
  apply Qle_bool_iff in E. lra.
Qed.

Lemma round64_mono x y : (x <= y)%Q -> (round64 x <= round64 y)%Q.
Proof.
  intros Hxy.
  destruct (Qlt_le_dec x 0) as [Hx|Hx]; destruct (Qlt_le_dec y 0) as [Hy|Hy].
  - rewrite !round64_neg_eq by done.
    pose proof (roundAbs_mono (- y) (- x) ltac:(lra) ltac:(lra)). lra.
  - rewrite round64_neg_eq, round64_nonneg_eq by done.
    pose proof (roundAbs_nonneg (- x) ltac:(lra)). pose proof (roundAbs_nonneg y Hy). lra.
  - lra.
  - rewrite !round64_nonneg_eq by done. by apply roundAbs_mono.
Qed.

Lemma round64_0 : (round64 0 == 0)%Q.
Proof. reflexivity. Qed.

Lemma round64_nonneg x : (0 <= x)%Q -> (0 <= round64 x)%Q.
Proof. intros H. rewrite <- round64_0. by apply round64_mono. Qed.

Lemma round64_nonpos x : (x <= 0)%Q -> (round64 x <= 0)%Q.
Proof. intros H. rewrite <- round64_0. by apply round64_mono. Qed.

(** A double that is not zero is at least the least subnormal in size. *)
Lemma round64_least x :
  (0 <= x)%Q -> ~ (round64 x == 0)%Q -> (pow2 (-1074) <= round64 x)%Q.
Proof.
  intros Hx Hne. rewrite round64_nonneg_eq in * by done. unfold roundAbs in *.
  set (m := rne (x * pow2 (52 - exponent x))) in *.
  pose proof (pow2_pos (52 - exponent x)).
  assert (Hm : 0 <= m) by (apply rne_nonneg; nra).
  assert (Hm1 : 1 <= m).
  { destruct (Z.eq_dec m 0) as [E|E]; [| lia]. exfalso. apply Hne. rewrite E.
    change (inject_Z 0) with 0%Q. lra. }
  rewrite Zle_Qle in Hm1. change (inject_Z 1) with 1%Q in Hm1.
  assert (Hp : (pow2 (-1074) <= pow2 (exponent x - 52))%Q).
  { apply pow2_le. pose proof (exponent_min x). lia. }
  pose proof (pow2_pos (-1074)). nra.
Qed.

Lemma round64_proper x y : (x == y)%Q -> (round64 x == round64 y)%Q.
Proof.
  intros E. apply Qle_antisym; apply round64_mono; rewrite E; lra.
Qed.

Lemma round64Z_mono a b : a <= b -> round64Z a <= round64Z b.
Proof.
  intros H. unfold round64Z. apply Qfloor_resp_le, round64_mono. by rewrite <- Zle_Qle.
Qed.

Lemma round64Z_0 : round64Z 0 = 0.
Proof. reflexivity. Qed.

Lemma round64Z_nonneg z : 0 <= z -> 0 <= round64Z z.
Proof. intros H. rewrite <- round64Z_0. by apply round64Z_mono. Qed.

(** An integer of size at most [2^53] is a double. *)
Lemma round64Z_exact z : 0 <= z <= 2 ^ 53 -> round64Z z = z.
Proof.
  intros [H0 H1].
  destruct (Z.eq_dec z 0) as [->|Hz]; [exact round64Z_0 |].
  destruct (Z.eq_dec z (2 ^ 53)) as [->|Hz']; [reflexivity |].
  assert (Hpos : (0 < inject_Z z)%Q).
  { change 0%Q with (inject_Z 0). rewrite <- Zlt_Qlt. lia. }
  destruct (binade_spec (inject_Z z) Hpos) as [Hlo Hhi].
  assert (Hb0 : 0 <= binade (inject_Z z)).
  { assert (pow2 0 < pow2 (binade (inject_Z z) + 1))%Q as Hlt.
    { apply Qle_lt_trans with (inject_Z z); [| done].
      change (pow2 0) with (inject_Z 1). rewrite <- Zle_Qle. lia. }
    apply pow2_lt_inv in Hlt. lia. }
  assert (Hb1 : binade (inject_Z z) <= 52).
  { assert (pow2 (binade (inject_Z z)) < pow2 53)%Q as Hlt.
    { apply Qle_lt_trans with (inject_Z z); [done |].
      rewrite (pow2_Z 53) by lia. rewrite <- Zlt_Qlt. lia. }
    apply pow2_lt_inv in Hlt. lia. }
  unfold round64Z. rewrite round64_nonneg_eq by (by apply Qlt_le_weak).
  unfold roundAbs, exponent. rewrite Z.max_l by lia.
  set (e := binade (inject_Z z)) in *.
  assert (Es : (inject_Z z * pow2 (52 - e) == inject_Z (z * 2 ^ (52 - e)))%Q).
  { rewrite (pow2_Z (52 - e)) by lia. by rewrite inject_Z_mult. }
  assert (Er : rne (inject_Z z * pow2 (52 - e)) = z * 2 ^ (52 - e)).
  { rewrite <- (rne_Z (z * 2 ^ (52 - e))).
    apply Z.le_antisymm; apply rne_mono; rewrite Es; apply Qle_refl. }
  rewrite Er, inject_Z_mult, <- (pow2_Z (52 - e)) by lia.
  rewrite <- (Qfloor_Z z) at 2. apply Qfloor_comp.
  rewrite <- Qmult_assoc.
  replace (e - 52) with (- (52 - e)) by lia.
  rewrite pow2_cancel. apply Qmult_1_r.
Qed.

(** Past [2^53] a rounded integer stays past it. *)
Lemma round64Z_large z : 2 ^ 53 <= z -> 2 ^ 53 <= round64Z z.
Proof.
  intros H. rewrite <- (round64Z_exact (2 ^ 53)) at 1 by lia. by apply round64Z_mono.
Qed.

(** * Reasoning about the loops *)

(** ** Typed arrays and bytes *)

Lemma get32_insert_ne (d : list Z) (i j : nat) (v : Z) :
  i ≠ j -> get32 (<[i := v]> d) j = get32 d j.
Proof. intros H. unfold get32. by rewrite list_lookup_insert_ne. Qed.

Lemma get32_insert_eq (d : list Z) (i : nat) (v : Z) :
  (i < length d)%nat -> get32 (<[i := v]> d) i = v.
Proof. intros H. unfold get32. by rewrite list_lookup_insert_eq. Qed.

Lemma get8_word (d : list Z) (k j : nat) :
  (j < 4)%nat -> get8 d (k * 4 + j) = byteOf (get32 d k) (Z.of_nat j).
Proof.
  intros Hj. unfold get8, byteOf.
  replace ((k * 4 + j) / 4)%nat with k by (apply Nat.div_unique with j; lia).
  replace ((k * 4 + j) mod 4)%nat with j by (apply Nat.mod_unique with k; lia).
  reflexivity.
Qed.

Lemma differenceBrightness_words (d : list Z) (kb kc : nat) :
  differenceBrightness d (get32 d kb) (get32 d kc) (kb * 4) (kc * 4)
  = pixelBrightness (get32 d kb) (get32 d kc).
Proof.
  unfold differenceBrightness, pixelBrightness.
  destruct (get32 d kb =? get32 d kc); [reflexivity |].
  rewrite !get8_word by lia. reflexivity.
Qed.

Lemma fill32_spec (d : list Z) v i w :
  length (fill32 d v i (i + w)) = length d
  /\ forall j, (j < i \/ i + w <= j)%nat -> fill32 d v i (i + w) !! j = d !! j.
Proof.
  unfold fill32. split; [apply length_inserts |].
  intros j [Hj|Hj].
  - by apply list_lookup_inserts_lt.
  - apply list_lookup_inserts_ge. rewrite length_replicate. lia.
Qed.

Lemma copyRow_spec data32 offset32 increment w target (d : list Z) :
  (target + w <= length d)%nat ->
  let r := copyRow data32 offset32 increment w target d in
  length r.1 = length d
  /\ (forall j, (j < target \/ target + w <= j)%nat -> r.1 !! j = d !! j)
  /\ (forall x, (x < w)%nat ->
        get32 r.1 (target + x)
        = if copyGuard data32 offset32 w
          then get32 (default [] data32) (offset32 + x)
          else get32 d (target + x))
  /\ r.2 = if copyGuard data32 offset32 w then (offset32 + increment)%nat else offset32.
Proof.
  intros Hfit. unfold copyRow, copyGuard.
  destruct data32 as [a32|]; [| by repeat split].
  destruct (Z.leb_spec (Z.of_nat offset32) (Z.of_nat (length a32) - Z.of_nat w)) as [Hg|Hg];
    [| by repeat split].
  assert (Hlen : length (subarray32 a32 offset32 w) = w).
  { unfold subarray32. rewrite length_take, length_drop. lia. }
  cbn [fst snd]. unfold set32. repeat split.
  - apply length_inserts.
  - intros j [Hj|Hj].
    + by apply list_lookup_inserts_lt.
    + apply list_lookup_inserts_ge. lia.
  - intros x Hx. unfold get32.
    rewrite list_lookup_inserts by lia.
    replace (target + x - target)%nat with x by lia.
    unfold subarray32. rewrite lookup_take_lt by done. by rewrite lookup_drop.
Qed.

(** ** Counting columns *)

Lemma countColumns_ext p q x n :
  (forall x', (x <= x' < x + n)%nat -> p x' = q x') ->
  countColumns p x n = countColumns q x n.
Proof.
  revert x. induction n as [|n IH]; intros x H; cbn [countColumns]; [done |].
  rewrite (H x) by lia. rewrite (IH (S x)); [done |]. intros x' Hx'. apply H. lia.
Qed.

Lemma countColumns_nonneg p x n : 0 <= countColumns p x n.
Proof.
  revert x. induction n as [|n IH]; intros x; cbn [countColumns]; [done |].
  specialize (IH (S x)). destruct (p x); lia.
Qed.

Lemma countColumns_le p q x n :
  (forall x', (x <= x' < x + n)%nat -> p x' = true -> q x' = true) ->
  countColumns p x n <= countColumns q x n.
Proof.
  revert x. induction n as [|n IH]; intros x H; cbn [countColumns]; [done |].
  assert (countColumns p (S x) n <= countColumns q (S x) n).
  { apply IH. intros x' Hx'. apply H. lia. }
  pose proof (H x ltac:(lia)).
  destruct (p x), (q x); lia.
Qed.

Lemma countColumns_none p x n :
  (forall x', (x <= x' < x + n)%nat -> p x' = false) -> countColumns p x n = 0.
Proof.
  revert x. induction n as [|n IH]; intros x H; cbn [countColumns]; [done |].
  rewrite (H x) by lia. rewrite IH; [done |]. intros x' Hx'. apply H. lia.
Qed.

Lemma countColumns_pos p x0 n x :
  (x0 <= x < x0 + n)%nat -> p x = true -> 1 <= countColumns p x0 n.
Proof.
  revert x0. induction n as [|n IH]; intros x0 Hx Hp; cbn [countColumns]; [lia |].
  destruct (decide (x = x0)) as [->|Hne].
  - rewrite Hp. pose proof (countColumns_nonneg p (S x0) n). lia.
  - specialize (IH (S x0) ltac:(lia) Hp). destruct (p x0); lia.
Qed.

Lemma countMismatches_ext T d d' rb w x n :
  (forall x', (x <= x' < x + n)%nat ->
     get32 d (rb + x') = get32 d' (rb + x')
     /\ get32 d (rb + 2 * w + x') = get32 d' (rb + 2 * w + x')) ->
  countMismatches T d rb w x n = countMismatches T d' rb w x n.
Proof.
  intros H. apply countColumns_ext. intros x' Hx'.
  by destruct (H x' Hx') as [-> ->].
Qed.

Lemma countMismatches_S T d rb w x n :
  countMismatches T d rb w x (S n)
  = (if isMismatch T (get32 d (rb + x)) (get32 d (rb + 2 * w + x)) then 1 else 0)
    + countMismatches T d rb w (S x) n.
Proof. reflexivity. Qed.

(** ** Thresholds and classification *)

Lemma Qltb_lt a b : Qltb a b = true <-> (a < b)%Q.
Proof.
  unfold Qltb. rewrite Qlt_alt. destruct (a ?= b)%Q; split; congruence.
Qed.

Lemma thresholdOrDefault_nonzero q : ~ (q == 0)%Q -> thresholdOrDefault (JsNum q) = q.
Proof.
  intros H. unfold thresholdOrDefault.
  destruct (Qeq_bool q 0) eqn:E; [| done].
  by apply Qeq_bool_iff in E.
Qed.

Lemma threshold_positive t :
  match t with JsNum q => (0 <= q)%Q | _ => True end ->
  (0 < BRIGHTNESS_DIFFERENCE_THRESHOLD t)%Q.
Proof.
  intros Ht.
  assert (Hpos : (0 < thresholdOrDefault t)%Q).
  { destruct t as [| |q]; try reflexivity. unfold thresholdOrDefault.
    destruct (Qeq_bool q 0) eqn:E; [reflexivity |].
    apply Qeq_bool_neq in E. apply Qle_lteq in Ht as [Ht|Ht]; [done |].
    exfalso. apply E. by symmetry. }
  unfold BRIGHTNESS_DIFFERENCE_THRESHOLD.
  apply Qmult_lt_0_compat; [reflexivity |].
  apply Q.min_glb_lt; [reflexivity |].
  apply Qlt_le_trans with (thresholdOrDefault t); [done | apply Q.le_max_r].
Qed.

Lemma threshold_monotone q1 q2 :
  (0 < q1)%Q -> (q1 <= q2)%Q ->
  (BRIGHTNESS_DIFFERENCE_THRESHOLD (JsNum q1) <= BRIGHTNESS_DIFFERENCE_THRESHOLD (JsNum q2))%Q.
Proof.
  intros H1 H12. unfold BRIGHTNESS_DIFFERENCE_THRESHOLD.
  rewrite !thresholdOrDefault_nonzero.
  - apply Qmult_le_l; [reflexivity |].
    apply Q.min_le_compat_l, Q.max_le_compat_l, H12.
  - intros E. rewrite E in H12. apply (Qlt_irrefl 0). by apply Qlt_le_trans with q1.
  - intros E. rewrite E in H1. by apply (Qlt_irrefl 0).
Qed.


Lemma isMismatch_monotone T1 T2 b c :
  (T1 <= T2)%Q -> isMismatch T2 b c = true -> isMismatch T1 b c = true.
Proof.
  unfold isMismatch. intros HT H.
  destruct (Qltb (pixelBrightness b c) T1) eqn:E; [| done].
  apply Qltb_lt in E.
  assert (E2 : Qltb (pixelBrightness b c) T2 = true).
  { apply Qltb_lt. by apply Qlt_le_trans with T1. }
  by rewrite E2 in H.
Qed.

Lemma isMismatch_same T v : (0 < T)%Q -> isMismatch T v v = false.
Proof.
  intros HT. unfold isMismatch, pixelBrightness. rewrite Z.eqb_refl.
  by apply Qltb_lt in HT as ->.
Qed.

(** ** The loop over the columns of a row *)

Lemma cursorAt_advance rb w x scale cur :
  cursorAt rb w x cur -> cursorAt rb w (S x) (advance scale cur).
Proof.
  intros (Hi & Hb & Hc). unfold cursorAt, advance, COLOR_COMPONENTS; simpl.
  rewrite Hi, Hb, Hc. lia.
Qed.

Lemma cursorAt_rowCursor s y : cursorAt (y * width s * 3) (width s) 0 (rowCursor s y).
Proof. unfold cursorAt, rowCursor, COLOR_COMPONENTS; simpl. repeat split; lia. Qed.

Lemma diffPixel_offsets T w x y key cur st :
  baselineOffset32 (diffPixel T w x y key cur st) = baselineOffset32 st
  /\ candidateOffset32 (diffPixel T w x y key cur st) = candidateOffset32 st.
Proof. unfold diffPixel. destruct (Qltb _ _); done. Qed.

Lemma diffPixel_length T w x y key cur st :
  length (diffData32 (diffPixel T w x y key cur st)) = length (diffData32 st).
Proof.
  unfold diffPixel. destruct (Qltb _ _); simpl; [by rewrite length_insert |].
  repeat (match goal with |- context [if ?b then _ else _] => destruct b end);
    by rewrite ?length_insert.
Qed.

Lemma diffPixel_frame T w x y key cur st (j : nat) :
  j ≠ (indexDiff32 cur - w)%nat -> j ≠ indexDiff32 cur -> j ≠ (indexDiff32 cur + w)%nat ->
  diffData32 (diffPixel T w x y key cur st) !! j = diffData32 st !! j.
Proof.
  intros H1 H2 H3. unfold diffPixel. destruct (Qltb _ _); simpl.
  - by rewrite list_lookup_insert_ne.
  - repeat (match goal with |- context [if ?b then _ else _] => destruct b end);
      by rewrite ?list_lookup_insert_ne.
Qed.

Lemma diffPixel_count rb T w x y key cur st :
  cursorAt rb w x cur ->
  mismatchedPixels (diffPixel T w x y key cur st)
  = mismatchedPixels st
    + (if isMismatch T (get32 (diffData32 st) (rb + x)) (get32 (diffData32 st) (rb + 2 * w + x))
       then 1 else 0).
Proof.
  intros (Hi & Hb & Hc). unfold diffPixel, isMismatch.
  rewrite Hi, Hb, Hc.
  replace (rb + w + x - w)%nat with (rb + x)%nat by lia.
  replace (rb + w + x + w)%nat with (rb + 2 * w + x)%nat by lia.
  rewrite differenceBrightness_words.
  destruct (Qltb _ _); simpl; lia.
Qed.

(** The pixel loop of one row: it keeps the size of the canvas, writes only
    the three panels' cells of the columns it visits, leaves the offsets
    alone, and counts the mismatching columns. *)
Lemma diffPixels_spec n : forall T rb w scale x y key cur st,
  (x + n = w)%nat -> cursorAt rb w x cur ->
  let stf := diffPixels n T w scale x y key cur st in
  length (diffData32 stf) = length (diffData32 st)
  /\ (forall j, (j < rb + x \/ rb + w <= j < rb + w + x \/ rb + 2 * w <= j < rb + 2 * w + x
                \/ rb + 3 * w <= j)%nat ->
        diffData32 stf !! j = diffData32 st !! j)
  /\ baselineOffset32 stf = baselineOffset32 st
  /\ candidateOffset32 stf = candidateOffset32 st
  /\ mismatchedPixels stf
     = mismatchedPixels st + countMismatches T (diffData32 st) rb w x n.
Proof.
  induction n as [|n IH]; intros T rb w scale x y key cur st Hn Hc;
    cbn [diffPixels].
  { repeat split; try done. unfold countMismatches; cbn. lia. }
  rewrite countMismatches_S.
  pose proof Hc as (Hi & _ & _).
  destruct (IH T rb w scale (S x) y key (advance scale cur)
              (diffPixel T w x y key cur st) ltac:(lia) (cursorAt_advance _ _ _ _ _ Hc))
    as (Hlen & Hframe & Hb & Hcand & Hcount).
  destruct (diffPixel_offsets T w x y key cur st) as [Hb1 Hc1].
  repeat split.
  - rewrite Hlen. apply diffPixel_length.
  - intros j Hj. rewrite Hframe by lia. apply diffPixel_frame; lia.
  - congruence.
  - congruence.
  - rewrite Hcount, (diffPixel_count rb) by done.
    rewrite (countMismatches_ext T (diffData32 (diffPixel T w x y key cur st)) (diffData32 st)).
    + lia.
    + intros x' Hx'. unfold get32.
      rewrite !diffPixel_frame by lia. done.
Qed.

(** One step of the pixel loop, seen from the two side panels. *)
Lemma diffPixel_side rb T w x y key cur st :
  cursorAt rb w x cur -> (x < w)%nat -> (rb + 3 * w <= length (diffData32 st))%nat ->
  let bABGR := get32 (diffData32 st) (rb + x) in
  let cABGR := get32 (diffData32 st) (rb + 2 * w + x) in
  get32 (diffData32 (diffPixel T w x y key cur st)) (rb + x)
  = leftPanelPixel T x y bABGR cABGR
  /\ get32 (diffData32 (diffPixel T w x y key cur st)) (rb + 2 * w + x)
     = rightPanelPixel T x y bABGR cABGR.
Proof.
  intros (Hi & Hb & Hc) Hx Hlen bABGR cABGR.
  unfold diffPixel, leftPanelPixel, rightPanelPixel, isMismatch, redTint, greenTint,
    PURE_WHITE.
  rewrite Hi, Hb, Hc.
  replace (rb + w + x - w)%nat with (rb + x)%nat by lia.
  replace (rb + w + x + w)%nat with (rb + 2 * w + x)%nat by lia.
  rewrite differenceBrightness_words. fold bABGR cABGR.
  destruct (Qltb (pixelBrightness bABGR cABGR) T); cbn [negb andb diffData32].
  { rewrite !get32_insert_ne by lia. done. }
  destruct (Nat.odd (x + y)); cbn [andb].
  2: { rewrite !get32_insert_ne by lia. done. }
  destruct (cABGR =? 0xffffffff), (bABGR =? 0xffffffff); cbn [negb];
    rewrite ?get32_insert_eq, ?get32_insert_ne, ?get32_insert_eq
      by (rewrite ?length_insert; lia);
    done.
Qed.

(** The pixel loop of one row, seen from the side panels of a column it
    visits. *)
Lemma diffPixels_side n : forall T rb w scale x0 y key cur st x,
  (x0 + n = w)%nat -> cursorAt rb w x0 cur -> (x0 <= x < w)%nat ->
  (rb + 3 * w <= length (diffData32 st))%nat ->
  let bABGR := get32 (diffData32 st) (rb + x) in
  let cABGR := get32 (diffData32 st) (rb + 2 * w + x) in
  let stf := diffPixels n T w scale x0 y key cur st in
  get32 (diffData32 stf) (rb + x) = leftPanelPixel T x y bABGR cABGR
  /\ get32 (diffData32 stf) (rb + 2 * w + x) = rightPanelPixel T x y bABGR cABGR.
Proof.
  induction n as [|n IH]; intros T rb w scale x0 y key cur st x Hn Hc Hx Hlen;
    cbn [diffPixels]; [lia |].
  destruct (decide (x = x0)) as [->|Hne].
  - destruct (diffPixels_spec n T rb w scale (S x0) y key (advance scale cur)
                (diffPixel T w x0 y key cur st) ltac:(lia) (cursorAt_advance _ _ _ _ _ Hc))
      as (_ & Hframe & _).
    cbv zeta.
    set (stf := diffPixels n T w scale (S x0) y key (advance scale cur)
                  (diffPixel T w x0 y key cur st)) in *.
    assert (E1 : get32 (diffData32 stf) (rb + x0)
                 = get32 (diffData32 (diffPixel T w x0 y key cur st)) (rb + x0)).
    { unfold get32. by rewrite Hframe by lia. }
    assert (E2 : get32 (diffData32 stf) (rb + 2 * w + x0)
                 = get32 (diffData32 (diffPixel T w x0 y key cur st)) (rb + 2 * w + x0)).
    { unfold get32. by rewrite Hframe by lia. }
    rewrite E1, E2. apply diffPixel_side; [done | lia | done].
  - pose proof Hc as (Hi & _ & _).
    assert (Hb : get32 (diffData32 (diffPixel T w x0 y key cur st)) (rb + x)
                 = get32 (diffData32 st) (rb + x)).
    { unfold get32. by rewrite diffPixel_frame by lia. }
    assert (Hcc : get32 (diffData32 (diffPixel T w x0 y key cur st)) (rb + 2 * w + x)
                  = get32 (diffData32 st) (rb + 2 * w + x)).
    { unfold get32. by rewrite diffPixel_frame by lia. }
    rewrite <- Hb, <- Hcc.
    apply IH; [lia | by apply cursorAt_advance | lia |].
    by rewrite diffPixel_length.
Qed.

(** ** The loop over the rows *)

Lemma row_in_canvas (w h y : nat) : (y < h)%nat -> (y * w * 3 + 3 * w <= w * 3 * h)%nat.
Proof. intros H. nia. Qed.

(** The copy phase of row [y], started from a state whose rows from [y] on are
    fresh: it writes inside row [y] only, the side panels of the row hold the
    source pixels, and the offsets move as the guards say. *)
Lemma copyRows_spec s y st :
  pristineFrom s y st -> (y < height s)%nat ->
  let w := width s in
  let rb := (y * w * 3)%nat in
  let st' := copyRows s y st in
  length (diffData32 st') = length (diffData32 st)
  /\ (forall j, (j < rb \/ rb + 3 * w <= j)%nat -> diffData32 st' !! j = diffData32 st !! j)
  /\ (forall x, (x < w)%nat ->
        get32 (diffData32 st') (rb + x)
        = sourcePixel (baselineData32 s) (baselineOffset32 st) w x
        /\ get32 (diffData32 st') (rb + 2 * w + x)
           = sourcePixel (candidateData32 s) (candidateOffset32 st) w x)
  /\ baselineOffset32 st'
     = (if copyGuard (baselineData32 s) (baselineOffset32 st) w
        then baselineOffset32 st + baselineOffsetIncrement32 s else baselineOffset32 st)%nat
  /\ candidateOffset32 st'
     = (if copyGuard (candidateData32 s) (candidateOffset32 st) w
        then candidateOffset32 st + candidateOffsetIncrement32 s else candidateOffset32 st)%nat
  /\ mismatchedPixels st' = mismatchedPixels st
  /\ diffHash st' = diffHash st
  /\ diffHashStartIndex st' = diffHashStartIndex st.
Proof.
  intros [Hlen Hzero] Hy w rb st'.
  pose proof (row_in_canvas w (height s) y Hy) as Hfit. fold rb in Hfit.
  subst st'. unfold copyRows. fold w. fold rb.
  set (d0 := if (imagesCount s =? 1)%nat then _ else _).
  assert (Hd0 : length d0 = length (diffData32 st)
                /\ forall j, (j < rb + w \/ rb + w + w <= j)%nat -> d0 !! j = diffData32 st !! j).
  { subst d0. destruct (imagesCount s =? 1)%nat; [apply fill32_spec | done]. }
  destruct Hd0 as [Hlen0 Hd0].
  replace (rb + w - w)%nat with rb by lia.
  pose proof (copyRow_spec (baselineData32 s) (baselineOffset32 st)
                (baselineOffsetIncrement32 s) w rb d0 ltac:(lia)) as (Hl1 & Hf1 & Hg1 & Ho1).
  destruct (copyRow (baselineData32 s) _ _ w rb d0) as [d1 bOff]. cbn [fst snd] in *.
  pose proof (copyRow_spec (candidateData32 s) (candidateOffset32 st)
                (candidateOffsetIncrement32 s) w (rb + w + w) d1 ltac:(lia))
    as (Hl2 & Hf2 & Hg2 & Ho2).
  destruct (copyRow (candidateData32 s) _ _ w (rb + w + w) d1) as [d2 cOff].
  cbn [fst snd] in *. cbn [diffData32 baselineOffset32 candidateOffset32 mismatchedPixels
                            diffHash diffHashStartIndex].
  assert (Hz : forall j, (rb <= j < rb + 3 * w)%nat -> get32 (diffData32 st) j = 0).
  { intros j Hj. unfold get32. rewrite Hzero; [done | lia | lia]. }
  split; [congruence |]. split.
  { intros j Hj. rewrite Hf2, Hf1, Hd0 by lia. done. }
  split; [| done].
  intros x Hx. unfold sourcePixel. split.
  - unfold get32 at 1. rewrite Hf2 by lia.
    fold (get32 d1 (rb + x)). rewrite (Hg1 x Hx).
    destruct (copyGuard (baselineData32 s) _ _); [done |].
    unfold get32 at 1. rewrite Hd0 by lia. apply Hz. lia.
  - replace (rb + 2 * w + x)%nat with (rb + w + w + x)%nat by lia.
    rewrite (Hg2 x Hx).
    destruct (copyGuard (candidateData32 s) _ _); [done |].
    unfold get32 at 1. rewrite Hf1, Hd0 by lia. apply Hz. lia.
Qed.

Lemma copyRows_fields s y st :
  mismatchedPixels (copyRows s y st) = mismatchedPixels st
  /\ diffHash (copyRows s y st) = diffHash st
  /\ diffHashStartIndex (copyRows s y st) = diffHashStartIndex st.
Proof. unfold copyRows. do 2 destruct (copyRow _ _ _ _ _ _). done. Qed.

(** One row when both images are there. *)
Lemma diffRow_spec T s y st a32 b32 :
  baselineData32 s = Some a32 -> candidateData32 s = Some b32 ->
  pristineFrom s y st -> (y < height s)%nat ->
  let st' := copyRows s y st in
  let stf := diffRow T s y st in
  pristineFrom s (S y) stf
  /\ baselineOffset32 stf = baselineOffset32 st'
  /\ candidateOffset32 stf = candidateOffset32 st'
  /\ mismatchedPixels stf
     = mismatchedPixels st
       + countMismatches T (diffData32 st') (y * width s * 3) (width s) 0 (width s).
Proof.
  intros Ha Hb Hp Hy st' stf.
  destruct (copyRows_spec s y st Hp Hy) as (Hl & Hf & _ & _ & _ & Hm & _ & _).
  fold st' in Hl, Hf, Hm.
  destruct (diffPixels_spec (width s) T (y * width s * 3) (width s) (lowResScale s) 0 y
              (rowKey y) (rowCursor s y) st' ltac:(lia)
              (cursorAt_rowCursor s y)) as (Hl2 & Hf2 & Hb2 & Hc2 & Hm2).
  assert (Hstf : stf = diffPixels (width s) T (width s) (lowResScale s) 0 y
                         (rowKey y) (rowCursor s y) st').
  { subst stf st'. unfold diffRow. by rewrite Ha, Hb. }
  rewrite Hstf. destruct Hp as [Hlen Hzero].
  split; [| repeat split; [done | done | lia]].
  split; [congruence |].
  intros j Hj Hjl. rewrite Hf2, Hf by lia. apply Hzero; [lia | congruence].
Qed.

(** One row when an image is missing: the copy phase is all there is. *)
Lemma diffRow_missing T s y st :
  baselineData32 s = None \/ candidateData32 s = None ->
  diffRow T s y st = copyRows s y st.
Proof.
  intros [H|H]; unfold diffRow; rewrite H; [done |].
  by destruct (baselineData32 s).
Qed.

Lemma diffRow_pristine T s y st :
  pristineFrom s y st -> (y < height s)%nat -> pristineFrom s (S y) (diffRow T s y st).
Proof.
  intros Hp Hy.
  destruct (baselineData32 s) as [a32|] eqn:Ha; [destruct (candidateData32 s) as [b32|] eqn:Hb |].
  - by destruct (diffRow_spec T s y st a32 b32 Ha Hb Hp Hy) as [? _].
  - rewrite diffRow_missing by auto.
    destruct (copyRows_spec s y st Hp Hy) as (Hl & Hf & _). destruct Hp as [Hlen Hzero].
    split; [congruence |]. intros j Hj Hjl. rewrite Hf by lia. apply Hzero; [lia | congruence].
  - rewrite diffRow_missing by auto.
    destruct (copyRows_spec s y st Hp Hy) as (Hl & Hf & _). destruct Hp as [Hlen Hzero].
    split; [congruence |]. intros j Hj Hjl. rewrite Hf by lia. apply Hzero; [lia | congruence].
Qed.

Lemma diffRows_pristine T s n : forall y st,
  pristineFrom s y st -> (y + n <= height s)%nat ->
  pristineFrom s (y + n) (diffRows n T s y st).
Proof.
  induction n as [|n IH]; intros y st Hp Hy; cbn [diffRows].
  - by rewrite Nat.add_0_r.
  - replace (y + S n)%nat with (S y + n)%nat by lia.
    apply IH; [apply diffRow_pristine; [done | lia] | lia].
Qed.

Lemma diffRows_app T s n m : forall y st,
  diffRows (n + m) T s y st = diffRows m T s (y + n) (diffRows n T s y st).
Proof.
  induction n as [|n IH]; intros y st; cbn [diffRows Nat.add].
  - by rewrite Nat.add_0_r.
  - rewrite IH. by replace (S y + n)%nat with (y + S n)%nat by lia.
Qed.

Lemma diffRows_succ T s y st :
  diffRows (S y) T s 0 st = diffRow T s y (diffRows y T s 0 st).
Proof.
  replace (S y) with (y + 1)%nat by lia. by rewrite diffRows_app.
Qed.

(** A row leaves the rows above it alone. *)
Lemma diffRow_below T s y st (j : nat) :
  pristineFrom s y st -> (y < height s)%nat -> (j < y * width s * 3)%nat ->
  diffData32 (diffRow T s y st) !! j = diffData32 st !! j.
Proof.
  intros Hp Hy Hj.
  destruct (copyRows_spec s y st Hp Hy) as (_ & Hf & _).
  unfold diffRow.
  destruct (baselineData32 s); [| by apply Hf; lia].
  destruct (candidateData32 s); [| by apply Hf; lia].
  destruct (diffPixels_spec (width s) (T) (y * width s * 3) (width s) (lowResScale s) 0 y
              (rowKey y) (rowCursor s y) (copyRows s y st) ltac:(lia)
              (cursorAt_rowCursor s y)) as (_ & Hf2 & _).
  rewrite Hf2 by lia. apply Hf. lia.
Qed.

Lemma diffRows_below T s n : forall y st (j : nat),
  pristineFrom s y st -> (y + n <= height s)%nat -> (j < y * width s * 3)%nat ->
  diffData32 (diffRows n T s y st) !! j = diffData32 st !! j.
Proof.
  induction n as [|n IH]; intros y st j Hp Hy Hj; cbn [diffRows]; [done |].
  rewrite IH; [| apply diffRow_pristine; [done | lia] | lia | lia].
  apply diffRow_below; [done | lia | done].
Qed.

Lemma diffRows_count_le T s a32 b32 n :
  baselineData32 s = Some a32 -> candidateData32 s = Some b32 ->
  forall y st,
    pristineFrom s y st -> (y + n <= height s)%nat ->
    mismatchedPixels st <= mismatchedPixels (diffRows n T s y st).
Proof.
  intros Ha Hb. induction n as [|n IH]; intros y st Hp Hy; cbn [diffRows]; [lia |].
  destruct (diffRow_spec T s y st a32 b32 Ha Hb Hp ltac:(lia)) as (Hp' & _ & _ & Hm).
  specialize (IH (S y) (diffRow T s y st) Hp' ltac:(lia)).
  pose proof (countColumns_nonneg
                (fun x => isMismatch T (get32 (diffData32 (copyRows s y st)) (y * width s * 3 + x))
                            (get32 (diffData32 (copyRows s y st)) (y * width s * 3 + 2 * width s + x)))
                0 (width s)) as Hnn.
  unfold countMismatches in Hm. lia.
Qed.

(** With one image missing no row changes the count or the hash. *)
Lemma diffRows_missing T s n : forall y st,
  baselineData32 s = None \/ candidateData32 s = None ->
  mismatchedPixels (diffRows n T s y st) = mismatchedPixels st
  /\ diffHash (diffRows n T s y st) = diffHash st.
Proof.
  induction n as [|n IH]; intros y st H; cbn [diffRows]; [done |].
  destruct (IH (S y) (diffRow T s y st) H) as [-> ->].
  rewrite diffRow_missing by done.
  by destruct (copyRows_fields s y st) as (-> & -> & _).
Qed.

Lemma diffRows_missing_threshold T T' s n : forall y st,
  baselineData32 s = None \/ candidateData32 s = None ->
  diffRows n T s y st = diffRows n T' s y st.
Proof.
  induction n as [|n IH]; intros y st H; cbn [diffRows]; [done |].
  rewrite !diffRow_missing by done. by apply IH.
Qed.

(** With the same source on both sides and the offsets in step, no row adds a
    mismatch under a positive threshold. *)
Lemma diffRows_identity T s a32 n :
  (0 < T)%Q ->
  baselineData32 s = Some a32 -> candidateData32 s = Some a32 ->
  baselineOffsetIncrement32 s = candidateOffsetIncrement32 s ->
  forall y st,
    pristineFrom s y st -> (y + n <= height s)%nat ->
    baselineOffset32 st = candidateOffset32 st ->
    mismatchedPixels (diffRows n T s y st) = mismatchedPixels st.
Proof.
  intros HT Ha Hb Hinc.
  induction n as [|n IH]; intros y st Hp Hy Hoff; cbn [diffRows]; [done |].
  destruct (diffRow_spec T s y st a32 a32 Ha Hb Hp ltac:(lia)) as (Hp' & Hb' & Hc' & Hm).
  destruct (copyRows_spec s y st Hp ltac:(lia)) as (_ & _ & Hside & Hbo & Hco & _).
  rewrite IH; [| done | lia |].
  - rewrite Hm. unfold countMismatches. rewrite countColumns_none; [lia |].
    intros x Hx. destruct (Hside x ltac:(lia)) as [-> ->].
    rewrite Ha, Hb, Hoff. by apply isMismatch_same.
  - rewrite Hb', Hc', Hbo, Hco, Ha, Hb, Hoff, Hinc. done.
Qed.

(** Two runs over the same images: with the thresholds in order, the run with
    the lower threshold counts at least as many mismatches. *)
Lemma diffRows_monotone T1 T2 s a32 b32 n :
  (T1 <= T2)%Q ->
  baselineData32 s = Some a32 -> candidateData32 s = Some b32 ->
  forall y st1 st2,
    pristineFrom s y st1 -> pristineFrom s y st2 -> (y + n <= height s)%nat ->
    baselineOffset32 st1 = baselineOffset32 st2 ->
    candidateOffset32 st1 = candidateOffset32 st2 ->
    mismatchedPixels st2 <= mismatchedPixels st1 ->
    mismatchedPixels (diffRows n T2 s y st2) <= mismatchedPixels (diffRows n T1 s y st1).
Proof.
  intros HT Ha Hb.
  induction n as [|n IH]; intros y st1 st2 Hp1 Hp2 Hy Hbo Hco Hm; cbn [diffRows]; [done |].
  destruct (diffRow_spec T1 s y st1 a32 b32 Ha Hb Hp1 ltac:(lia)) as (Hp1' & Hb1 & Hc1 & Hm1).
  destruct (diffRow_spec T2 s y st2 a32 b32 Ha Hb Hp2 ltac:(lia)) as (Hp2' & Hb2 & Hc2 & Hm2).
  destruct (copyRows_spec s y st1 Hp1 ltac:(lia)) as (_ & _ & Hs1 & Hbo1 & Hco1 & _).
  destruct (copyRows_spec s y st2 Hp2 ltac:(lia)) as (_ & _ & Hs2 & Hbo2 & Hco2 & _).
  apply IH; try done; try lia.
  - rewrite Hb1, Hb2, Hbo1, Hbo2, Hbo. done.
  - rewrite Hc1, Hc2, Hco1, Hco2, Hco. done.
  - rewrite Hm1, Hm2.
    assert (countMismatches T2 (diffData32 (copyRows s y st2)) (y * width s * 3) (width s) 0 (width s)
            <= countMismatches T1 (diffData32 (copyRows s y st1)) (y * width s * 3) (width s) 0 (width s));
      [| lia].
    apply countColumns_le. intros x Hx.
    destruct (Hs1 x ltac:(lia)) as [-> ->]. destruct (Hs2 x ltac:(lia)) as [-> ->].
    rewrite Hbo, Hco. by apply isMismatch_monotone.
Qed.

(** ** The hash and the count *)

Lemma round64Z_spread : round64Z DIFF_HASH_SPREAD = DIFF_HASH_SPREAD.
Proof. reflexivity. Qed.

Lemma rowKey_mono y y' : (y <= y')%nat -> rowKey y <= rowKey y'.
Proof. intros H. apply round64Z_mono. unfold DIFF_HASH_SPREAD. nia. Qed.

Lemma hashInv_mono key key' st : hashInv key st -> key <= key' -> hashInv key' st.
Proof. unfold hashInv. intros [H|H] Hk; [by left | right; lia]. Qed.

(** A mismatch seeds an empty hash with the spread and the key of its row. *)
Lemma hashStep_seed key start : hashStep key (0, start) = (DIFF_HASH_SPREAD, key).
Proof.
  unfold hashStep. cbn [fst snd Z.eqb]. rewrite Z.sub_diag. reflexivity.
Qed.

(** A hash that is not empty does not get smaller, and its start key stays. *)
Lemma hashStep_grows key hash start :
  DIFF_HASH_SPREAD <= hash -> start <= key ->
  DIFF_HASH_SPREAD <= (hashStep key (hash, start)).1
  /\ (hashStep key (hash, start)).2 = start.
Proof.
  intros Hh Hs. unfold hashStep. cbn [fst snd].
  destruct (Z.eqb_spec hash 0) as [E|_]; [unfold DIFF_HASH_SPREAD in Hh; lia |].
  split; [| done].
  rewrite <- round64Z_spread at 1. apply round64Z_mono.
  pose proof (round64Z_nonneg (key - start) ltac:(lia)). lia.
Qed.

Lemma diffPixel_hash rb T w x y key cur st :
  cursorAt rb w x cur ->
  (diffHash (diffPixel T w x y key cur st), diffHashStartIndex (diffPixel T w x y key cur st))
  = (if isMismatch T (get32 (diffData32 st) (rb + x)) (get32 (diffData32 st) (rb + 2 * w + x))
     then hashStep key (diffHash st, diffHashStartIndex st)
     else (diffHash st, diffHashStartIndex st)).
Proof.
  intros (Hi & Hb & Hc). unfold diffPixel, isMismatch, hashStep.
  rewrite Hi, Hb, Hc.
  replace (rb + w + x - w)%nat with (rb + x)%nat by lia.
  replace (rb + w + x + w)%nat with (rb + 2 * w + x)%nat by lia.
  rewrite differenceBrightness_words.
  by destruct (Qltb _ _); cbn [negb fst snd diffHash diffHashStartIndex].
Qed.

Lemma diffPixel_hashInv T w x y key cur st :
  hashInv key st -> hashInv key (diffPixel T w x y key cur st).
Proof.
  unfold hashInv, diffPixel. intros H.
  destruct (Qltb _ _); cbn [mismatchedPixels diffHash diffHashStartIndex]; [done |].
  right.
  destruct (Z.eqb_spec (diffHash st) 0) as [E|E].
  - rewrite E, Z.sub_diag. change (round64Z (round64Z (0 + DIFF_HASH_SPREAD) + round64Z 0))
      with DIFF_HASH_SPREAD.
    destruct H as [[H _]|(H & _)]; lia.
  - destruct H as [[_ H]|(Hm & Hh & Hs)]; [done |].
    destruct (hashStep_grows key (diffHash st) (diffHashStartIndex st) Hh Hs) as [Hg _].
    unfold hashStep in Hg. cbn [fst snd] in Hg.
    destruct (Z.eqb_spec (diffHash st) 0); [done |]. lia.
Qed.

Lemma diffPixels_hashInv n : forall T w scale x y key cur st,
  hashInv key st -> hashInv key (diffPixels n T w scale x y key cur st).
Proof.
  induction n as [|n IH]; intros; cbn [diffPixels]; [done |].
  by apply IH, diffPixel_hashInv.
Qed.

Lemma diffRow_hashInv T s y st :
  hashInv (rowKey y) st -> hashInv (rowKey (S y)) (diffRow T s y st).
Proof.
  intros H.
  assert (H' : hashInv (rowKey y) (copyRows s y st)).
  { destruct (copyRows_fields s y st) as (Hm & Hh & Hs).
    unfold hashInv in *. rewrite Hm, Hh, Hs. done. }
  apply hashInv_mono with (rowKey y); [| apply rowKey_mono; lia].
  unfold diffRow.
  destruct (baselineData32 s); [| done].
  destruct (candidateData32 s); [| done].
  by apply diffPixels_hashInv.
Qed.

Lemma diffRows_hashInv T s n : forall y st,
  hashInv (rowKey y) st -> hashInv (rowKey (y + n)) (diffRows n T s y st).
Proof.
  induction n as [|n IH]; intros y st H; cbn [diffRows].
  - by rewrite Nat.add_0_r.
  - replace (y + S n)%nat with (S y + n)%nat by lia.
    by apply IH, diffRow_hashInv.
Qed.

(** The pixel loop and the hash: a row that adds [k] mismatches applies the
    update of the hash [k] times, with the key of the row.  The column of a
    mismatch does not enter. *)
Lemma diffPixels_hash n : forall T rb w scale x y key cur st,
  (x + n = w)%nat -> cursorAt rb w x cur ->
  let k := countMismatches T (diffData32 st) rb w x n in
  let stf := diffPixels n T w scale x y key cur st in
  (diffHash stf, diffHashStartIndex stf)
  = Nat.iter (Z.to_nat k) (hashStep key) (diffHash st, diffHashStartIndex st).
Proof.
  induction n as [|n IH]; intros T rb w scale x y key cur st Hn Hc;
    cbn [diffPixels]; [done |].
  rewrite countMismatches_S.
  pose proof Hc as (Hi & _ & _).
  pose proof (IH T rb w scale (S x) y key (advance scale cur)
                (diffPixel T w x y key cur st) ltac:(lia) (cursorAt_advance _ _ _ _ _ Hc))
    as Hh.
  assert (E : countMismatches T (diffData32 (diffPixel T w x y key cur st)) rb w (S x) n
              = countMismatches T (diffData32 st) rb w (S x) n).
  { apply countMismatches_ext. intros x' Hx'. unfold get32.
    by rewrite !diffPixel_frame by lia. }
  cbv zeta in *. rewrite E in Hh. clear E. rewrite Hh, (diffPixel_hash rb) by done.
  pose proof (countColumns_nonneg
                (fun x0 => isMismatch T (get32 (diffData32 st) (rb + x0))
                             (get32 (diffData32 st) (rb + 2 * w + x0))) (S x) n) as Hk.
  fold (countMismatches T (diffData32 st) rb w (S x) n) in Hk.
  destruct (isMismatch T _ _); [| by rewrite Z.add_0_l].
  replace (Z.to_nat (1 + countMismatches T (diffData32 st) rb w (S x) n))
    with (S (Z.to_nat (countMismatches T (diffData32 st) rb w (S x) n))) by lia.
  by rewrite Nat.iter_succ_r.
Qed.

(** One row and the hash, with both images there: only the number of
    mismatches of the row and its key matter. *)
Lemma diffRow_hash T s y st a32 b32 :
  baselineData32 s = Some a32 -> candidateData32 s = Some b32 ->
  let k := countMismatches T (diffData32 (copyRows s y st)) (y * width s * 3) (width s)
             0 (width s) in
  (diffHash (diffRow T s y st), diffHashStartIndex (diffRow T s y st))
  = Nat.iter (Z.to_nat k) (hashStep (rowKey y)) (diffHash st, diffHashStartIndex st).
Proof.
  intros Ha Hb k.
  destruct (copyRows_fields s y st) as (Hm & Hh & Hs).
  unfold diffRow. rewrite Ha, Hb.
  pose proof (diffPixels_hash (width s) T (y * width s * 3) (width s) (lowResScale s) 0 y
                (rowKey y) (rowCursor s y) (copyRows s y st)
                ltac:(lia) (cursorAt_rowCursor s y)) as H.
  cbv zeta in H. by rewrite H, Hh, Hs.
Qed.

(** ** The overlay writes in the centre panel only *)

Lemma side_not_centre (w x y x' y' : nat) :
  (x < w)%nat -> (x' < w)%nat ->
  (y * w * 3 + x)%nat <> (y' * w * 3 + w + x')%nat
  /\ (y * w * 3 + 2 * w + x)%nat <> (y' * w * 3 + w + x')%nat.
Proof.
  intros Hx Hx'.
  destruct (Nat.lt_trichotomy y y') as [H|[->|H]]; split; nia.
Qed.

Lemma foldl_frame {B} (f : list Z -> B -> list Z) (l : list B) (j : nat) :
  (forall a, a ∈ l -> forall d, f d a !! j = d !! j) ->
  forall d, foldl f d l !! j = d !! j.
Proof.
  induction l as [|a l IH]; intros H d; cbn [foldl]; [done |].
  rewrite IH; [apply H; by left |].
  intros a' Ha'. apply H. by right.
Qed.

Lemma tintPixel_frame (d : list Z) (i j : nat) : i <> j -> tintPixel d i !! j = d !! j.
Proof.
  intros H. unfold tintPixel. destruct (negb _); [by rewrite list_lookup_insert_ne | done].
Qed.

Lemma lowResOverlay_frame s lowRes (d : list Z) (j : nat) :
  (forall y' x', (x' < width s)%nat -> j <> (y' * width s * 3 + width s + x')%nat) ->
  lowResOverlay s lowRes d !! j = d !! j.
Proof.
  intros Hj. unfold lowResOverlay.
  apply foldl_frame. intros lowResY _ d1.
  apply foldl_frame. intros lowResX _ d2.
  destruct (0 <? _); [| done].
  apply foldl_frame. intros y' _ d3.
  apply foldl_frame. intros x' Hx' d4.
  apply elem_of_seq in Hx'.
  apply tintPixel_frame. intros E. apply (Hj y' x'); [lia | done].
Qed.

(** ** Preparation, the whole call and the loader *)

Section Prepare.

Variables MB MC : Z.

Lemma prepare_canvas b c :
  diffData32 (prepare MB MC b c).2
  = replicate (width (prepare MB MC b c).1 * 3 * height (prepare MB MC b c).1) 0.
Proof.
  unfold prepare. by destruct (image b), (info b), (image c), (info c).
Qed.

Lemma prepare_pristine b c :
  pristineFrom (prepare MB MC b c).1 0 (prepare MB MC b c).2.
Proof.
  unfold pristineFrom. rewrite prepare_canvas, length_replicate.
  split; [done |]. intros j _ Hj. by apply lookup_replicate_2.
Qed.

Lemma prepare_both b c ib fb ic fc :
  image b = Some ib -> info b = Some fb -> image c = Some ic -> info c = Some fc ->
  prepare MB MC b c
  = let vb := TestInformation.viewport fb in
    let vc := TestInformation.viewport fc in
    let w := Nat.max (Viewport.width vb) (Viewport.width vc) in
    let h := Nat.max (Viewport.height vb) (Viewport.height vc) in
    let scale := ceilDiv (Nat.min w h) 8 in
    ({| width := w; height := h; imagesCount := 2;
        baselineData32 := Some (Uint32Array_of_bytes (Image.data ib));
        candidateData32 := Some (Uint32Array_of_bytes (Image.data ic));
        baselineOffsetIncrement32 := Image.width ib;
        candidateOffsetIncrement32 := Image.width ic;
        lowResScale := scale;
        lowResWidth := ceilDiv w scale;
        lowResHeight := ceilDiv h scale |},
     {| diffData32 := replicate (w * 3 * h) 0;
        lowResHighlightData := replicate (ceilDiv w scale * ceilDiv h scale) 0;
        mismatchedPixels := 0;
        diffHash := 0;
        diffHashStartIndex := 0;
        baselineOffset32 := Viewport.x vb + Viewport.y vb * Image.width ib;
        candidateOffset32 := Viewport.x vc + Viewport.y vc * Image.width ic |}).
Proof. intros Hb Hfb Hc Hfc. unfold prepare. rewrite Hb, Hfb, Hc, Hfc. reflexivity. Qed.

Lemma canvasAllocated_spec s :
  canvasAllocated s = true <-> (0 < width s)%nat /\ (0 < height s)%nat.
Proof.
  unfold canvasAllocated. rewrite andb_true_iff, !Nat.ltb_lt. lia.
Qed.

Lemma canvasAllocated_false s :
  canvasAllocated s = false <-> width s = 0%nat \/ height s = 0%nat.
Proof.
  destruct (canvasAllocated s) eqn:E.
  - apply canvasAllocated_spec in E. split; [done | lia].
  - split; [intros _ | done].
    destruct (decide (width s = 0%nat)) as [|Hw]; [by left |].
    destruct (decide (height s = 0%nat)) as [|Hh]; [by right |].
    assert (canvasAllocated s = true) by (apply canvasAllocated_spec; lia). congruence.
Qed.

Lemma diffImages_some b c path t :
  image b <> None \/ image c <> None ->
  canvasAllocated (prepare MB MC b c).1 = true ->
  diffImages MB MC b c path t
  = let s := (prepare MB MC b c).1 in
    let st := diffRows (height s) (Double.BRIGHTNESS_DIFFERENCE_THRESHOLD t) s 0
                (prepare MB MC b c).2 in
    Some {| result := Some (DiffResult.mk (mismatchedPixels st) (diffHash st));
            written :=
              if negb (mismatchedPixels st =? 0)
              then Some (path,
                         PNG.mk (width s * 3) (height s)
                           match baselineData32 s, candidateData32 s with
                           | Some _, Some _ =>
                               if 0 <? mismatchedPixels st
                               then lowResOverlay s (lowResHighlightData st) (diffData32 st)
                               else diffData32 st
                           | _, _ => diffData32 st
                           end)
              else None |}.
Proof.
  intros H. unfold diffImages. destruct (prepare MB MC b c) as [s st0]. cbn [fst snd].
  intros ->. destruct (image b), (image c); try done. by destruct H.
Qed.

(** With a region that has no pixels the function throws. *)
Lemma diffImages_empty b c path t :
  image b <> None \/ image c <> None ->
  canvasAllocated (prepare MB MC b c).1 = false ->
  diffImages MB MC b c path t = None.
Proof.
  intros H. unfold diffImages. destruct (prepare MB MC b c) as [s st0]. cbn [fst snd].
  intros ->. destruct (image b), (image c); try done. by destruct H.
Qed.

Lemma diffImages_none b c path t :
  image b = None -> image c = None ->
  diffImages MB MC b c path t = Some {| result := None; written := None |}.
Proof. intros Hb Hc. unfold diffImages. by rewrite Hb, Hc. Qed.

(** What a call that resolves has done. *)
Lemma diffImages_resolved b c path t out :
  diffImages MB MC b c path t = Some out ->
  (image b = None /\ image c = None /\ out = {| result := None; written := None |})
  \/ ((image b <> None \/ image c <> None)
      /\ canvasAllocated (prepare MB MC b c).1 = true
      /\ diffImages MB MC b c path t
         = let s := (prepare MB MC b c).1 in
           let st := diffRows (height s) (Double.BRIGHTNESS_DIFFERENCE_THRESHOLD t) s 0
                       (prepare MB MC b c).2 in
           Some {| result := Some (DiffResult.mk (mismatchedPixels st) (diffHash st));
                   written :=
                     if negb (mismatchedPixels st =? 0)
                     then Some (path,
                                PNG.mk (width s * 3) (height s)
                                  match baselineData32 s, candidateData32 s with
                                  | Some _, Some _ =>
                                      if 0 <? mismatchedPixels st
                                      then lowResOverlay s (lowResHighlightData st)
                                             (diffData32 st)
                                      else diffData32 st
                                  | _, _ => diffData32 st
                                  end)
                     else None |}).
Proof.
  intros H.
  destruct (image b) as [ib|] eqn:Hb; [| destruct (image c) as [ic|] eqn:Hc].
  - right. assert (Hsome : image b <> None \/ image c <> None) by (left; congruence).
    destruct (canvasAllocated (prepare MB MC b c).1) eqn:E.
    + split; [left; congruence |]. split; [done |]. by apply diffImages_some.
    + rewrite diffImages_empty in H by done. done.
  - right. assert (Hsome : image b <> None \/ image c <> None) by (right; congruence).
    destruct (canvasAllocated (prepare MB MC b c).1) eqn:E.
    + split; [right; congruence |]. split; [done |]. by apply diffImages_some.
    + rewrite diffImages_empty in H by done. done.
  - left. rewrite diffImages_none in H by done. by injection H as <-.
Qed.

Lemma diffImagesAsync_loaded disk o b c :
  getImageAndTestInformation disk (baselineImagePath o) = Some b ->
  getImageAndTestInformation disk (candidateImagePath o) = Some c ->
  diffImagesAsync MB MC disk o = diffImages MB MC b c (diffImagePath o) (threshold o).
Proof. intros Hb Hc. unfold diffImagesAsync. rewrite Hb, Hc. reflexivity. Qed.

End Prepare.

Lemma prepare_missing MB MC b c :
  image b = None \/ image c = None ->
  baselineData32 (prepare MB MC b c).1 = None \/ candidateData32 (prepare MB MC b c).1 = None.
Proof.
  intros [H|H]; unfold prepare; rewrite H.
  - left. by destruct (image c), (info c).
  - right. by destruct (image b), (info b).
Qed.

Lemma hashInv_final MB MC b c ib fb ic fc T :
  image b = Some ib -> info b = Some fb -> image c = Some ic -> info c = Some fc ->
  let s := (prepare MB MC b c).1 in
  hashInv (rowKey (height s)) (diffRows (height s) T s 0 (prepare MB MC b c).2).
Proof.
  intros Hb Hfb Hc Hfc s.
  apply (diffRows_hashInv T s (height s) 0).
  left. rewrite (prepare_both MB MC b c ib fb ic fc) by done. done.
Qed.

(** With an image missing the outcome does not depend on the threshold. *)
Lemma diffImages_missing_threshold MB MC b c path t t' :
  image b = None \/ image c = None ->
  diffImages MB MC b c path t = diffImages MB MC b c path t'.
Proof.
  intros H. unfold diffImages.
  destruct (image b) as [ib|] eqn:Hb, (image c) as [ic|] eqn:Hc; try done.
  - by destruct H.
  - pose proof (prepare_missing MB MC b c ltac:(right; done)) as Hm.
    destruct (prepare MB MC b c) as [s st0]. cbn [fst snd] in Hm.
    destruct (canvasAllocated s); [| done].
    by rewrite (diffRows_missing_threshold _ (Double.BRIGHTNESS_DIFFERENCE_THRESHOLD t')).
  - pose proof (prepare_missing MB MC b c ltac:(left; done)) as Hm.
    destruct (prepare MB MC b c) as [s st0]. cbn [fst snd] in Hm.
    destruct (canvasAllocated s); [| done].
    by rewrite (diffRows_missing_threshold _ (Double.BRIGHTNESS_DIFFERENCE_THRESHOLD t')).
Qed.

Lemma diffImages_one_missing MB MC b c path t img inf :
  canvasAllocated (prepare MB MC b c).1 = true ->
  (image b = Some img /\ info b = Some inf /\ image c = None
   -> result <$> diffImages MB MC b c path t = Some (Some (DiffResult.mk MC 0)))
  /\ (image c = Some img /\ info c = Some inf /\ image b = None
      -> result <$> diffImages MB MC b c path t = Some (Some (DiffResult.mk MB 0))).
Proof.
  intros Hcanvas. split; intros (Hi & Hf & Hn).
  - rewrite diffImages_some by ((left; congruence) || done). cbn [result fmap option_fmap option_map].
    destruct (diffRows_missing (Double.BRIGHTNESS_DIFFERENCE_THRESHOLD t) (prepare MB MC b c).1
                (height (prepare MB MC b c).1) 0 (prepare MB MC b c).2) as [-> ->].
    + right. unfold prepare. rewrite Hi, Hf, Hn. done.
    + unfold prepare. rewrite Hi, Hf, Hn. done.
  - rewrite diffImages_some by ((right; congruence) || done). cbn [result fmap option_fmap option_map].
    destruct (diffRows_missing (Double.BRIGHTNESS_DIFFERENCE_THRESHOLD t) (prepare MB MC b c).1
                (height (prepare MB MC b c).1) 0 (prepare MB MC b c).2) as [-> ->].
    + left. unfold prepare. rewrite Hi, Hf, Hn. done.
    + unfold prepare. rewrite Hi, Hf, Hn. done.
Qed.

Lemma loaded_image disk path l :
  getImageAndTestInformation disk path = Some l ->
  (existsSync disk path = true -> exists img inf, image l = Some img /\ info l = Some inf)
  /\ (existsSync disk path = false -> image l = None /\ info l = None).
Proof.
  unfold getImageAndTestInformation. destruct (existsSync disk path).
  - intros H. split; [intros _ | done].
    destruct (if existsSync disk (jsonPathOf path) then _ else _) as [parsed|]; [| done].
    cbn in H. destruct (match disk path with Some (PngFile _) => _ | _ => _ end) as [img|];
      [| done].
    cbn in H. injection H as <-. cbn. eauto.
  - intros [= <-]. split; [done | by intros _].
Qed.

Lemma loaded_present disk path l img :
  getImageAndTestInformation disk path = Some l -> image l = Some img ->
  existsSync disk path = true /\ exists inf, info l = Some inf.
Proof.
  intros Hl Hi. destruct (loaded_image disk path l Hl) as [Ht Hf].
  destruct (existsSync disk path).
  - split; [done |]. destruct (Ht eq_refl) as (? & inf & _ & ?). eauto.
  - destruct (Hf eq_refl) as [? _]. congruence.
Qed.

(** ** The threshold and the brightness difference in doubles *)

Lemma least_subnormal_is_double : (round64 (pow2 (-1074)) == pow2 (-1074))%Q.
Proof. vm_compute. reflexivity. Qed.

Lemma default_threshold_positive :
  (0 < fmul 255 (Qmin 1 (Qmax 0 (literal DEFAULT_THRESHOLD))))%Q.
Proof. vm_compute. reflexivity. Qed.

(** The threshold the loops use is positive unless the threshold given is
    negative. *)
Lemma threshold_positive_double t :
  match t with JsNum q => (0 <= q)%Q | _ => True end ->
  (0 < Double.BRIGHTNESS_DIFFERENCE_THRESHOLD t)%Q.
Proof.
  intros Ht. unfold Double.BRIGHTNESS_DIFFERENCE_THRESHOLD, Double.thresholdOrDefault.
  destruct t as [| |q]; try apply default_threshold_positive.
  destruct (Qeq_bool (round64 q) 0) eqn:E; [apply default_threshold_positive |].
  apply Qeq_bool_neq in E.
  pose proof (round64_least q Ht E) as Hl.
  pose proof (pow2_pos (-1074)) as Hp.
  assert (H1 : (pow2 (-1074) <= 1)%Q).
  { change 1%Q with (pow2 0). apply pow2_le. lia. }
  assert (Hm : (pow2 (-1074) <= Qmin 1 (Qmax 0 (round64 q)))%Q).
  { apply Q.min_glb; [done |]. apply Qle_trans with (round64 q); [done | apply Q.le_max_r]. }
  unfold fmul.
  apply Qlt_le_trans with (pow2 (-1074)); [done |].
  rewrite <- least_subnormal_is_double at 1. apply round64_mono. lra.
Qed.

(** A threshold that is negative as a double gives the threshold 0. *)
Lemma threshold_negative_double q :
  (round64 q < 0)%Q -> (Double.BRIGHTNESS_DIFFERENCE_THRESHOLD (JsNum q) <= 0)%Q.
Proof.
  intros Hq. unfold Double.BRIGHTNESS_DIFFERENCE_THRESHOLD, Double.thresholdOrDefault.
  destruct (Qeq_bool (round64 q) 0) eqn:E.
  { apply Qeq_bool_iff in E. lra. }
  unfold fmul. apply round64_nonpos.
  rewrite Q.max_l by lra. rewrite Q.min_r by lra. lra.
Qed.

(** The threshold the loops use grows with the threshold given, as long as
    the lower one is not replaced by a default above the upper one. *)
Lemma threshold_monotone_double q1 q2 :
  (q1 <= q2)%Q ->
  ((round64 q1 == 0)%Q -> (DEFAULT_THRESHOLD <= q2)%Q) ->
  (Double.BRIGHTNESS_DIFFERENCE_THRESHOLD (JsNum q1)
   <= Double.BRIGHTNESS_DIFFERENCE_THRESHOLD (JsNum q2))%Q.
Proof.
  intros H12 Hd. pose proof (round64_mono q1 q2 H12) as Hr.
  assert (Hdef : (0 < literal DEFAULT_THRESHOLD)%Q) by (vm_compute; reflexivity).
  assert (Ht : (Double.thresholdOrDefault (JsNum q1) <= Double.thresholdOrDefault (JsNum q2))%Q).
  { unfold Double.thresholdOrDefault.
    destruct (Qeq_bool (round64 q1) 0) eqn:E1; destruct (Qeq_bool (round64 q2) 0) eqn:E2.
    - lra.
    - apply Qeq_bool_iff in E1. unfold literal. apply round64_mono. by apply Hd.
    - apply Qeq_bool_iff in E2. lra.
    - done. }
  unfold Double.BRIGHTNESS_DIFFERENCE_THRESHOLD, fmul. apply round64_mono.
  apply Qmult_le_l; [reflexivity |].
  by apply Q.min_le_compat_l, Q.max_le_compat_l.
Qed.

Lemma weighted_nonneg c b1 b2 : (0 <= c)%Q -> (0 <= weighted c b1 b2)%Q.
Proof.
  intros Hc. unfold weighted, fmul, literal. apply round64_nonneg.
  apply Qmult_le_0_compat; [by apply round64_nonneg | apply Qabs_nonneg].
Qed.

Lemma weighted_sym c b1 b2 : weighted c b1 b2 = weighted c b2 b1.
Proof.
  unfold weighted. f_equal.
  replace (b2 - b1) with (- (b1 - b2)) by lia.
  unfold inject_Z, Qabs. by rewrite Z.abs_opp.
Qed.

Lemma pixelBrightness_nonneg b c : (0 <= pixelBrightness b c)%Q.
Proof.
  unfold pixelBrightness. destruct (b =? c); [apply Qle_refl |].
  unfold fadd. apply round64_nonneg.
  pose proof (weighted_nonneg 0.299 (byteOf b 1) (byteOf c 1) ltac:(discriminate)).
  pose proof (weighted_nonneg 0.587 (byteOf b 2) (byteOf c 2) ltac:(discriminate)).
  pose proof (weighted_nonneg 0.114 (byteOf b 3) (byteOf c 3) ltac:(discriminate)).
  assert (0 <= round64 (weighted 0.299 (byteOf b 1) (byteOf c 1)
                        + weighted 0.587 (byteOf b 2) (byteOf c 2)))%Q
    by (apply round64_nonneg; lra).
  lra.
Qed.

Lemma isMismatch_zero_threshold T b c : (T <= 0)%Q -> isMismatch T b c = true.
Proof.
  intros HT. unfold isMismatch.
  destruct (Qltb (pixelBrightness b c) T) eqn:E; [| done].
  apply Qltb_lt in E. pose proof (pixelBrightness_nonneg b c). lra.
Qed.

(** ** The states of the loop over the rows *)

Lemma bothPresent_data MB MC b c :
  bothPresent b c ->
  exists a32 b32,
    baselineData32 (setupOf MB MC b c) = Some a32
    /\ candidateData32 (setupOf MB MC b c) = Some b32
    /\ mismatchedPixels (prepare MB MC b c).2 = 0
    /\ diffHash (prepare MB MC b c).2 = 0
    /\ diffHashStartIndex (prepare MB MC b c).2 = 0.
Proof.
  intros (Hib & Hfb & Hic & Hfc). unfold setupOf.
  destruct (image b) as [ib|] eqn:E1; [| done]. destruct (info b) as [fb|] eqn:E2; [| done].
  destruct (image c) as [ic|] eqn:E3; [| done]. destruct (info c) as [fc|] eqn:E4; [| done].
  rewrite (prepare_both MB MC b c ib fb ic fc) by done. cbn. eauto 10.
Qed.

Lemma stateAtRow_pristine MB MC b c t y :
  (y <= height (setupOf MB MC b c))%nat ->
  pristineFrom (setupOf MB MC b c) y (stateAtRow MB MC b c t y).
Proof.
  intros Hy. apply (diffRows_pristine _ _ y 0); [apply prepare_pristine | lia].
Qed.

Lemma stateAtRow_succ MB MC b c t y :
  stateAtRow MB MC b c t (S y)
  = diffRow (Double.BRIGHTNESS_DIFFERENCE_THRESHOLD t) (setupOf MB MC b c) y
      (stateAtRow MB MC b c t y).
Proof. apply diffRows_succ. Qed.

Lemma stateAtRow_hashInv MB MC b c t y :
  bothPresent b c -> hashInv (rowKey y) (stateAtRow MB MC b c t y).
Proof.
  intros Hp. destruct (bothPresent_data MB MC b c Hp) as (_ & _ & _ & _ & Hm0 & Hh0 & _).
  apply (diffRows_hashInv _ _ y 0). by left.
Qed.

(** The whole call in terms of the state the loop over the rows ends in. *)
Lemma diffImages_result MB MC b c path t :
  image b <> None \/ image c <> None ->
  canvasAllocated (setupOf MB MC b c) = true ->
  result <$> diffImages MB MC b c path t
  = Some (Some (DiffResult.mk
                  (mismatchedPixels (stateAtRow MB MC b c t (height (setupOf MB MC b c))))
                  (diffHash (stateAtRow MB MC b c t (height (setupOf MB MC b c)))))).
Proof. intros H Hc. by rewrite diffImages_some. Qed.

(** With both images there, the count after row [y] is the count before it
    plus the columns of the row whose two pixels mismatch. *)
Lemma stateAtRow_count MB MC b c t y :
  bothPresent b c -> (y < height (setupOf MB MC b c))%nat ->
  mismatchedPixels (stateAtRow MB MC b c t (S y))
  = mismatchedPixels (stateAtRow MB MC b c t y)
    + countColumns
        (fun x => isMismatch (Double.BRIGHTNESS_DIFFERENCE_THRESHOLD t)
                    (baselinePixelAt MB MC b c t x y) (candidatePixelAt MB MC b c t x y))
        0 (width (setupOf MB MC b c)).
Proof.
  intros Hp Hy.
  destruct (bothPresent_data MB MC b c Hp) as (a32 & b32 & Ha & Hb & _).
  pose proof (stateAtRow_pristine MB MC b c t y (Nat.lt_le_incl _ _ Hy)) as Hpr.
  destruct (diffRow_spec (Double.BRIGHTNESS_DIFFERENCE_THRESHOLD t) _ y _ _ _ Ha Hb Hpr Hy)
    as (_ & _ & _ & Hm).
  destruct (copyRows_spec _ y _ Hpr Hy) as (_ & _ & Hside & _).
  rewrite stateAtRow_succ, Hm. f_equal. apply countColumns_ext. intros x Hx.
  destruct (Hside x ltac:(lia)) as [-> ->]. done.
Qed.

Lemma stateAtRow_count_le MB MC b c t y y' :
  bothPresent b c -> (y <= y')%nat -> (y' <= height (setupOf MB MC b c))%nat ->
  mismatchedPixels (stateAtRow MB MC b c t y) <= mismatchedPixels (stateAtRow MB MC b c t y').
Proof.
  intros Hp Hy Hy'. induction y' as [|y' IH].
  - by replace y with 0%nat by lia.
  - destruct (decide (y = S y')) as [->|Hne]; [done |].
    specialize (IH ltac:(lia) ltac:(lia)).
    rewrite (stateAtRow_count MB MC b c t y' Hp) by lia.
    pose proof (countColumns_nonneg
                  (fun x => isMismatch (Double.BRIGHTNESS_DIFFERENCE_THRESHOLD t)
                              (baselinePixelAt MB MC b c t x y')
                              (candidatePixelAt MB MC b c t x y'))
                  0 (width (setupOf MB MC b c))).
    lia.
Qed.

(** A pixel of the region whose two sides mismatch is counted. *)
Lemma mismatch_is_counted MB MC b c t x y :
  bothPresent b c ->
  (x < width (setupOf MB MC b c))%nat -> (y < height (setupOf MB MC b c))%nat ->
  isMismatch (Double.BRIGHTNESS_DIFFERENCE_THRESHOLD t)
    (baselinePixelAt MB MC b c t x y) (candidatePixelAt MB MC b c t x y) = true ->
  0 < mismatchedPixels (stateAtRow MB MC b c t (height (setupOf MB MC b c))).
Proof.
  intros Hp Hx Hy Hm.
  destruct (bothPresent_data MB MC b c Hp) as (_ & _ & _ & _ & Hm0 & _).
  pose proof (stateAtRow_count_le MB MC b c t 0 y Hp ltac:(lia) ltac:(lia)) as H0.
  pose proof (stateAtRow_count_le MB MC b c t (S y) (height (setupOf MB MC b c)) Hp
                ltac:(lia) (Nat.le_refl _)) as H1.
  rewrite (stateAtRow_count MB MC b c t y Hp Hy) in H1.
  pose proof (countColumns_pos
                (fun x => isMismatch (Double.BRIGHTNESS_DIFFERENCE_THRESHOLD t)
                            (baselinePixelAt MB MC b c t x y)
                            (candidatePixelAt MB MC b c t x y))
                0 (width (setupOf MB MC b c)) x ltac:(lia) Hm) as Hc.
  unfold stateAtRow at 1 in H0. cbn [diffRows] in H0. lia.
Qed.

(** * Properties *)

(** ** The brightness difference *)

(** On the canvas, the brightness difference of two pixels is a function of
    their packed values that reads the bytes at offsets 1, 2 and 3. *)
Lemma differenceBrightness_channels (d : list Z) (kb kc : nat) :
  differenceBrightness d (get32 d kb) (get32 d kc)
    (kb * COLOR_COMPONENTS) (kc * COLOR_COMPONENTS)
  = pixelBrightness (get32 d kb) (get32 d kc).
Proof. apply differenceBrightness_words. Qed.

(** C1 (the code departs from it): for an opaque black baseline pixel and an
    opaque red candidate pixel the luma-weighted difference over red, green and
    blue is 76.245, but the code's brightness difference is 0, and at threshold
    0.03 the pair is reported as matching.  For an opaque black pixel against a
    transparent black one the luma-weighted difference is 0, the alpha channel
    taking no part, but the code's brightness difference is the double of
    29.07 and the pair is reported as a mismatch. *)
Theorem brightness_misses_red_channel (MB MC : Z) :
  let black := 0xff000000 in
  let red := 0xff0000ff in
  let clear := 0x00000000 in
  Uint32Array_of_bytes (Image.data blackPixel) = [black]
  /\ Uint32Array_of_bytes (Image.data redPixel) = [red]
  /\ Uint32Array_of_bytes (Image.data clearPixel) = [clear]
  /\ (lumaDifference black red == 76.245)%Q
  /\ (differenceBrightness [black; 0%Z; red] black red 0 8 == 0)%Q
  /\ diffImages MB MC (fullFrame "baseline.png" blackPixel)
       (fullFrame "candidate.png" redPixel) "diff.png" (JsNum 0.03)
     = Some {| result := Some (DiffResult.mk 0 0); written := None |}
  /\ (lumaDifference black clear == 0)%Q
  /\ (differenceBrightness [black; 0%Z; clear] black clear 0 8 == round64 29.07)%Q
  /\ result <$> diffImages MB MC (fullFrame "baseline.png" blackPixel)
                  (fullFrame "candidate.png" clearPixel) "diff.png" (JsNum 0.03)
     = Some (Some (DiffResult.mk 1 4919)).
Proof. repeat split; vm_compute; reflexivity. Qed.

(** ** Missing images *)

(** C2 (as amended): when both loads resolve and only the baseline image
    exists, the comparison region is the viewport of the baseline; if it has
    pixels the call resolves to the MISSING_CANDIDATE sentinel with a zero
    hash, and if it has none the call fails.  Likewise with only the candidate
    image and the MISSING_BASELINE sentinel.  If neither image exists the call
    resolves to undefined and writes nothing.  No pixel is compared when an
    image is missing: the call does the same under every threshold. *)
Theorem missing_image_sentinels (MB MC : Z) (disk : Disk) (o : Options)
    (b c : ImageAndTestInformation) :
  getImageAndTestInformation disk (baselineImagePath o) = Some b ->
  getImageAndTestInformation disk (candidateImagePath o) = Some c ->
  let s := setupOf MB MC b c in
  (existsSync disk (baselineImagePath o) = true ->
   existsSync disk (candidateImagePath o) = false ->
   (exists inf, info b = Some inf
      /\ width s = Viewport.width (TestInformation.viewport inf)
      /\ height s = Viewport.height (TestInformation.viewport inf))
   /\ ((0 < width s)%nat -> (0 < height s)%nat ->
       result <$> diffImagesAsync MB MC disk o = Some (Some (DiffResult.mk MC 0)))
   /\ (width s = 0%nat \/ height s = 0%nat -> diffImagesAsync MB MC disk o = None))
  /\ (existsSync disk (baselineImagePath o) = false ->
      existsSync disk (candidateImagePath o) = true ->
      (exists inf, info c = Some inf
         /\ width s = Viewport.width (TestInformation.viewport inf)
         /\ height s = Viewport.height (TestInformation.viewport inf))
      /\ ((0 < width s)%nat -> (0 < height s)%nat ->
          result <$> diffImagesAsync MB MC disk o = Some (Some (DiffResult.mk MB 0)))
      /\ (width s = 0%nat \/ height s = 0%nat -> diffImagesAsync MB MC disk o = None))
  /\ (existsSync disk (baselineImagePath o) = false ->
      existsSync disk (candidateImagePath o) = false ->
      diffImagesAsync MB MC disk o = Some {| result := None; written := None |})
  /\ (existsSync disk (baselineImagePath o) = false
      \/ existsSync disk (candidateImagePath o) = false ->
      forall t' : JsValue,
        diffImagesAsync MB MC disk
          {| baselineImagePath := baselineImagePath o;
             candidateImagePath := candidateImagePath o;
             diffImagePath := diffImagePath o;
             threshold := t' |} = diffImagesAsync MB MC disk o).
Proof.
  intros Hb Hc s.
  destruct (loaded_image disk _ b Hb) as [Hbt Hbf].
  destruct (loaded_image disk _ c Hc) as [Hct Hcf].
  rewrite (diffImagesAsync_loaded MB MC disk o b c Hb Hc).
  split; [| split; [| split]].
  - intros Eb Ec. destruct (Hbt Eb) as (img & inf & Hi & Hf). destruct (Hcf Ec) as [Hn Hn'].
    split; [| split].
    + exists inf. subst s. unfold setupOf, prepare. by rewrite Hi, Hf, Hn.
    + intros Hw Hh.
      apply (diffImages_one_missing MB MC b c _ _ img inf); [| done].
      apply canvasAllocated_spec. done.
    + intros He. apply diffImages_empty; [left; congruence |].
      by apply canvasAllocated_false.
  - intros Eb Ec. destruct (Hct Ec) as (img & inf & Hi & Hf). destruct (Hbf Eb) as [Hn Hn'].
    split; [| split].
    + exists inf. subst s. unfold setupOf, prepare. by rewrite Hi, Hf, Hn.
    + intros Hw Hh.
      apply (diffImages_one_missing MB MC b c _ _ img inf); [| done].
      apply canvasAllocated_spec. done.
    + intros He. apply diffImages_empty; [right; congruence |].
      by apply canvasAllocated_false.
  - intros Eb Ec. destruct (Hbf Eb) as [Hn1 _]. destruct (Hcf Ec) as [Hn2 _].
    by apply diffImages_none.
  - intros E t'. rewrite (diffImagesAsync_loaded MB MC disk _ b c) by done.
    cbn [diffImagePath threshold]. apply diffImages_missing_threshold.
    destruct E as [E|E]; [left; by destruct (Hbf E) | right; by destruct (Hcf E)].
Qed.

Lemma missing_image_sentinels_witness :
  getImageAndTestInformation baselineOnlyDisk "baseline.png"
  = Some (fullFrame "baseline.png" black4x4)
  /\ getImageAndTestInformation baselineOnlyDisk "candidate.png"
     = Some {| image := None; info := None |}
  /\ result <$> diffImagesAsync (-1) (-2) baselineOnlyDisk (sampleJob (JsNum 0.03))
     = Some (Some (DiffResult.mk (-2) 0))
  /\ result <$> diffImagesAsync (-1) (-2) candidateOnlyDisk (sampleJob (JsNum 0.03))
     = Some (Some (DiffResult.mk (-1) 0)).
Proof.
  split; [reflexivity |]. split; [reflexivity |]. split.
  - destruct (missing_image_sentinels (-1) (-2) baselineOnlyDisk (sampleJob (JsNum 0.03))
                (fullFrame "baseline.png" black4x4) {| image := None; info := None |}
                eq_refl eq_refl) as (H1 & _).
    destruct (H1 eq_refl eq_refl) as (_ & H & _).
    apply H; vm_compute; lia.
  - destruct (missing_image_sentinels (-1) (-2) candidateOnlyDisk (sampleJob (JsNum 0.03))
                {| image := None; info := None |} (fullFrame "candidate.png" white4x4)
                eq_refl eq_refl) as (_ & H2 & _).
    destruct (H2 eq_refl eq_refl) as (_ & H & _).
    apply H; vm_compute; lia.
Defined.

(** C2 (as stated) fails: with only the baseline image on disk the result is
    MISSING_CANDIDATE, which is not the "missing baseline" sentinel whenever
    the two sentinels differ. *)
Lemma only_baseline_is_missing_candidate :
  existsSync baselineOnlyDisk "baseline.png" = true
  /\ existsSync baselineOnlyDisk "candidate.png" = false
  /\ forall MB MC : Z, MB <> MC ->
       exists out r,
         diffImagesAsync MB MC baselineOnlyDisk (sampleJob (JsNum 0.03)) = Some out
         /\ result out = Some r
         /\ DiffResult.mismatchedPixels r = MC
         /\ DiffResult.mismatchedPixels r <> MB.
Proof.
  split; [done |]. split; [done |]. intros MB MC Hne.
  pose proof (proj1 (diffImages_one_missing MB MC (fullFrame "baseline.png" black4x4)
                       {| image := None; info := None |} "diff.png" (JsNum 0.03) black4x4
                       (TestInformation.mk "baseline.png" (Viewport.mk 0 0 4 4 1)) eq_refl)
                (conj eq_refl (conj eq_refl eq_refl))) as H.
  rewrite (diffImagesAsync_loaded MB MC baselineOnlyDisk (sampleJob (JsNum 0.03))
             (fullFrame "baseline.png" black4x4) {| image := None; info := None |}
             eq_refl eq_refl).
  cbn [diffImagePath threshold sampleJob].
  destruct (diffImages MB MC _ _ _ _) as [out|]; [| done].
  cbn in H. injection H as H. exists out, (DiffResult.mk MC 0).
  split; [done |]. split; [done |]. cbn. split; congruence.
Qed.

(** ** Thresholds in order *)

(** C3 (as amended): for a pair of images both present whose comparison region
    has pixels, and thresholds [0 <= t1 < t2 <= 1] such that [t1] is not zero
    as a double or [t2] is at least the default 0.03, the count at [t1] is at
    least the count at [t2]. *)
Theorem lower_threshold_counts_more (MB MC : Z) (disk : Disk)
    (baselinePath candidatePath diffPath : string)
    (b c : ImageAndTestInformation) (ib ic : Image.t) (t1 t2 : Q) :
  getImageAndTestInformation disk baselinePath = Some b ->
  getImageAndTestInformation disk candidatePath = Some c ->
  image b = Some ib -> image c = Some ic ->
  (0 < width (setupOf MB MC b c))%nat -> (0 < height (setupOf MB MC b c))%nat ->
  (0 <= t1)%Q -> (t1 < t2)%Q -> (t2 <= 1)%Q ->
  ((round64 t1 == 0)%Q -> (DEFAULT_THRESHOLD <= t2)%Q) ->
  exists out1 out2 r1 r2,
    diffImagesAsync MB MC disk
      {| baselineImagePath := baselinePath; candidateImagePath := candidatePath;
         diffImagePath := diffPath; threshold := JsNum t1 |} = Some out1
    /\ diffImagesAsync MB MC disk
         {| baselineImagePath := baselinePath; candidateImagePath := candidatePath;
            diffImagePath := diffPath; threshold := JsNum t2 |} = Some out2
    /\ result out1 = Some r1 /\ result out2 = Some r2
    /\ DiffResult.mismatchedPixels r2 <= DiffResult.mismatchedPixels r1.
Proof.
  intros Hb Hc Hib Hic Hw Hh H1 H12 H2 Hd.
  destruct (loaded_present _ _ _ _ Hb Hib) as (_ & fb & Hfb).
  destruct (loaded_present _ _ _ _ Hc Hic) as (_ & fc & Hfc).
  assert (Hcanvas : canvasAllocated (prepare MB MC b c).1 = true).
  { by apply canvasAllocated_spec. }
  rewrite !(diffImagesAsync_loaded MB MC disk _ b c) by done.
  rewrite !diffImages_some by ((left; congruence) || done).
  eexists _, _, _, _.
  split; [reflexivity |]. split; [reflexivity |].
  split; [reflexivity |]. split; [reflexivity |].
  cbn [DiffResult.mismatchedPixels threshold].
  pose proof (prepare_both MB MC b c ib fb ic fc Hib Hfb Hic Hfc) as Hprep.
  cbv zeta in Hprep.
  apply (diffRows_monotone _ _ _ (Uint32Array_of_bytes (Image.data ib))
           (Uint32Array_of_bytes (Image.data ic))); try done.
  - apply threshold_monotone_double; [by apply Qlt_le_weak | done].
  - by rewrite Hprep.
  - by rewrite Hprep.
  - apply prepare_pristine.
  - apply prepare_pristine.
Qed.

Lemma lower_threshold_counts_more_witness :
  (exists out1 out2 r1 r2,
     diffImagesAsync (-1) (-2) faintChangeDisk (sampleJob (JsNum 0.005)) = Some out1
     /\ diffImagesAsync (-1) (-2) faintChangeDisk (sampleJob (JsNum 0.02)) = Some out2
     /\ result out1 = Some r1 /\ result out2 = Some r2
     /\ DiffResult.mismatchedPixels r2 <= DiffResult.mismatchedPixels r1)
  /\ (exists out1 out2 r1 r2,
        diffImagesAsync (-1) (-2) faintChangeDisk (sampleJob (JsNum 0)) = Some out1
        /\ diffImagesAsync (-1) (-2) faintChangeDisk (sampleJob (JsNum 0.05)) = Some out2
        /\ result out1 = Some r1 /\ result out2 = Some r2
        /\ DiffResult.mismatchedPixels r2 <= DiffResult.mismatchedPixels r1).
Proof.
  split.
  - apply (lower_threshold_counts_more (-1) (-2) faintChangeDisk
             "baseline.png" "candidate.png" "diff.png"
             (fullFrame "baseline.png" blackPixel) (fullFrame "candidate.png" darkGreenPixel)
             blackPixel darkGreenPixel 0.005 0.02);
      try reflexivity; try (vm_compute; lia); try discriminate.
  - apply (lower_threshold_counts_more (-1) (-2) faintChangeDisk
             "baseline.png" "candidate.png" "diff.png"
             (fullFrame "baseline.png" blackPixel) (fullFrame "candidate.png" darkGreenPixel)
             blackPixel darkGreenPixel 0 0.05);
      try reflexivity; try (vm_compute; lia); try discriminate.
Defined.

(** C3 (as stated) fails for [t1 = 0 < t2 = 0.01]: the threshold 0 is replaced
    by the default, under which the faint change (green 0 against 10) is a
    match, while at 0.01 it is a mismatch. *)
Lemma threshold_zero_counts_less :
  (0 <= 0)%Q /\ (0 < 0.01)%Q /\ (0.01 <= 1)%Q
  /\ (result <$> diffImagesAsync (-1) (-2) faintChangeDisk (sampleJob (JsNum 0)))
     = Some (Some (DiffResult.mk 0 0))
  /\ (result <$> diffImagesAsync (-1) (-2) faintChangeDisk (sampleJob (JsNum 0.01)))
     = Some (Some (DiffResult.mk 1 4919)).
Proof. repeat split; try discriminate; vm_compute; reflexivity. Qed.

(** ** The positional hash *)

(** C4 (the code departs from it): with a one-row baseline of two black pixels
    and a candidate of two white pixels both columns mismatch; the described
    hash is the spread plus the key distance 1 of the second mismatch, 4920,
    and the code returns 4919: the key of a mismatch is that of its row, and by
    [diffRow_hash] a row enters the hash through its number of mismatches
    only. *)
Theorem diffHash_ignores_column (MB MC : Z) :
  result <$> diffImages MB MC (fullFrame "baseline.png" black2x1)
               (fullFrame "candidate.png" white2x1) "diff.png" (JsNum 0.03)
  = Some (Some (DiffResult.mk 2 4919))
  /\ referenceDiffHash [(0, 0); (0, 1)]%nat = 4920.
Proof. split; vm_compute; reflexivity. Qed.

(** C5: with both images present, a call that resolves gives a result whose
    hash is zero exactly when its count is zero; a counted mismatch makes the
    hash at least the spread, hence non-zero, and every pixel of the region
    that is classified as a mismatch is counted.  The call resolves whenever
    the comparison region has pixels. *)
Theorem diffHash_zero_iff_no_mismatch (MB MC : Z) (disk : Disk) (o : Options)
    (b c : ImageAndTestInformation) (ib ic : Image.t) :
  getImageAndTestInformation disk (baselineImagePath o) = Some b ->
  getImageAndTestInformation disk (candidateImagePath o) = Some c ->
  image b = Some ib -> image c = Some ic ->
  let s := setupOf MB MC b c in
  let T := Double.BRIGHTNESS_DIFFERENCE_THRESHOLD (threshold o) in
  ((0 < width s)%nat -> (0 < height s)%nat ->
   exists out, diffImagesAsync MB MC disk o = Some out)
  /\ forall out, diffImagesAsync MB MC disk o = Some out ->
       exists r,
         result out = Some r
         /\ (DiffResult.diffHash r = 0 <-> DiffResult.mismatchedPixels r = 0)
         /\ (DiffResult.mismatchedPixels r <> 0 ->
             0 < DiffResult.mismatchedPixels r
             /\ DIFF_HASH_SPREAD <= DiffResult.diffHash r
             /\ DiffResult.diffHash r <> 0)
         /\ (forall x y, (x < width s)%nat -> (y < height s)%nat ->
               isMismatch T (baselinePixelAt MB MC b c (threshold o) x y)
                 (candidatePixelAt MB MC b c (threshold o) x y) = true ->
               0 < DiffResult.mismatchedPixels r /\ DiffResult.diffHash r <> 0).
Proof.
  intros Hb Hc Hib Hic s T.
  destruct (loaded_present _ _ _ _ Hb Hib) as (_ & fb & Hfb).
  destruct (loaded_present _ _ _ _ Hc Hic) as (_ & fc & Hfc).
  assert (Hp : bothPresent b c) by (unfold bothPresent; repeat split; congruence).
  rewrite (diffImagesAsync_loaded MB MC disk o _ _ Hb Hc).
  split.
  { intros Hw Hh. rewrite diffImages_some; [by eexists | left; congruence |].
    by apply canvasAllocated_spec. }
  intros out Hout.
  destruct (diffImages_resolved MB MC b c _ _ out Hout) as [(Hn & _)|(_ & Hcanvas & E)];
    [congruence |].
  rewrite E in Hout. cbv zeta in Hout. injection Hout as <-.
  eexists. split; [reflexivity |].
  cbn [DiffResult.diffHash DiffResult.mismatchedPixels].
  pose proof (hashInv_final MB MC b c ib fb ic fc T Hib Hfb Hic Hfc) as H.
  cbv zeta in H. subst s T. unfold hashInv, DIFF_HASH_SPREAD, setupOf in *.
  split; [| split].
  - destruct H as [[H1 H2]|(H1 & H2 & H3)]; lia.
  - destruct H as [[H1 H2]|(H1 & H2 & H3)]; lia.
  - intros x y Hx Hy Hm.
    pose proof (mismatch_is_counted MB MC b c (threshold o) x y Hp Hx Hy Hm) as Hpos.
    unfold stateAtRow, setupOf in Hpos.
    destruct H as [[H1 H2]|(H1 & H2 & H3)]; lia.
Qed.

Lemma diffHash_zero_iff_no_mismatch_witness :
  exists out r,
    diffImagesAsync (-1) (-2) blackWhiteDisk (sampleJob (JsNum 0.03)) = Some out
    /\ result out = Some r
    /\ DiffResult.mismatchedPixels r = 16
    /\ DiffResult.diffHash r = 122975
    /\ (DiffResult.diffHash r = 0 <-> DiffResult.mismatchedPixels r = 0)
    /\ isMismatch (Double.BRIGHTNESS_DIFFERENCE_THRESHOLD (JsNum 0.03))
         (baselinePixelAt (-1) (-2) (fullFrame "baseline.png" black4x4)
            (fullFrame "candidate.png" white4x4) (JsNum 0.03) 3 2)
         (candidatePixelAt (-1) (-2) (fullFrame "baseline.png" black4x4)
            (fullFrame "candidate.png" white4x4) (JsNum 0.03) 3 2) = true.
Proof.
  destruct (diffHash_zero_iff_no_mismatch (-1) (-2) blackWhiteDisk (sampleJob (JsNum 0.03))
              (fullFrame "baseline.png" black4x4) (fullFrame "candidate.png" white4x4)
              black4x4 white4x4 eq_refl eq_refl eq_refl eq_refl) as [_ H].
  destruct (H _ eq_refl) as (r & Hr & Hiff & _).
  eexists _, r. split; [reflexivity |]. split; [exact Hr |].
  assert (Er : r = DiffResult.mk 16 122975) by (vm_compute in Hr; congruence).
  split; [by rewrite Er |]. split; [by rewrite Er |].
  split; [exact Hiff | vm_compute; reflexivity].
Defined.

(** ** The effective threshold *)



(** ** The side panels *)


(** ** An image against itself *)

(** C8 (as amended): when the two loads give the same decoded image with the
    same viewport, and the viewport has pixels, for every threshold in [0, 1]
    the result is no mismatch and a zero hash, and no diff file is written. *)
Theorem identical_images_match (MB MC : Z) (disk : Disk) (o : Options)
    (b c : ImageAndTestInformation) (img : Image.t) (fb fc : TestInformation.t) (q : Q) :
  getImageAndTestInformation disk (baselineImagePath o) = Some b ->
  getImageAndTestInformation disk (candidateImagePath o) = Some c ->
  image b = Some img -> image c = Some img ->
  info b = Some fb -> info c = Some fc ->
  TestInformation.viewport fb = TestInformation.viewport fc ->
  (0 < Viewport.width (TestInformation.viewport fb))%nat ->
  (0 < Viewport.height (TestInformation.viewport fb))%nat ->
  threshold o = JsNum q -> (0 <= q)%Q -> (q <= 1)%Q ->
  diffImagesAsync MB MC disk o
  = Some {| result := Some (DiffResult.mk 0 0); written := None |}.
Proof.
  intros Hb Hc Hib Hic Hfb Hfc Hv Hvw Hvh Ht Hq0 Hq1.
  rewrite (diffImagesAsync_loaded MB MC disk o _ _ Hb Hc).
  pose proof (prepare_both MB MC b c img fb img fc Hib Hfb Hic Hfc) as Hprep.
  cbv zeta in Hprep.
  rewrite diffImages_some; [| left; congruence |].
  2:{ apply canvasAllocated_spec. rewrite Hprep. cbn [fst width height]. lia. }
  pose proof (hashInv_final MB MC b c img fb img fc
                (Double.BRIGHTNESS_DIFFERENCE_THRESHOLD (threshold o)) Hib Hfb Hic Hfc) as Hh.
  pose proof (prepare_pristine MB MC b c) as Hp.
  cbv zeta in Hh.
  assert (Hm : mismatchedPixels
                 (diffRows (height (prepare MB MC b c).1)
                    (Double.BRIGHTNESS_DIFFERENCE_THRESHOLD (threshold o))
                    (prepare MB MC b c).1 0 (prepare MB MC b c).2) = 0).
  { rewrite (diffRows_identity _ _ (Uint32Array_of_bytes (Image.data img))); try done.
    - by rewrite Hprep.
    - apply threshold_positive_double. by rewrite Ht.
    - by rewrite Hprep.
    - by rewrite Hprep.
    - by rewrite Hprep.
    - rewrite Hprep. cbn. by rewrite Hv. }
  cbv zeta. unfold hashInv in Hh. rewrite Hm in *.
  destruct Hh as [[_ ->]|(? & _)]; [done | lia].
Qed.

Lemma identical_images_match_witness :
  diffImagesAsync (-1) (-2) sameImageDisk (sampleJob (JsNum 0))
  = Some {| result := Some (DiffResult.mk 0 0); written := None |}.
Proof.
  apply (identical_images_match (-1) (-2) sameImageDisk (sampleJob (JsNum 0))
           (fullFrame "baseline.png" black4x4) (fullFrame "candidate.png" black4x4)
           black4x4
           (TestInformation.mk "baseline.png" (Viewport.mk 0 0 4 4 1))
           (TestInformation.mk "candidate.png" (Viewport.mk 0 0 4 4 1)) 0);
    try reflexivity; try (cbn; lia); discriminate.
Defined.

(** C8 (as stated) fails for a viewport without pixels: with the same image
    and the same metadata on both sides, whose viewport has width 0, the canvas
    has no buffer, the call throws and resolves to no result. *)
Lemma empty_viewport_does_not_resolve :
  getImageAndTestInformation emptyViewportDisk "baseline.png"
  = Some {| image := Some black4x4; info := Some (noWidth "shot") |}
  /\ getImageAndTestInformation emptyViewportDisk "candidate.png"
     = Some {| image := Some black4x4; info := Some (noWidth "shot") |}
  /\ Viewport.width (TestInformation.viewport (noWidth "shot")) = 0%nat
  /\ diffImagesAsync (-1) (-2) emptyViewportDisk (sampleJob (JsNum 0.03)) = None.
Proof. repeat split. Qed.

(** ** Black against white *)

(** C9: a 4x4 opaque black baseline against a 4x4 opaque white candidate, both
    loaded without metadata, at threshold 0.03: 16 mismatched pixels, a
    non-zero hash, and a diff file whose canvas is 12 wide and 4 high. *)
Theorem black_against_white (MB MC : Z) (disk : Disk) (o : Options)
    (nameB nameC : string) :
  getImageAndTestInformation disk (baselineImagePath o) = Some (fullFrame nameB black4x4) ->
  getImageAndTestInformation disk (candidateImagePath o) = Some (fullFrame nameC white4x4) ->
  threshold o = JsNum 0.03 ->
  exists out r png,
    diffImagesAsync MB MC disk o = Some out
    /\ result out = Some r
    /\ DiffResult.mismatchedPixels r = 16
    /\ DiffResult.diffHash r <> 0
    /\ written out = Some (diffImagePath o, png)
    /\ PNG.width png = 12%nat
    /\ PNG.height png = 4%nat
    /\ length (PNG.data png) = (12 * 4)%nat.
Proof.
  intros Hb Hc Ht.
  rewrite (diffImagesAsync_loaded MB MC disk o _ _ Hb Hc), Ht.
  eexists _, (DiffResult.mk 16 122975), _.
  split; [vm_compute; reflexivity |]. split; [reflexivity |].
  split; [reflexivity |]. split; [done |].
  split; [reflexivity |]. done.
Qed.

Lemma black_against_white_witness :
  exists out r png,
    diffImagesAsync (-1) (-2) blackWhiteDisk (sampleJob (JsNum 0.03)) = Some out
    /\ result out = Some r
    /\ DiffResult.mismatchedPixels r = 16
    /\ DiffResult.diffHash r <> 0
    /\ written out = Some ("diff.png"%string, png)
    /\ PNG.width png = 12%nat
    /\ PNG.height png = 4%nat
    /\ length (PNG.data png) = (12 * 4)%nat.
Proof.
  exact (black_against_white (-1) (-2) blackWhiteDisk (sampleJob (JsNum 0.03))
           "baseline.png" "candidate.png" eq_refl eq_refl eq_refl).
Defined.

(** ** Images of different sizes *)

(** C10 (as amended): with both images present the comparison runs over the
    larger of the two viewport widths and heights.  A row of an image is copied
    whole or not at all.  In a row whose baseline copy guard fails the baseline
    side of the canvas holds zeros, every column is still compared, and the
    row adds to the count the columns whose brightness difference between the
    zero pixel and the candidate-side pixel is not below the threshold;
    likewise with the sides exchanged.  In a row whose copy guard holds, every
    column of that side, those beyond the width of the image included, holds
    the word of the image buffer that follows the offset of the row by the
    column. *)
Theorem uncopied_rows_are_compared_as_zeros (MB MC : Z)
    (b c : ImageAndTestInformation) (ib ic : Image.t) (fb fc : TestInformation.t)
    (t : JsValue) (y : nat) :
  image b = Some ib -> info b = Some fb -> image c = Some ic -> info c = Some fc ->
  let s := (prepare MB MC b c).1 in
  let T := Double.BRIGHTNESS_DIFFERENCE_THRESHOLD t in
  let st := diffRows y T s 0 (prepare MB MC b c).2 in
  let w := width s in
  (y < height s)%nat ->
  w = Nat.max (Viewport.width (TestInformation.viewport fb))
        (Viewport.width (TestInformation.viewport fc))
  /\ height s = Nat.max (Viewport.height (TestInformation.viewport fb))
                  (Viewport.height (TestInformation.viewport fc))
  /\ (copyGuard (baselineData32 s) (baselineOffset32 st) w = false ->
      (forall x, (x < w)%nat -> get32 (diffData32 (copyRows s y st)) (y * w * 3 + x) = 0)
      /\ mismatchedPixels (diffRows (S y) T s 0 (prepare MB MC b c).2)
         = mismatchedPixels st
           + countColumns
               (fun x => isMismatch T 0
                           (sourcePixel (candidateData32 s) (candidateOffset32 st) w x))
               0 w)
  /\ (copyGuard (candidateData32 s) (candidateOffset32 st) w = false ->
      (forall x, (x < w)%nat ->
         get32 (diffData32 (copyRows s y st)) (y * w * 3 + 2 * w + x) = 0)
      /\ mismatchedPixels (diffRows (S y) T s 0 (prepare MB MC b c).2)
         = mismatchedPixels st
           + countColumns
               (fun x => isMismatch T
                           (sourcePixel (baselineData32 s) (baselineOffset32 st) w x) 0)
               0 w)
  /\ (copyGuard (baselineData32 s) (baselineOffset32 st) w = true ->
      forall x, (x < w)%nat ->
        get32 (diffData32 (copyRows s y st)) (y * w * 3 + x)
        = get32 (Uint32Array_of_bytes (Image.data ib)) (baselineOffset32 st + x))
  /\ (copyGuard (candidateData32 s) (candidateOffset32 st) w = true ->
      forall x, (x < w)%nat ->
        get32 (diffData32 (copyRows s y st)) (y * w * 3 + 2 * w + x)
        = get32 (Uint32Array_of_bytes (Image.data ic)) (candidateOffset32 st + x)).
Proof.
  intros Hib Hfb Hic Hfc s T st w Hy.
  pose proof (prepare_both MB MC b c ib fb ic fc Hib Hfb Hic Hfc) as Hprep.
  cbv zeta in Hprep.
  assert (Hp : pristineFrom s y st).
  { apply (diffRows_pristine T s y 0); [apply prepare_pristine | lia]. }
  assert (Ha : baselineData32 s = Some (Uint32Array_of_bytes (Image.data ib))).
  { subst s. by rewrite Hprep. }
  assert (Hb : candidateData32 s = Some (Uint32Array_of_bytes (Image.data ic))).
  { subst s. by rewrite Hprep. }
  destruct (diffRow_spec T s y st _ _ Ha Hb Hp Hy) as (_ & _ & _ & Hm).
  destruct (copyRows_spec s y st Hp Hy) as (_ & _ & Hside & _).
  fold w in Hm, Hside.
  split; [subst w s; by rewrite Hprep |]. split; [subst s; by rewrite Hprep |].
  split; [| split; [| split]]; intros Hg.
  - split.
    + intros x Hx. destruct (Hside x Hx) as [-> _]. unfold sourcePixel. by rewrite Hg.
    + rewrite diffRows_succ. fold st. rewrite Hm. f_equal.
      apply countColumns_ext. intros x Hx.
      destruct (Hside x ltac:(lia)) as [-> ->].
      unfold sourcePixel at 1. by rewrite Hg.
  - split.
    + intros x Hx. destruct (Hside x Hx) as [_ ->]. unfold sourcePixel. by rewrite Hg.
    + rewrite diffRows_succ. fold st. rewrite Hm. f_equal.
      apply countColumns_ext. intros x Hx.
      destruct (Hside x ltac:(lia)) as [-> ->].
      unfold sourcePixel at 2. by rewrite Hg.
  - intros x Hx. destruct (Hside x Hx) as [-> _]. unfold sourcePixel. by rewrite Hg, Ha.
  - intros x Hx. destruct (Hside x Hx) as [_ ->]. unfold sourcePixel. by rewrite Hg, Hb.
Qed.

Lemma uncopied_rows_are_compared_as_zeros_witness :
  let s := (prepare (-1) (-2) (fullFrame "baseline.png" blackPixel)
              (fullFrame "candidate.png" white4x4)).1 in
  let st0 := (prepare (-1) (-2) (fullFrame "baseline.png" blackPixel)
                (fullFrame "candidate.png" white4x4)).2 in
  width s = 4%nat /\ height s = 4%nat
  /\ copyGuard (baselineData32 s) (baselineOffset32 st0) 4 = false
  /\ mismatchedPixels
       (diffRows 1 (Double.BRIGHTNESS_DIFFERENCE_THRESHOLD (JsNum 0.03)) s 0 st0) = 4.
Proof.
  pose proof (uncopied_rows_are_compared_as_zeros (-1) (-2)
                (fullFrame "baseline.png" blackPixel) (fullFrame "candidate.png" white4x4)
                blackPixel white4x4
                (TestInformation.mk "baseline.png" (Viewport.mk 0 0 1 1 1))
                (TestInformation.mk "candidate.png" (Viewport.mk 0 0 4 4 1))
                (JsNum 0.03) 0 eq_refl eq_refl eq_refl eq_refl ltac:(vm_compute; lia))
    as (Hw & Hh & Hbase & _).
  split; [exact Hw |]. split; [exact Hh |]. split; [reflexivity |].
  destruct (Hbase eq_refl) as [_ Hcount]. rewrite Hcount. vm_compute. reflexivity.
Defined.

(** C10 (as stated) fails for the portion of a row beyond the width of the
    smaller image.  The baseline is one pixel wide and two high, black above
    white; the candidate holds the same two pixels side by side.  In row 0 the
    guards hold and column 1 of the baseline side, which lies outside the
    baseline, holds the white pixel of the baseline's second row; it equals
    the candidate pixel, so that no mismatch is counted, where the zero pixel
    would have been one. *)
Lemma overrun_columns_hold_the_next_row :
  Image.width tallStrip = 1%nat
  /\ width (setupOf (-1) (-2) (fullFrame "baseline.png" tallStrip)
              (fullFrame "candidate.png" wideStrip)) = 2%nat
  /\ baselinePixelAt (-1) (-2) (fullFrame "baseline.png" tallStrip)
       (fullFrame "candidate.png" wideStrip) (JsNum 0.03) 1 0 = PURE_WHITE
  /\ candidatePixelAt (-1) (-2) (fullFrame "baseline.png" tallStrip)
       (fullFrame "candidate.png" wideStrip) (JsNum 0.03) 1 0 = PURE_WHITE
  /\ isMismatch (Double.BRIGHTNESS_DIFFERENCE_THRESHOLD (JsNum 0.03)) 0 PURE_WHITE = true
  /\ diffImagesAsync (-1) (-2) stripsDisk (sampleJob (JsNum 0.03))
     = Some {| result := Some (DiffResult.mk 0 0); written := None |}.
Proof. repeat split; vm_compute; reflexivity. Qed.

(** * Further properties *)

(** ** Paths *)

Lemma stripExtension_dotFree e : dotFree e = true -> stripExtension e = None.
Proof.
  induction e as [|c e IH]; cbn [dotFree stripExtension]; [done |].
  intros H. apply andb_prop in H as [Hc He]. rewrite (IH He).
  apply negb_true_iff in Hc. by rewrite Hc.
Qed.

Lemma stripExtension_extension (stem ext : string) :
  ext <> EmptyString -> dotFree ext = true ->
  stripExtension (stem ++ "." ++ ext) = Some stem.
Proof.
  intros Hne Hdf.
  induction stem as [|c stem IH]; cbn [String.append stripExtension].
  - rewrite (stripExtension_dotFree ext Hdf), Hdf, Ascii.eqb_refl.
    destruct (String.eqb_spec ext ""); [done | reflexivity].
  - cbn [String.append] in IH. by rewrite IH.
Qed.

(** X1: a path that ends in a dot and a non-empty extension without dots has
    its metadata file at the same path with the extension replaced by json. *)
Theorem jsonPathOf_extension (stem ext : string) :
  ext <> EmptyString -> dotFree ext = true ->
  jsonPathOf (stem ++ "." ++ ext) = (stem ++ ".json")%string.
Proof.
  intros Hne Hdf. unfold jsonPathOf. by rewrite stripExtension_extension.
Qed.

Lemma jsonPathOf_extension_witness :
  jsonPathOf "shots/home.page.png" = "shots/home.page.json"%string.
Proof.
  exact (jsonPathOf_extension "shots/home.page" "png" ltac:(discriminate) eq_refl).
Defined.

(** X2: replacing the extension is idempotent: the metadata path of a metadata
    path is itself; and a path without any dot, which has no extension to
    replace, is its own metadata path. *)
Theorem jsonPathOf_idempotent (path : string) :
  jsonPathOf (jsonPathOf path) = jsonPathOf path
  /\ (dotFree path = true -> jsonPathOf path = path).
Proof.
  split.
  - unfold jsonPathOf at 2 3.
    destruct (stripExtension path) as [p|] eqn:E.
    + pose proof (stripExtension_extension p "json" ltac:(discriminate) eq_refl) as H.
      change (p ++ "." ++ "json")%string with (p ++ ".json")%string in H.
      unfold jsonPathOf. by rewrite H.
    + unfold jsonPathOf. by rewrite E.
  - intros H. unfold jsonPathOf. by rewrite stripExtension_dotFree.
Qed.

Lemma getImageFileNameFromPath_unfold c rest :
  getImageFileNameFromPath (String c rest)
  = if hasSep (String c rest) then getImageFileNameFromPath rest else String c rest.
Proof. reflexivity. Qed.

Lemma hasSep_append dir name : hasSep (dir ++ String sep name) = true.
Proof.
  induction dir as [|c dir IH]; unfold hasSep in *; cbn.
  - done.
  - rewrite IH. apply orb_true_r.
Qed.

Lemma getImageFileNameFromPath_plain name :
  hasSep name = false -> getImageFileNameFromPath name = name.
Proof.
  destruct name as [|c rest]; [done |].
  intros H. by rewrite getImageFileNameFromPath_unfold, H.
Qed.

(** X3: the file name of a path is what follows its last separator: for a
    directory, a separator and a name without separators it is the name; in
    every case it has no separator in it and the path ends with it. *)
Theorem getImageFileNameFromPath_last_segment (path : string) :
  hasSep (getImageFileNameFromPath path) = false
  /\ (exists dir, path = (dir ++ getImageFileNameFromPath path)%string)
  /\ (forall dir name, path = (dir ++ String sep name)%string -> hasSep name = false ->
       getImageFileNameFromPath path = name).
Proof.
  split; [| split].
  - induction path as [|c rest IH]; [done |].
    rewrite getImageFileNameFromPath_unfold.
    by destruct (hasSep (String c rest)) eqn:E.
  - induction path as [|c rest IH]; [by exists EmptyString |].
    rewrite getImageFileNameFromPath_unfold.
    destruct (hasSep (String c rest)).
    + destruct IH as [dir Hdir]. exists (String c dir). cbn. by rewrite <- Hdir.
    + by exists EmptyString.
  - intros dir name -> Hname.
    induction dir as [|c dir IH]; cbn [String.append].
    + rewrite getImageFileNameFromPath_unfold.
      change (String sep name) with (EmptyString ++ String sep name)%string at 1.
      rewrite hasSep_append. by apply getImageFileNameFromPath_plain.
    + rewrite getImageFileNameFromPath_unfold.
      change (String c (dir ++ String sep name)) with (String c dir ++ String sep name)%string at 1.
      by rewrite hasSep_append.
Qed.

(** ** The loader *)

(** X4: a load that resolves returns an image exactly when the path exists,
    and with every image it returns an information record; for a path that
    does not exist both are absent. *)
Theorem load_image_iff_exists (disk : Disk) (path : string) (l : ImageAndTestInformation) :
  getImageAndTestInformation disk path = Some l ->
  (image l <> None <-> existsSync disk path = true)
  /\ (image l <> None -> info l <> None)
  /\ (existsSync disk path = false -> image l = None /\ info l = None).
Proof.
  intros Hl. destruct (loaded_image disk path l Hl) as [Ht Hf].
  destruct (existsSync disk path).
  - destruct (Ht eq_refl) as (img & inf & Hi & Hinf). rewrite Hi, Hinf. by repeat split.
  - destruct (Hf eq_refl) as [-> ->]. by repeat split.
Qed.

Lemma load_image_iff_exists_witness :
  (image (fullFrame "baseline.png" black4x4) <> None
   <-> existsSync baselineOnlyDisk "baseline.png" = true)
  /\ (image (fullFrame "baseline.png" black4x4) <> None
      -> info (fullFrame "baseline.png" black4x4) <> None)
  /\ (existsSync baselineOnlyDisk "baseline.png" = false
      -> image (fullFrame "baseline.png" black4x4) = None
         /\ info (fullFrame "baseline.png" black4x4) = None).
Proof.
  exact (load_image_iff_exists baselineOnlyDisk "baseline.png"
           (fullFrame "baseline.png" black4x4) eq_refl).
Defined.

(** X5: an existing image file whose path already has the extension json is
    its own metadata file, and its load never resolves: the file cannot both
    parse as metadata and decode as an image. *)
Theorem load_json_path_never_resolves (disk : Disk) (stem : string) :
  existsSync disk (stem ++ ".json") = true ->
  getImageAndTestInformation disk (stem ++ ".json") = None.
Proof.
  intros H. unfold getImageAndTestInformation. rewrite H.
  pose proof (stripExtension_extension stem "json" ltac:(discriminate) eq_refl) as Hs.
  change (stem ++ "." ++ "json")%string with (stem ++ ".json")%string in Hs.
  unfold jsonPathOf. rewrite Hs, H.
  unfold existsSync in H.
  destruct (disk (stem ++ ".json")%string) as [[img|img|parsed|]|]; done.
Qed.

Lemma load_json_path_never_resolves_witness :
  getImageAndTestInformation
    (diskOf [("shot.json"%string, JsonFile None)]) "shot.json" = None.
Proof.
  exact (load_json_path_never_resolves
           (diskOf [("shot.json"%string, JsonFile None)]) "shot" eq_refl).
Defined.

(** ** The byte view and the word view *)

Lemma byteOf_packed (b0 b1 b2 b3 : Z) :
  0 <= b0 < 256 -> 0 <= b1 < 256 -> 0 <= b2 < 256 -> 0 <= b3 < 256 ->
  let word := b0 + Z.shiftl b1 8 + Z.shiftl b2 16 + Z.shiftl b3 24 in
  byteOf word 0 = b0 /\ byteOf word 1 = b1 /\ byteOf word 2 = b2 /\ byteOf word 3 = b3
  /\ 0 <= word < 2 ^ 32.
Proof.
  intros H0 H1 H2 H3 word. subst word. unfold byteOf.
  change 0xff with (Z.ones 8).
  rewrite !Z.land_ones, !Z.shiftr_div_pow2, !Z.shiftl_mul_pow2 by lia.
  change (2 ^ (8 * 0)) with 1. change (2 ^ (8 * 1)) with 256.
  change (2 ^ (8 * 2)) with 65536. change (2 ^ (8 * 3)) with 16777216.
  change (2 ^ 8) with 256. change (2 ^ 16) with 65536. change (2 ^ 24) with 16777216.
  change (2 ^ 32) with 4294967296.
  repeat split; try lia; Z.div_mod_to_equations; lia.
Qed.

Lemma byte_range (b : byte) : 0 <= Z.of_N (Byte.to_N b) < 256.
Proof. pose proof (Byte.to_N_bounded b). lia. Qed.

(** Induction over a byte buffer one pixel at a time. *)
Lemma pixels_ind (P : list byte -> Prop) :
  (forall bs, (length bs < 4)%nat -> P bs) ->
  (forall b0 b1 b2 b3 rest, P rest -> P (b0 :: b1 :: b2 :: b3 :: rest)) ->
  forall bs, P bs.
Proof.
  intros Hshort Hstep bs.
  assert (H : forall n bs, (length bs <= n)%nat -> P bs); [| by apply (H (length bs))].
  induction n as [|n IH]; intros l Hl.
  - apply Hshort. lia.
  - destruct l as [|b0 [|b1 [|b2 [|b3 rest]]]]; try (apply Hshort; cbn; lia).
    apply Hstep, IH. cbn in Hl. lia.
Qed.

Lemma Uint32Array_of_bytes_short bs : (length bs < 4)%nat -> Uint32Array_of_bytes bs = [].
Proof.
  destruct bs as [|b0 [|b1 [|b2 [|b3 rest]]]]; try done. cbn. lia.
Qed.

Lemma Uint32Array_of_bytes_length bs :
  length (Uint32Array_of_bytes bs) = (length bs / 4)%nat.
Proof.
  induction bs as [bs Hs|b0 b1 b2 b3 rest IH] using pixels_ind.
  - rewrite Uint32Array_of_bytes_short by done. by rewrite Nat.div_small.
  - cbn [Uint32Array_of_bytes length]. rewrite IH.
    change (S (S (S (S (length rest))))) with (4 + length rest)%nat.
    apply Nat.div_unique with (length rest mod 4)%nat.
    + apply Nat.mod_upper_bound. lia.
    + pose proof (Nat.div_mod_eq (length rest) 4). lia.
Qed.

(** X6: the word view and the byte view of a decoded buffer agree: there is
    one word for every whole group of four bytes, every word is a 32-bit
    value, and byte [i] of the word view is byte [i] of the buffer (lowest byte
    first), so that bytes 0 to 3 of a pixel are its red, green, blue and alpha
    samples. *)
Theorem byte_view_of_word_view (bs : list byte) :
  length (Uint32Array_of_bytes bs) = (length bs / 4)%nat
  /\ (forall k word, Uint32Array_of_bytes bs !! k = Some word -> 0 <= word < 2 ^ 32)
  /\ (forall i b, bs !! i = Some b -> (i < 4 * (length bs / 4))%nat ->
        get8 (Uint32Array_of_bytes bs) i = Z.of_N (Byte.to_N b)).
Proof.
  split; [apply Uint32Array_of_bytes_length |].
  induction bs as [bs Hs|b0 b1 b2 b3 rest [IHw IHb]] using pixels_ind.
  - rewrite Uint32Array_of_bytes_short by done. split; [done |].
    intros i b _ Hi. rewrite Nat.div_small in Hi by done. lia.
  - cbn [Uint32Array_of_bytes].
    destruct (byteOf_packed _ _ _ _ (byte_range b0) (byte_range b1) (byte_range b2)
                (byte_range b3)) as (E0 & E1 & E2 & E3 & Hr).
    split.
    + intros [|k] word; cbn; [intros [= <-]; exact Hr | apply IHw].
    + intros i b Hb Hi.
      destruct (decide (i < 4)%nat) as [Hlt|Hge].
      * unfold get8, get32. rewrite Nat.div_small by done. cbn [lookup list_lookup default].
        rewrite Nat.mod_small by done.
        destruct i as [|[|[|[|i]]]]; [| | | | lia]; cbn in Hb; injection Hb as <-; assumption.
      * replace i with (4 + (i - 4))%nat in Hb |- * by lia.
        cbn [lookup list_lookup Nat.add] in Hb.
        assert (Hg : get8 (Z.of_N (Byte.to_N b0) + Z.shiftl (Z.of_N (Byte.to_N b1)) 8
                            + Z.shiftl (Z.of_N (Byte.to_N b2)) 16
                            + Z.shiftl (Z.of_N (Byte.to_N b3)) 24
                            :: Uint32Array_of_bytes rest) (4 + (i - 4))
                     = get8 (Uint32Array_of_bytes rest) (i - 4)).
        { unfold get8, get32.
          replace ((4 + (i - 4)) / 4)%nat with (S ((i - 4) / 4)).
          2:{ apply Nat.div_unique with ((i - 4) mod 4)%nat.
              - apply Nat.mod_upper_bound. lia.
              - pose proof (Nat.div_mod_eq (i - 4) 4). lia. }
          replace ((4 + (i - 4)) mod 4)%nat with ((i - 4) mod 4)%nat.
          2:{ apply Nat.mod_unique with (S ((i - 4) / 4)).
              - apply Nat.mod_upper_bound. lia.
              - pose proof (Nat.div_mod_eq (i - 4) 4). lia. }
          reflexivity. }
        rewrite Hg. apply IHb; [done |].
        cbn [length] in Hi.
        assert (Hd : (S (S (S (S (length rest)))) / 4 = S (length rest / 4))%nat).
        { symmetry. apply Nat.div_unique with (length rest mod 4)%nat.
          - apply Nat.mod_upper_bound. lia.
          - pose proof (Nat.div_mod_eq (length rest) 4). lia. }
        rewrite Hd in Hi. lia.
Qed.

(** ** The count of mismatches *)

Lemma countColumns_upper p x n : countColumns p x n <= Z.of_nat n.
Proof.
  revert x. induction n as [|n IH]; intros x; cbn [countColumns]; [done |].
  specialize (IH (S x)). destruct (p x); lia.
Qed.

Lemma countColumns_all p x n :
  (forall x', (x <= x' < x + n)%nat -> p x' = true) -> countColumns p x n = Z.of_nat n.
Proof.
  revert x. induction n as [|n IH]; intros x H; cbn [countColumns]; [done |].
  rewrite (H x) by lia. rewrite IH; [lia |]. intros x' Hx'. apply H. lia.
Qed.

Lemma diffRows_count_upper T s a32 b32 n :
  baselineData32 s = Some a32 -> candidateData32 s = Some b32 ->
  forall y st,
    pristineFrom s y st -> (y + n <= height s)%nat ->
    mismatchedPixels (diffRows n T s y st)
    <= mismatchedPixels st + Z.of_nat n * Z.of_nat (width s).
Proof.
  intros Ha Hb. induction n as [|n IH]; intros y st Hp Hy; cbn [diffRows]; [lia |].
  destruct (diffRow_spec T s y st a32 b32 Ha Hb Hp ltac:(lia)) as (Hp' & _ & _ & Hm).
  specialize (IH (S y) (diffRow T s y st) Hp' ltac:(lia)).
  pose proof (countColumns_upper
                (fun x => isMismatch T (get32 (diffData32 (copyRows s y st)) (y * width s * 3 + x))
                            (get32 (diffData32 (copyRows s y st)) (y * width s * 3 + 2 * width s + x)))
                0 (width s)) as Hup.
  unfold countMismatches in Hm. nia.
Qed.

(** X7: with both images present and a comparison region that has pixels, the
    call returns a result whose count of mismatches lies between 0 and the
    number of pixels of the region; with a region of width or height 0 the
    canvas has no buffer and the call throws. *)
Theorem mismatchedPixels_bounds (MB MC : Z) (b c : ImageAndTestInformation)
    (path : string) (t : JsValue) :
  bothPresent b c ->
  let s := setupOf MB MC b c in
  ((0 < width s)%nat -> (0 < height s)%nat ->
   exists r,
     result <$> diffImages MB MC b c path t = Some (Some r)
     /\ 0 <= DiffResult.mismatchedPixels r <= Z.of_nat (width s * height s))
  /\ (width s = 0%nat \/ height s = 0%nat -> diffImages MB MC b c path t = None).
Proof.
  intros Hp s. pose proof Hp as (Hib & _).
  destruct (bothPresent_data MB MC b c Hp) as (a32 & b32 & Ha & Hb & Hm0 & _).
  split.
  - intros Hw Hh. eexists. split.
    { apply diffImages_result; [by left | by apply canvasAllocated_spec]. }
    cbn [DiffResult.mismatchedPixels]. unfold stateAtRow. split.
    + rewrite <- Hm0. apply (diffRows_count_le _ _ _ _ _ Ha Hb); [apply prepare_pristine | lia].
    + pose proof (diffRows_count_upper (Double.BRIGHTNESS_DIFFERENCE_THRESHOLD t) _ _ _
                    (height (setupOf MB MC b c)) Ha Hb 0 _ (prepare_pristine MB MC b c)
                    ltac:(unfold setupOf; lia)) as H.
      rewrite Hm0 in H. subst s. lia.
  - intros He. apply diffImages_empty; [by left | by apply canvasAllocated_false].
Qed.

Lemma mismatchedPixels_bounds_witness :
  (exists r,
     result <$> diffImages (-1) (-2) (fullFrame "baseline.png" black4x4)
                  (fullFrame "candidate.png" white4x4) "diff.png" (JsNum 0.03)
     = Some (Some r)
     /\ 0 <= DiffResult.mismatchedPixels r <= 16)
  /\ diffImages (-1) (-2)
       {| image := Some black4x4; info := Some (noWidth "shot") |}
       {| image := Some black4x4; info := Some (noWidth "shot") |}
       "diff.png" (JsNum 0.03) = None.
Proof.
  split.
  - apply (mismatchedPixels_bounds (-1) (-2) (fullFrame "baseline.png" black4x4)
             (fullFrame "candidate.png" white4x4) "diff.png" (JsNum 0.03)
             ltac:(by repeat split)); vm_compute; lia.
  - apply (mismatchedPixels_bounds (-1) (-2)
             {| image := Some black4x4; info := Some (noWidth "shot") |}
             {| image := Some black4x4; info := Some (noWidth "shot") |}
             "diff.png" (JsNum 0.03) ltac:(by repeat split)).
    by left.
Defined.

Lemma diffRows_count_all T s a32 b32 n :
  (T <= 0)%Q ->
  baselineData32 s = Some a32 -> candidateData32 s = Some b32 ->
  forall y st,
    pristineFrom s y st -> (y + n <= height s)%nat ->
    mismatchedPixels (diffRows n T s y st)
    = mismatchedPixels st + Z.of_nat n * Z.of_nat (width s).
Proof.
  intros HT Ha Hb. induction n as [|n IH]; intros y st Hp Hy; cbn [diffRows]; [lia |].
  destruct (diffRow_spec T s y st a32 b32 Ha Hb Hp ltac:(lia)) as (Hp' & _ & _ & Hm).
  rewrite (IH (S y) (diffRow T s y st) Hp' ltac:(lia)), Hm.
  unfold countMismatches. rewrite countColumns_all; [lia |].
  intros x _. by apply isMismatch_zero_threshold.
Qed.

(** X8: a threshold that is negative as a double is clamped to an effective
    threshold of 0, below which no brightness difference lies: with both
    images present and a region that has pixels, every pixel of the region is
    counted as a mismatch, equal pixels included. *)
Theorem negative_threshold_mismatches_everything (MB MC : Z)
    (b c : ImageAndTestInformation) (path : string) (q : Q) :
  bothPresent b c -> (round64 q < 0)%Q ->
  (0 < width (setupOf MB MC b c))%nat -> (0 < height (setupOf MB MC b c))%nat ->
  exists r,
    result <$> diffImages MB MC b c path (JsNum q) = Some (Some r)
    /\ DiffResult.mismatchedPixels r
       = Z.of_nat (width (setupOf MB MC b c) * height (setupOf MB MC b c)).
Proof.
  intros Hp Hq Hw Hh. pose proof Hp as (Hib & _).
  destruct (bothPresent_data MB MC b c Hp) as (a32 & b32 & Ha & Hb & Hm0 & _).
  eexists. split.
  { apply diffImages_result; [by left | by apply canvasAllocated_spec]. }
  cbn [DiffResult.mismatchedPixels]. unfold stateAtRow.
  rewrite (diffRows_count_all _ _ _ _ _ (threshold_negative_double q Hq) Ha Hb 0 _
             (prepare_pristine MB MC b c)) by (unfold setupOf; lia).
  rewrite Hm0. lia.
Qed.

Lemma negative_threshold_mismatches_everything_witness :
  exists r,
    result <$> diffImages (-1) (-2) (fullFrame "baseline.png" black4x4)
                 (fullFrame "candidate.png" black4x4) "diff.png" (JsNum (-1))
    = Some (Some r)
    /\ DiffResult.mismatchedPixels r = 16.
Proof.
  apply (negative_threshold_mismatches_everything (-1) (-2)
           (fullFrame "baseline.png" black4x4) (fullFrame "candidate.png" black4x4)
           "diff.png" (-1) ltac:(by repeat split)); vm_compute; (reflexivity || lia).
Defined.

(** ** The positional hash *)

Lemma prepare_hash MB MC b c :
  diffHash (prepare MB MC b c).2 = 0 /\ diffHashStartIndex (prepare MB MC b c).2 = 0.
Proof. unfold prepare. by destruct (image b), (info b), (image c), (info c). Qed.

Lemma prepare_data_count MB MC b c a32 b32 :
  baselineData32 (prepare MB MC b c).1 = Some a32 ->
  candidateData32 (prepare MB MC b c).1 = Some b32 ->
  mismatchedPixels (prepare MB MC b c).2 = 0.
Proof. unfold prepare. by destruct (image b), (info b), (image c), (info c). Qed.

(** The key of a row that is below [2^53] is exact. *)
Lemma rowKey_exact y :
  Z.of_nat y * DIFF_HASH_SPREAD <= 2 ^ 53 -> rowKey y = Z.of_nat y * DIFF_HASH_SPREAD.
Proof. intros H. apply round64Z_exact. unfold DIFF_HASH_SPREAD in *. lia. Qed.

(** A mismatch in the row that seeded the hash leaves it as it is. *)
Lemma hashStep_same_row key : hashStep key (DIFF_HASH_SPREAD, key) = (DIFF_HASH_SPREAD, key).
Proof. unfold hashStep. cbn [fst snd]. rewrite Z.sub_diag. reflexivity. Qed.

Lemma hashStep_iter_same_row key n :
  Nat.iter n (hashStep key) (DIFF_HASH_SPREAD, key) = (DIFF_HASH_SPREAD, key).
Proof. induction n as [|n IH]; [done |]. by rewrite Nat.iter_succ, IH, hashStep_same_row. Qed.

(** While the sum stays within [2^53], a mismatch adds to a hash that is not
    empty the distance of the key of its row from the start key. *)
Lemma hashStep_exact key hash start :
  hash <> 0 -> 0 <= hash -> 0 <= key - start -> hash + (key - start) <= 2 ^ 53 ->
  hashStep key (hash, start) = (hash + (key - start), start).
Proof.
  intros Hne H0 Hd Hs. unfold hashStep. cbn [fst snd].
  destruct (Z.eqb_spec hash 0); [done |].
  rewrite (round64Z_exact (key - start)) by lia.
  by rewrite round64Z_exact by lia.
Qed.

Lemma hashStep_iter_exact key start n : forall hash,
  hash <> 0 -> 0 <= hash -> 0 <= key - start ->
  hash + Z.of_nat n * (key - start) <= 2 ^ 53 ->
  Nat.iter n (hashStep key) (hash, start) = (hash + Z.of_nat n * (key - start), start).
Proof.
  induction n as [|n IH]; intros hash Hne H0 Hd Hs.
  - change (Nat.iter 0 (hashStep key) (hash, start)) with (hash, start). f_equal. lia.
  - rewrite Nat.iter_succ_r, hashStep_exact by nia.
    destruct (Z.eq_dec (key - start) 0) as [E|E].
    + rewrite IH by nia. f_equal. nia.
    + rewrite IH by nia. f_equal. nia.
Qed.

(** A mismatch keeps the hash a multiple of the spread or past [2^53], when
    the key and the start key are multiples of the spread. *)
Lemma hashStep_multiple key hash start :
  0 <= start <= key -> key <= 2 ^ 53 ->
  (DIFF_HASH_SPREAD | key) -> (DIFF_HASH_SPREAD | start) ->
  0 <= hash -> (DIFF_HASH_SPREAD | hash) \/ 2 ^ 53 <= hash ->
  let hs := hashStep key (hash, start) in
  0 <= hs.2 <= key /\ (DIFF_HASH_SPREAD | hs.2)
  /\ 0 <= hs.1 /\ ((DIFF_HASH_SPREAD | hs.1) \/ 2 ^ 53 <= hs.1).
Proof.
  intros Hs Hk Dk Ds H0 Hh. cbv zeta.
  destruct (Z.eq_dec hash 0) as [->|Hne].
  { rewrite hashStep_seed. cbn [fst snd]. unfold DIFF_HASH_SPREAD in *.
    repeat split; try lia; try done. left. apply Z.divide_refl. }
  unfold hashStep. cbn [fst snd]. destruct (Z.eqb_spec hash 0); [done |].
  rewrite (round64Z_exact (key - start)) by lia.
  split; [done |]. split; [done |].
  split; [apply round64Z_nonneg; lia |].
  destruct (Z.le_gt_cases (hash + (key - start)) (2 ^ 53)) as [Hle|Hgt].
  - rewrite round64Z_exact by lia.
    destruct Hh as [Hh|Hh]; [| right; lia].
    left. apply Z.divide_add_r; [done |]. by apply Z.divide_sub_r.
  - right. apply round64Z_large. lia.
Qed.

Lemma hashStep_iter_multiple key n : forall hash start,
  0 <= start <= key -> key <= 2 ^ 53 ->
  (DIFF_HASH_SPREAD | key) -> (DIFF_HASH_SPREAD | start) ->
  0 <= hash -> (DIFF_HASH_SPREAD | hash) \/ 2 ^ 53 <= hash ->
  let hs := Nat.iter n (hashStep key) (hash, start) in
  0 <= hs.2 <= key /\ (DIFF_HASH_SPREAD | hs.2)
  /\ 0 <= hs.1 /\ ((DIFF_HASH_SPREAD | hs.1) \/ 2 ^ 53 <= hs.1).
Proof.
  induction n as [|n IH]; intros hash start Hs Hk Dk Ds H0 Hh; cbv zeta.
  - change (Nat.iter 0 (hashStep key) (hash, start)) with (hash, start). done.
  - rewrite Nat.iter_succ.
    destruct (IH hash start Hs Hk Dk Ds H0 Hh) as (Hs' & Ds' & H0' & Hh').
    destruct (Nat.iter n (hashStep key) (hash, start)) as [h' s'] eqn:E.
    cbn [fst snd] in *. by apply hashStep_multiple.
Qed.

Lemma diffRows_hash_multiple T s a32 b32 n :
  baselineData32 s = Some a32 -> candidateData32 s = Some b32 ->
  forall y st,
    Z.of_nat (y + n) * DIFF_HASH_SPREAD <= 2 ^ 53 ->
    0 <= diffHashStartIndex st <= Z.of_nat y * DIFF_HASH_SPREAD ->
    (DIFF_HASH_SPREAD | diffHashStartIndex st) ->
    0 <= diffHash st -> (DIFF_HASH_SPREAD | diffHash st) \/ 2 ^ 53 <= diffHash st ->
    (DIFF_HASH_SPREAD | diffHash (diffRows n T s y st))
    \/ 2 ^ 53 <= diffHash (diffRows n T s y st).
Proof.
  intros Ha Hb. induction n as [|n IH]; intros y st Hy Hs Ds H0 Hh; cbn [diffRows]; [done |].
  assert (Hkey : rowKey y = Z.of_nat y * DIFF_HASH_SPREAD).
  { apply rowKey_exact. unfold DIFF_HASH_SPREAD in *. lia. }
  pose proof (diffRow_hash T s y st a32 b32 Ha Hb) as E. cbv zeta in E.
  pose proof (hashStep_iter_multiple (rowKey y)
                (Z.to_nat (countMismatches T (diffData32 (copyRows s y st))
                             (y * width s * 3) (width s) 0 (width s)))
                (diffHash st) (diffHashStartIndex st)) as H.
  cbv zeta in H. rewrite <- E in H. cbn [fst snd] in H. rewrite Hkey in H.
  destruct H as (Hs' & Ds' & H0' & Hh'); try done.
  { unfold DIFF_HASH_SPREAD in *. lia. }
  { apply Z.divide_factor_r. }
  apply IH; try done; unfold DIFF_HASH_SPREAD in *; lia.
Qed.

(** X9: as long as the keys of the rows are exact, that is, the height times
    the spread is at most [2^53], the hash a call returns is a multiple of the
    spread 0x1337 or has reached [2^53], the range where the additions of
    doubles round. *)
Theorem diffHash_multiple_of_spread (MB MC : Z) (b c : ImageAndTestInformation)
    (path : string) (t : JsValue) (out : Outcome) :
  Z.of_nat (height (setupOf MB MC b c)) * DIFF_HASH_SPREAD <= 2 ^ 53 ->
  diffImages MB MC b c path t = Some out ->
  match result out with
  | Some r => (DIFF_HASH_SPREAD | DiffResult.diffHash r) \/ 2 ^ 53 <= DiffResult.diffHash r
  | None => True
  end.
Proof.
  intros Hh Hout.
  destruct (diffImages_resolved MB MC b c _ _ out Hout) as [(_ & _ & ->)|(_ & _ & E)];
    [done |].
  rewrite E in Hout. cbv zeta in Hout. injection Hout as <-.
  cbn [result DiffResult.diffHash].
  destruct (prepare_hash MB MC b c) as [Hh0 Hs0].
  destruct (baselineData32 (prepare MB MC b c).1) as [a32|] eqn:Ea;
    [destruct (candidateData32 (prepare MB MC b c).1) as [b32|] eqn:Ec |].
  2, 3: destruct (diffRows_missing (Double.BRIGHTNESS_DIFFERENCE_THRESHOLD t)
                   (prepare MB MC b c).1 (height (prepare MB MC b c).1) 0
                   (prepare MB MC b c).2 ltac:(auto)) as [_ ->];
    rewrite Hh0; left; apply Z.divide_0_r.
  apply (diffRows_hash_multiple _ _ a32 b32); try done.
  - rewrite Hs0. lia.
  - rewrite Hs0. apply Z.divide_0_r.
  - rewrite Hh0. lia.
  - rewrite Hh0. left. apply Z.divide_0_r.
Qed.

Lemma diffHash_multiple_of_spread_witness :
  diffImages (-1) (-2) (fullFrame "baseline.png" black4x4)
    (fullFrame "candidate.png" white4x4) "diff.png" (JsNum 0.03)
  <> None
  /\ (result <$> diffImages (-1) (-2) (fullFrame "baseline.png" black4x4)
                   (fullFrame "candidate.png" white4x4) "diff.png" (JsNum 0.03))
     = Some (Some (DiffResult.mk 16 (25 * DIFF_HASH_SPREAD)))
  /\ forall out,
       diffImages (-1) (-2) (fullFrame "baseline.png" black4x4)
         (fullFrame "candidate.png" white4x4) "diff.png" (JsNum 0.03) = Some out ->
       match result out with
       | Some r =>
           (DIFF_HASH_SPREAD | DiffResult.diffHash r) \/ 2 ^ 53 <= DiffResult.diffHash r
       | None => True
       end.
Proof.
  split; [vm_compute; discriminate |]. split; [vm_compute; reflexivity |].
  intros out.
  apply (diffHash_multiple_of_spread (-1) (-2) (fullFrame "baseline.png" black4x4)
           (fullFrame "candidate.png" white4x4) "diff.png" (JsNum 0.03) out).
  vm_compute. discriminate.
Defined.

(** One row of a comparison of two present images: the count it adds, and what
    it does to the hash and to the start key. *)
Lemma stateAtRow_step MB MC b c t y :
  bothPresent b c -> (y < height (setupOf MB MC b c))%nat ->
  let st := stateAtRow MB MC b c t y in
  let st' := stateAtRow MB MC b c t (S y) in
  let k := mismatchedPixels st' - mismatchedPixels st in
  0 <= k
  /\ (diffHash st', diffHashStartIndex st')
     = Nat.iter (Z.to_nat k) (hashStep (rowKey y)) (diffHash st, diffHashStartIndex st).
Proof.
  intros Hp Hy st st' k.
  destruct (bothPresent_data MB MC b c Hp) as (a32 & b32 & Ha & Hb & _).
  pose proof (diffRow_hash (Double.BRIGHTNESS_DIFFERENCE_THRESHOLD t) _ y
                (stateAtRow MB MC b c t y) a32 b32 Ha Hb) as E.
  destruct (diffRow_spec (Double.BRIGHTNESS_DIFFERENCE_THRESHOLD t) (setupOf MB MC b c) y
              (stateAtRow MB MC b c t y) a32 b32 Ha Hb
              (stateAtRow_pristine MB MC b c t y ltac:(lia)) Hy) as (_ & _ & _ & Hm).
  cbv zeta in E. rewrite <- stateAtRow_succ in E, Hm. fold st st' in E, Hm.
  assert (Hk : countMismatches (Double.BRIGHTNESS_DIFFERENCE_THRESHOLD t)
                 (diffData32 (copyRows (setupOf MB MC b c) y st))
                 (y * width (setupOf MB MC b c) * 3) (width (setupOf MB MC b c)) 0
                 (width (setupOf MB MC b c)) = k) by (subst k; lia).
  rewrite Hk in E. split; [| done].
  rewrite <- Hk. apply countColumns_nonneg.
Qed.

(** X10: when all the mismatches of a comparison of two present images lie in
    one row, the hash is the spread, however many they are and whatever their
    columns and their row. *)
Theorem mismatches_in_one_row_hash (MB MC : Z) (b c : ImageAndTestInformation)
    (path : string) (t : JsValue) (y0 : nat) :
  bothPresent b c -> (y0 < height (setupOf MB MC b c))%nat ->
  (forall y, (y < height (setupOf MB MC b c))%nat -> y <> y0 ->
     mismatchedPixels (stateAtRow MB MC b c t (S y))
     = mismatchedPixels (stateAtRow MB MC b c t y)) ->
  mismatchedPixels (stateAtRow MB MC b c t (S y0))
  <> mismatchedPixels (stateAtRow MB MC b c t y0) ->
  exists r,
    result <$> diffImages MB MC b c path t = Some (Some r)
    /\ DiffResult.diffHash r = DIFF_HASH_SPREAD.
Proof.
  intros Hp Hy0 Hothers Hrow. pose proof Hp as (Hib & _).
  destruct (bothPresent_data MB MC b c Hp) as (a32 & b32 & Ha & Hb & _ & Hh0 & _).
  assert (Hw : (0 < width (setupOf MB MC b c))%nat).
  { destruct (Nat.eq_dec (width (setupOf MB MC b c)) 0%nat) as [E|E]; [| lia].
    exfalso. apply Hrow.
    rewrite (stateAtRow_count MB MC b c t y0 Hp Hy0), E. cbn [countColumns]. lia. }
  eexists. split.
  { apply diffImages_result; [by left |]. apply canvasAllocated_spec. lia. }
  cbn [DiffResult.diffHash].
  assert (Hbefore : forall y, (y <= y0)%nat -> diffHash (stateAtRow MB MC b c t y) = 0).
  { induction y as [|y IH]; intros Hy; [exact Hh0 |].
    destruct (stateAtRow_step MB MC b c t y Hp ltac:(lia)) as (_ & E). cbv zeta in E.
    rewrite (Hothers y), Z.sub_diag in E by lia. change (Nat.iter (Z.to_nat 0) ?f ?x) with x in E.
    injection E as -> _. apply IH. lia. }
  assert (Hafter : forall n, (y0 + 1 + n <= height (setupOf MB MC b c))%nat ->
                     diffHash (stateAtRow MB MC b c t (y0 + 1 + n)) = DIFF_HASH_SPREAD).
  { induction n as [|n IH]; intros Hn.
    - replace (y0 + 1 + 0)%nat with (S y0) by lia.
      destruct (stateAtRow_step MB MC b c t y0 Hp Hy0) as (Hk & E). cbv zeta in E, Hk.
      rewrite (Hbefore y0) in E by lia.
      destruct (Z.to_nat (mismatchedPixels (stateAtRow MB MC b c t (S y0))
                          - mismatchedPixels (stateAtRow MB MC b c t y0))) as [|k] eqn:Ek;
        [lia |].
      rewrite Nat.iter_succ_r, hashStep_seed, hashStep_iter_same_row in E.
      by injection E as -> _.
    - replace (y0 + 1 + S n)%nat with (S (y0 + 1 + n)) by lia.
      destruct (stateAtRow_step MB MC b c t (y0 + 1 + n) Hp ltac:(lia)) as (_ & E).
      cbv zeta in E. rewrite (Hothers (y0 + 1 + n)%nat), Z.sub_diag in E by lia.
      change (Nat.iter (Z.to_nat 0) ?f ?x) with x in E. injection E as -> _. apply IH. lia. }
  replace (height (setupOf MB MC b c))
    with (y0 + 1 + (height (setupOf MB MC b c) - y0 - 1))%nat at 1 by lia.
  apply Hafter. lia.
Qed.

Lemma mismatches_in_one_row_hash_witness :
  exists r,
    result <$> diffImages (-1) (-2) (fullFrame "baseline.png" black2x1)
                 (fullFrame "candidate.png" white2x1) "diff.png" (JsNum 0.03)
    = Some (Some r)
    /\ DiffResult.diffHash r = DIFF_HASH_SPREAD.
Proof.
  apply (mismatches_in_one_row_hash (-1) (-2) (fullFrame "baseline.png" black2x1)
           (fullFrame "candidate.png" white2x1) "diff.png" (JsNum 0.03) 0).
  - by repeat split.
  - vm_compute. lia.
  - intros y Hy Hne. vm_compute in Hy. lia.
  - vm_compute. discriminate.
Defined.

(** X11: how a row of a comparison of two present images changes the hash: it
    adds a count [k >= 0] of mismatches, and the hash and the start key are
    updated [k] times with the key of the row, the columns of the mismatches
    taking no part.  While the key [y * DIFF_HASH_SPREAD] and the sum stay
    within [2^53], where doubles are exact: if [k] is 0 the hash and the start
    key stay; if the hash was 0 it becomes the spread and the start key the key
    of the row; otherwise the hash grows by [k] times the distance of the row
    key from the start key. *)
Theorem hash_row_update (MB MC : Z) (b c : ImageAndTestInformation) (t : JsValue)
    (y : nat) :
  bothPresent b c -> (y < height (setupOf MB MC b c))%nat ->
  let st := stateAtRow MB MC b c t y in
  let st' := stateAtRow MB MC b c t (S y) in
  let k := mismatchedPixels st' - mismatchedPixels st in
  0 <= k
  /\ (diffHash st', diffHashStartIndex st')
     = Nat.iter (Z.to_nat k) (hashStep (rowKey y)) (diffHash st, diffHashStartIndex st)
  /\ (Z.of_nat y * DIFF_HASH_SPREAD <= 2 ^ 53 ->
      diffHash st + k * (Z.of_nat y * DIFF_HASH_SPREAD - diffHashStartIndex st) <= 2 ^ 53 ->
      diffHash st'
      = (if k =? 0 then diffHash st
         else if diffHash st =? 0 then DIFF_HASH_SPREAD
              else diffHash st
                   + k * (Z.of_nat y * DIFF_HASH_SPREAD - diffHashStartIndex st))
      /\ diffHashStartIndex st'
         = (if negb (k =? 0) && (diffHash st =? 0)
            then Z.of_nat y * DIFF_HASH_SPREAD else diffHashStartIndex st)).
Proof.
  intros Hp Hy st st' k.
  destruct (stateAtRow_step MB MC b c t y Hp Hy) as [Hk E]. cbv zeta in Hk, E.
  fold st st' k in Hk, E.
  split; [done |]. split; [done |]. intros Hkey Hsum.
  pose proof (stateAtRow_hashInv MB MC b c t y Hp) as Hinv. fold st in Hinv.
  rewrite (rowKey_exact y Hkey) in E, Hinv.
  destruct (Z.eqb_spec k 0) as [Ek|Ek].
  { rewrite Ek in E. change (Nat.iter (Z.to_nat 0) ?f ?x) with x in E.
    by injection E as -> ->. }
  destruct (Z.eqb_spec (diffHash st) 0) as [Eh|Eh]; cbn [negb andb].
  - destruct (Z.to_nat k) as [|n] eqn:En; [lia |].
    assert (Hpair : (diffHash st, diffHashStartIndex st) = (0, diffHashStartIndex st))
      by (by rewrite Eh).
    rewrite Hpair, Nat.iter_succ_r, hashStep_seed, hashStep_iter_same_row in E.
    by injection E as -> ->.
  - destruct Hinv as [[_ H0]|(_ & Hh & Hs)]; [done |].
    rewrite hashStep_iter_exact in E.
    + rewrite Z2Nat.id in E by done. by injection E as -> ->.
    + done.
    + unfold DIFF_HASH_SPREAD in Hh. lia.
    + lia.
    + by rewrite Z2Nat.id.
Qed.

Lemma hash_row_update_witness :
  let st := stateAtRow (-1) (-2) (fullFrame "baseline.png" black4x4)
              (fullFrame "candidate.png" white4x4) (JsNum 0.03) 1 in
  let st' := stateAtRow (-1) (-2) (fullFrame "baseline.png" black4x4)
               (fullFrame "candidate.png" white4x4) (JsNum 0.03) 2 in
  mismatchedPixels st' - mismatchedPixels st = 4
  /\ diffHash st = DIFF_HASH_SPREAD
  /\ diffHashStartIndex st = 0
  /\ diffHash st' = DIFF_HASH_SPREAD + 4 * (1 * DIFF_HASH_SPREAD - 0).
Proof.
  destruct (hash_row_update (-1) (-2) (fullFrame "baseline.png" black4x4)
              (fullFrame "candidate.png" white4x4) (JsNum 0.03) 1
              ltac:(by repeat split) ltac:(vm_compute; lia)) as (_ & _ & H).
  destruct H as [H _]; [vm_compute; discriminate | vm_compute; discriminate |].
  split; [vm_compute; reflexivity |]. split; [vm_compute; reflexivity |].
  split; [vm_compute; reflexivity |].
  rewrite H. vm_compute. reflexivity.
Defined.

(** ** Exchanging the two images *)

Lemma pixelBrightness_sym b c : pixelBrightness b c = pixelBrightness c b.
Proof.
  unfold pixelBrightness. rewrite (Z.eqb_sym c b). destruct (b =? c); [done |].
  by rewrite (weighted_sym _ (byteOf b 1)), (weighted_sym _ (byteOf b 2)),
    (weighted_sym _ (byteOf b 3)).
Qed.

Lemma isMismatch_sym T b c : isMismatch T b c = isMismatch T c b.
Proof. unfold isMismatch. by rewrite pixelBrightness_sym. Qed.

Lemma diffRows_swap T s1 s2 a32 b32 n :
  width s1 = width s2 -> height s1 = height s2 ->
  baselineData32 s1 = Some a32 -> candidateData32 s1 = Some b32 ->
  baselineData32 s2 = Some b32 -> candidateData32 s2 = Some a32 ->
  baselineOffsetIncrement32 s1 = candidateOffsetIncrement32 s2 ->
  candidateOffsetIncrement32 s1 = baselineOffsetIncrement32 s2 ->
  forall y st1 st2,
    pristineFrom s1 y st1 -> pristineFrom s2 y st2 -> (y + n <= height s1)%nat ->
        baselineOffset32 st1 = candidateOffset32 st2 ->
    candidateOffset32 st1 = baselineOffset32 st2 ->
    mismatchedPixels st1 = mismatchedPixels st2 ->
    diffHash st1 = diffHash st2 ->
    diffHashStartIndex st1 = diffHashStartIndex st2 ->
    mismatchedPixels (diffRows n T s1 y st1) = mismatchedPixels (diffRows n T s2 y st2)
    /\ diffHash (diffRows n T s1 y st1) = diffHash (diffRows n T s2 y st2).
Proof.
  intros Hw Hh Ha1 Hb1 Ha2 Hb2 Hi1 Hi2.
  induction n as [|n IH]; intros y st1 st2 Hp1 Hp2 Hy Ho1 Ho2 Hm Hhash Hstart;
    cbn [diffRows]; [done |].
  destruct (diffRow_spec T s1 y st1 _ _ Ha1 Hb1 Hp1 ltac:(lia)) as (Hp1' & Hbo1 & Hco1 & Hm1).
  destruct (diffRow_spec T s2 y st2 _ _ Ha2 Hb2 Hp2 ltac:(lia)) as (Hp2' & Hbo2 & Hco2 & Hm2).
  destruct (copyRows_spec s1 y st1 Hp1 ltac:(lia)) as (_ & _ & Hs1 & Hcb1 & Hcc1 & _).
  destruct (copyRows_spec s2 y st2 Hp2 ltac:(lia)) as (_ & _ & Hs2 & Hcb2 & Hcc2 & _).
  pose proof (diffRow_hash T s1 y st1 _ _ Ha1 Hb1) as E1.
  pose proof (diffRow_hash T s2 y st2 _ _ Ha2 Hb2) as E2.
  cbv zeta in E1, E2.
  assert (Hk : countMismatches T (diffData32 (copyRows s1 y st1)) (y * width s1 * 3)
                 (width s1) 0 (width s1)
               = countMismatches T (diffData32 (copyRows s2 y st2)) (y * width s2 * 3)
                   (width s2) 0 (width s2)).
  { rewrite <- Hw. apply countColumns_ext. intros x Hx.
    destruct (Hs1 x ltac:(lia)) as [-> ->].
    destruct (Hs2 x ltac:(lia)) as [F1 F2]. rewrite <- Hw in F1, F2. rewrite F1, F2.
    rewrite Ha1, Hb1, Ha2, Hb2, Ho1, Ho2. apply isMismatch_sym. }
  rewrite Hk, Hhash, Hstart, <- E2 in E1. injection E1 as Eh Es.
  apply IH.
  - exact Hp1'.
  - exact Hp2'.
  - lia.
  - rewrite Hbo1, Hco2, Hcb1, Hcc2, Ha1, Hb2, Ho1, Hi1, Hw. done.
  - rewrite Hco1, Hbo2, Hcc1, Hcb2, Hb1, Ha2, Ho2, Hi2, Hw. done.
  - rewrite Hm1, Hm2, Hk, Hm. done.
  - exact Eh.
  - exact Es.
Qed.

(** X12: with both images present, exchanging the baseline and the candidate
    changes nothing in the result: the same count of mismatches and the same
    hash, or a call that throws either way when the region has no pixels. *)
Theorem exchange_keeps_count_and_hash (MB MC : Z) (b c : ImageAndTestInformation)
    (path : string) (t : JsValue) :
  bothPresent b c ->
  result <$> diffImages MB MC b c path t = result <$> diffImages MB MC c b path t.
Proof.
  intros Hp. pose proof Hp as (Hib & Hfb & Hic & Hfc).
  destruct (image b) as [ib|] eqn:E1; [| done]. destruct (info b) as [fb|] eqn:E2; [| done].
  destruct (image c) as [ic|] eqn:E3; [| done]. destruct (info c) as [fc|] eqn:E4; [| done].
  pose proof (prepare_both MB MC b c ib fb ic fc E1 E2 E3 E4) as P1.
  pose proof (prepare_both MB MC c b ic fc ib fb E3 E4 E1 E2) as P2.
  cbv zeta in P1, P2.
  assert (Hw : width (setupOf MB MC c b) = width (setupOf MB MC b c)).
  { unfold setupOf. rewrite P1, P2. cbn. apply Nat.max_comm. }
  assert (Hh : height (setupOf MB MC c b) = height (setupOf MB MC b c)).
  { unfold setupOf. rewrite P1, P2. cbn. apply Nat.max_comm. }
  destruct (canvasAllocated (setupOf MB MC b c)) eqn:Ecanvas.
  - assert (Ecanvas' : canvasAllocated (setupOf MB MC c b) = true).
    { apply canvasAllocated_spec in Ecanvas. apply canvasAllocated_spec. lia. }
    rewrite !diffImages_result by ((left; congruence) || done).
    unfold stateAtRow. rewrite <- Hh.
    destruct (diffRows_swap (Double.BRIGHTNESS_DIFFERENCE_THRESHOLD t) (setupOf MB MC c b)
                (setupOf MB MC b c) (Uint32Array_of_bytes (Image.data ic))
                (Uint32Array_of_bytes (Image.data ib)) (height (setupOf MB MC c b)) Hw Hh)
      with (y := 0%nat) (st1 := (prepare MB MC c b).2) (st2 := (prepare MB MC b c).2)
      as [-> ->]; try done;
      try apply prepare_pristine;
      try (unfold setupOf; rewrite ?P1, ?P2; done).
  - assert (Ecanvas' : canvasAllocated (setupOf MB MC c b) = false).
    { apply canvasAllocated_false in Ecanvas. apply canvasAllocated_false. lia. }
    by rewrite !diffImages_empty by ((left; congruence) || done).
Qed.

Lemma exchange_keeps_count_and_hash_witness :
  result <$> diffImages (-1) (-2) (fullFrame "baseline.png" black4x4)
               (fullFrame "candidate.png" white4x4) "diff.png" (JsNum 0.03)
  = Some (Some (DiffResult.mk 16 122975))
  /\ result <$> diffImages (-1) (-2) (fullFrame "candidate.png" white4x4)
                  (fullFrame "baseline.png" black4x4) "diff.png" (JsNum 0.03)
     = Some (Some (DiffResult.mk 16 122975)).
Proof.
  split; [vm_compute; reflexivity |].
  rewrite <- (exchange_keeps_count_and_hash (-1) (-2) (fullFrame "baseline.png" black4x4)
                (fullFrame "candidate.png" white4x4) "diff.png" (JsNum 0.03)
                ltac:(by repeat split)).
  vm_compute. reflexivity.
Defined.

(** ** The canvas *)

Lemma foldl_length {B} (f : list Z -> B -> list Z) (l : list B) :
  (forall d a, length (f d a) = length d) ->
  forall d, length (foldl f d l) = length d.
Proof.
  intros H. induction l as [|a l IH]; intros d; cbn [foldl]; [done |].
  by rewrite IH, H.
Qed.

Lemma tintPixel_length d i : length (tintPixel d i) = length d.
Proof. unfold tintPixel. destruct (negb _); [apply length_insert | done]. Qed.

Lemma lowResOverlay_length s lowRes d : length (lowResOverlay s lowRes d) = length d.
Proof.
  unfold lowResOverlay.
  apply foldl_length. intros d1 lowResY.
  apply foldl_length. intros d2 lowResX.
  destruct (0 <? _); [| done].
  apply foldl_length. intros d3 y.
  apply foldl_length. intros d4 x. apply tintPixel_length.
Qed.

(** X13: whenever a diff file is written, it goes to the requested path and
    its canvas is three times as wide as the comparison region, as high as it,
    and holds exactly width times height pixels. *)
Theorem written_canvas_size (MB MC : Z) (b c : ImageAndTestInformation)
    (path p : string) (t : JsValue) (png : PNG.t) :
  written <$> diffImages MB MC b c path t = Some (Some (p, png)) ->
  p = path
  /\ PNG.width png = (width (setupOf MB MC b c) * 3)%nat
  /\ PNG.height png = height (setupOf MB MC b c)
  /\ length (PNG.data png) = (PNG.width png * PNG.height png)%nat.
Proof.
  intros H.
  destruct (diffImages MB MC b c path t) as [out|] eqn:Eout; [| done].
  destruct (diffImages_resolved MB MC b c _ _ out Eout) as [(_ & _ & ->)|(_ & _ & E)];
    [done |].
  rewrite E in Eout. cbv zeta in Eout. injection Eout as <-.
  cbn [fmap option_fmap option_map written] in H.
  destruct (negb _); [| done]. injection H as <- <-. cbn [PNG.width PNG.height PNG.data].
  repeat split.
  destruct (stateAtRow_pristine MB MC b c t (height (setupOf MB MC b c)) ltac:(lia))
    as [Hlen _].
  unfold stateAtRow, setupOf in Hlen.
  destruct (baselineData32 _); [destruct (candidateData32 _) |]; try exact Hlen.
  destruct (0 <? _); [| exact Hlen]. by rewrite lowResOverlay_length.
Qed.

Lemma written_canvas_size_witness :
  exists png,
    written <$> diffImages (-1) (-2) (fullFrame "baseline.png" black2x1)
                  (fullFrame "candidate.png" white2x1) "diff.png" (JsNum 0.03)
    = Some (Some ("diff.png"%string, png))
    /\ PNG.width png = 6%nat /\ PNG.height png = 1%nat
    /\ length (PNG.data png) = (PNG.width png * PNG.height png)%nat.
Proof.
  assert (H : exists png,
             written <$> diffImages (-1) (-2) (fullFrame "baseline.png" black2x1)
                           (fullFrame "candidate.png" white2x1) "diff.png" (JsNum 0.03)
             = Some (Some ("diff.png"%string, png))).
  { eexists. vm_compute. reflexivity. }
  destruct H as [png H]. exists png. split; [exact H |].
  destruct (written_canvas_size (-1) (-2) (fullFrame "baseline.png" black2x1)
              (fullFrame "candidate.png" white2x1) "diff.png" "diff.png" (JsNum 0.03)
              png H) as (_ & Hw & Hh & Hl).
  rewrite Hl, Hw, Hh. clear. vm_compute. repeat split; reflexivity.
Defined.

(** ** The row copies *)

Lemma copyRows_offsets s y st :
  baselineOffset32 (copyRows s y st)
  = (if copyGuard (baselineData32 s) (baselineOffset32 st) (width s)
     then baselineOffset32 st + baselineOffsetIncrement32 s else baselineOffset32 st)%nat
  /\ candidateOffset32 (copyRows s y st)
     = (if copyGuard (candidateData32 s) (candidateOffset32 st) (width s)
        then candidateOffset32 st + candidateOffsetIncrement32 s else candidateOffset32 st)%nat.
Proof.
  unfold copyRows, copyRow, copyGuard.
  destruct (baselineData32 s) as [a32|], (candidateData32 s) as [b32|];
    repeat (match goal with |- context [if ?g then _ else _] => destruct g end); done.
Qed.

Lemma diffRow_offsets T s y st :
  baselineOffset32 (diffRow T s y st) = baselineOffset32 (copyRows s y st)
  /\ candidateOffset32 (diffRow T s y st) = candidateOffset32 (copyRows s y st).
Proof.
  unfold diffRow.
  destruct (baselineData32 s); [| done]. destruct (candidateData32 s); [| done].
  destruct (diffPixels_spec (width s) T (y * width s * 3) (width s) (lowResScale s) 0 y
              (rowKey y) (rowCursor s y) (copyRows s y st) ltac:(lia)
              (cursorAt_rowCursor s y)) as (_ & _ & Hb & Hc & _).
  done.
Qed.

Lemma stateAtRow_offsets MB MC b c t y :
  let s := setupOf MB MC b c in
  let st := stateAtRow MB MC b c t y in
  baselineOffset32 (stateAtRow MB MC b c t (S y))
  = (if copyGuard (baselineData32 s) (baselineOffset32 st) (width s)
     then baselineOffset32 st + baselineOffsetIncrement32 s else baselineOffset32 st)%nat
  /\ candidateOffset32 (stateAtRow MB MC b c t (S y))
     = (if copyGuard (candidateData32 s) (candidateOffset32 st) (width s)
        then candidateOffset32 st + candidateOffsetIncrement32 s else candidateOffset32 st)%nat.
Proof.
  intros s st. rewrite stateAtRow_succ. fold s st.
  destruct (diffRow_offsets (Double.BRIGHTNESS_DIFFERENCE_THRESHOLD t) s y st) as [-> ->].
  apply copyRows_offsets.
Qed.

(** Row by row, an offset is its first value plus one increment per row, or
    its guard has failed. *)
Lemma offsets_by_row MB MC b c t y :
  let s := setupOf MB MC b c in
  let st := stateAtRow MB MC b c t y in
  (baselineOffset32 st
   = (baselineOffset32 (prepare MB MC b c).2 + y * baselineOffsetIncrement32 s)%nat
   \/ copyGuard (baselineData32 s) (baselineOffset32 st) (width s) = false)
  /\ (candidateOffset32 st
      = (candidateOffset32 (prepare MB MC b c).2 + y * candidateOffsetIncrement32 s)%nat
      \/ copyGuard (candidateData32 s) (candidateOffset32 st) (width s) = false).
Proof.
  cbv zeta. induction y as [|y [IHb IHc]].
  - split; left; unfold stateAtRow; cbn [diffRows]; lia.
  - destruct (stateAtRow_offsets MB MC b c t y) as [Eb Ec]. cbv zeta in Eb, Ec.
    rewrite Eb, Ec. split.
    + destruct (copyGuard (baselineData32 _) (baselineOffset32 (stateAtRow MB MC b c t y)) _)
        eqn:G; [| by right].
      destruct IHb as [->|]; [left; lia | congruence].
    + destruct (copyGuard (candidateData32 _) (candidateOffset32 (stateAtRow MB MC b c t y)) _)
        eqn:G; [| by right].
      destruct IHc as [->|]; [left; lia | congruence].
Qed.

(** X14: in a row [y] of the region whose copy guard holds, the canvas cell at
    column [x] of a side panel, once the row is copied, holds the word of the
    source buffer at index [(viewport.y + y) * image.width + viewport.x + x];
    as long as [viewport.x + x] is within the width of the image, that is the
    pixel of the image at row [viewport.y + y], column [viewport.x + x]. *)
Theorem copied_pixel_is_viewport_pixel (MB MC : Z) (b c : ImageAndTestInformation)
    (t : JsValue) (x y : nat) :
  let s := setupOf MB MC b c in
  let st := stateAtRow MB MC b c t y in
  (x < width s)%nat -> (y < height s)%nat ->
  (forall ib fb, image b = Some ib -> info b = Some fb ->
     copyGuard (baselineData32 s) (baselineOffset32 st) (width s) = true ->
     (Viewport.x (TestInformation.viewport fb) + x < Image.width ib)%nat ->
     get32 (diffData32 (copyRows s y st)) (y * width s * 3 + x)
     = get32 (Uint32Array_of_bytes (Image.data ib))
         ((Viewport.y (TestInformation.viewport fb) + y) * Image.width ib
          + (Viewport.x (TestInformation.viewport fb) + x)))
  /\ (forall ic fc, image c = Some ic -> info c = Some fc ->
        copyGuard (candidateData32 s) (candidateOffset32 st) (width s) = true ->
        (Viewport.x (TestInformation.viewport fc) + x < Image.width ic)%nat ->
        get32 (diffData32 (copyRows s y st)) (y * width s * 3 + 2 * width s + x)
        = get32 (Uint32Array_of_bytes (Image.data ic))
            ((Viewport.y (TestInformation.viewport fc) + y) * Image.width ic
             + (Viewport.x (TestInformation.viewport fc) + x))).
Proof.
  intros s st Hx Hy.
  destruct (offsets_by_row MB MC b c t y) as [Hb Hc]. cbv zeta in Hb, Hc.
  fold s st in Hb, Hc.
  destruct (copyRows_spec s y st (stateAtRow_pristine MB MC b c t y (Nat.lt_le_incl _ _ Hy))
              Hy) as (_ & _ & Hside & _).
  destruct (Hside x Hx) as [-> ->]. split.
  - intros ib fb Hi Hf G _. unfold sourcePixel. rewrite G.
    destruct Hb as [->|]; [| congruence].
    subst s. unfold setupOf, prepare. rewrite Hi, Hf.
    destruct (image c), (info c); cbn; f_equal; lia.
  - intros ic fc Hi Hf G _. unfold sourcePixel. rewrite G.
    destruct Hc as [->|]; [| congruence].
    subst s. unfold setupOf, prepare. rewrite Hi, Hf.
    destruct (image b), (info b); cbn; f_equal; lia.
Qed.

Lemma copied_pixel_is_viewport_pixel_witness :
  let b := {| image := Some black4x4;
              info := Some (TestInformation.mk "baseline.png" (Viewport.mk 1 1 2 2 1)) |} in
  let c := {| image := Some white4x4;
              info := Some (TestInformation.mk "candidate.png" (Viewport.mk 1 1 2 2 1)) |} in
  let s := setupOf (-1) (-2) b c in
  let st := stateAtRow (-1) (-2) b c (JsNum 0.03) 1 in
  copyGuard (baselineData32 s) (baselineOffset32 st) (width s) = true
  /\ get32 (diffData32 (copyRows s 1 st)) (1 * width s * 3 + 1)
     = get32 (Uint32Array_of_bytes (Image.data black4x4)) ((1 + 1) * 4 + (1 + 1)).
Proof.
  split; [vm_compute; reflexivity |].
  apply (proj1 (copied_pixel_is_viewport_pixel (-1) (-2)
                  {| image := Some black4x4;
                     info := Some (TestInformation.mk "baseline.png"
                                     (Viewport.mk 1 1 2 2 1)) |}
                  {| image := Some white4x4;
                     info := Some (TestInformation.mk "candidate.png"
                                     (Viewport.mk 1 1 2 2 1)) |}
                  (JsNum 0.03) 1 1 ltac:(vm_compute; lia) ltac:(vm_compute; lia))
           black4x4 (TestInformation.mk "baseline.png" (Viewport.mk 1 1 2 2 1))
           eq_refl eq_refl);
    vm_compute; (reflexivity || lia).
Defined.



(** ** Bits of the stored words *)

Lemma ToInt32_mod v : ToInt32 v mod 2 ^ 32 = v mod 2 ^ 32.
Proof.
  unfold ToInt32. rewrite Zminus_mod_idemp_l. f_equal. lia.
Qed.

Lemma testbit_ToInt32 v k : 0 <= k < 32 -> Z.testbit (ToInt32 v) k = Z.testbit v k.
Proof.
  intros Hk.
  rewrite <- (Z.mod_pow2_bits_low (ToInt32 v) 32 k) by lia.
  rewrite ToInt32_mod. apply Z.mod_pow2_bits_low. lia.
Qed.

Lemma testbit_ToUint32 v k : 0 <= k < 32 -> Z.testbit (ToUint32 v) k = Z.testbit v k.
Proof. intros Hk. unfold ToUint32. apply Z.mod_pow2_bits_low. lia. Qed.

Lemma testbit_stored_or a m k :
  0 <= k < 32 ->
  Z.testbit (ToUint32 (js_or a m)) k = Z.testbit a k || Z.testbit m k.
Proof.
  intros Hk. unfold js_or.
  by rewrite testbit_ToUint32, Z.lor_spec, !testbit_ToInt32.
Qed.

Lemma testbit_js_and a m k :
  0 <= k < 32 -> Z.testbit (js_and a m) k = Z.testbit a k && Z.testbit m k.
Proof. intros Hk. unfold js_and. by rewrite Z.land_spec, !testbit_ToInt32. Qed.

Lemma washedOut_not_highlight v : washedOut v <> COLOR_HIGHLIGHT_ABGR.
Proof.
  intros E. apply (f_equal (fun z => Z.testbit z 13)) in E.
  unfold washedOut in E. rewrite testbit_stored_or in E by lia.
  rewrite orb_true_r in E. discriminate.
Qed.

Lemma overlayTint_not_highlight v : overlayTint v <> COLOR_HIGHLIGHT_ABGR.
Proof.
  intros E. apply (f_equal (fun z => Z.testbit z 14)) in E.
  unfold overlayTint in E. rewrite testbit_stored_or in E by lia.
  rewrite orb_true_r in E. discriminate.
Qed.

Lemma byteOf_alpha_bits v :
  (forall k, 24 <= k < 32 -> Z.testbit v k = true) -> byteOf v 3 = 255.
Proof.
  intros H. unfold byteOf. apply Z.bits_inj'. intros n Hn.
  rewrite Z.land_spec, Z.shiftr_spec by lia.
  change 0xff with (Z.ones 8). change 255 with (Z.ones 8).
  destruct (Z.lt_ge_cases n 8) as [Hlt|Hge].
  - rewrite Z.ones_spec_low by lia. rewrite H by lia. done.
  - rewrite Z.ones_spec_high by lia. apply andb_false_r.
Qed.

Lemma alpha_bits_byteOf v k :
  byteOf v 3 = 255 -> 24 <= k < 32 -> Z.testbit v k = true.
Proof.
  intros H Hk. apply (f_equal (fun z => Z.testbit z (k - 24))) in H.
  unfold byteOf in H. rewrite Z.land_spec, Z.shiftr_spec in H by lia.
  change 0xff with (Z.ones 8) in H. change 255 with (Z.ones 8) in H.
  rewrite Z.ones_spec_low in H by lia. rewrite andb_true_r in H.
  by replace (k - 24 + 8 * 3) with k in H by lia.
Qed.

Lemma high_mask_bits k : 24 <= k < 32 ->
  Z.testbit 0xffe0e0e0 k = true /\ Z.testbit 0xff1f1f1f k = true
  /\ Z.testbit 0x60c0e0 k = false /\ Z.testbit COLOR_HIGHLIGHT_ABGR k = true.
Proof.
  intros Hk.
  assert (k = 24 \/ k = 25 \/ k = 26 \/ k = 27 \/ k = 28 \/ k = 29 \/ k = 30 \/ k = 31)
    as [->|[->|[->|[->|[->|[->|[->| ->]]]]]]] by lia; done.
Qed.

Lemma washedOut_opaque v : byteOf (washedOut v) 3 = 255.
Proof.
  apply byteOf_alpha_bits. intros k Hk. unfold washedOut.
  rewrite testbit_stored_or by lia.
  destruct (high_mask_bits k Hk) as (-> & _). apply orb_true_r.
Qed.

Lemma overlayTint_opaque v : byteOf v 3 = 255 -> byteOf (overlayTint v) 3 = 255.
Proof.
  intros H. apply byteOf_alpha_bits. intros k Hk. unfold overlayTint.
  rewrite testbit_stored_or, testbit_js_and by lia.
  destruct (high_mask_bits k Hk) as (_ & -> & -> & _).
  by rewrite (alpha_bits_byteOf v k H Hk).
Qed.

(** ** The three panels of the canvas *)

Lemma diffPixel_centre rb T w x y key cur st :
  cursorAt rb w x cur -> (x < w)%nat -> (rb + 3 * w <= length (diffData32 st))%nat ->
  get32 (diffData32 (diffPixel T w x y key cur st)) (rb + w + x)
  = centrePanelPixel T (get32 (diffData32 st) (rb + x))
      (get32 (diffData32 st) (rb + 2 * w + x)).
Proof.
  intros (Hi & Hb & Hc) Hx Hlen.
  unfold diffPixel, centrePanelPixel, isMismatch, washedOut.
  rewrite Hi, Hb, Hc.
  replace (rb + w + x - w)%nat with (rb + x)%nat by lia.
  replace (rb + w + x + w)%nat with (rb + 2 * w + x)%nat by lia.
  rewrite differenceBrightness_words.
  destruct (Qltb _ _); cbn [negb diffData32].
  { by rewrite get32_insert_eq by lia. }
  repeat (match goal with |- context [if ?g then _ else _] => destruct g end);
    rewrite ?get32_insert_ne by lia; by rewrite get32_insert_eq by lia.
Qed.

Lemma diffPixels_centre n : forall T rb w scale x0 y key cur st x,
  (x0 + n = w)%nat -> cursorAt rb w x0 cur -> (x0 <= x < w)%nat ->
  (rb + 3 * w <= length (diffData32 st))%nat ->
  get32 (diffData32 (diffPixels n T w scale x0 y key cur st)) (rb + w + x)
  = centrePanelPixel T (get32 (diffData32 st) (rb + x))
      (get32 (diffData32 st) (rb + 2 * w + x)).
Proof.
  induction n as [|n IH]; intros T rb w scale x0 y key cur st x Hn Hc Hx Hlen;
    cbn [diffPixels]; [lia |].
  destruct (decide (x = x0)) as [->|Hne].
  - destruct (diffPixels_spec n T rb w scale (S x0) y key (advance scale cur)
                (diffPixel T w x0 y key cur st) ltac:(lia) (cursorAt_advance _ _ _ _ _ Hc))
      as (_ & Hframe & _).
    unfold get32 at 1. rewrite Hframe by lia.
    apply diffPixel_centre; [done | lia | done].
  - pose proof Hc as (Hi & _ & _).
    rewrite (IH T rb w scale (S x0) y key (advance scale cur)
               (diffPixel T w x0 y key cur st) x ltac:(lia)
               (cursorAt_advance _ _ _ _ _ Hc) ltac:(lia))
      by (by rewrite diffPixel_length).
    unfold get32. by rewrite !diffPixel_frame by lia.
Qed.

(** The cells of column [x] of row [y] once the row is done, with both images
    there. *)
Lemma cells_after_row MB MC b c t x y :
  bothPresent b c ->
  let s := setupOf MB MC b c in
  let T := Double.BRIGHTNESS_DIFFERENCE_THRESHOLD t in
  let d := diffData32 (stateAtRow MB MC b c t (S y)) in
  let bABGR := baselinePixelAt MB MC b c t x y in
  let cABGR := candidatePixelAt MB MC b c t x y in
  (x < width s)%nat -> (y < height s)%nat ->
  get32 d (y * width s * 3 + x) = leftPanelPixel T x y bABGR cABGR
  /\ get32 d (y * width s * 3 + width s + x) = centrePanelPixel T bABGR cABGR
  /\ get32 d (y * width s * 3 + 2 * width s + x) = rightPanelPixel T x y bABGR cABGR.
Proof.
  intros Hp s T d bABGR cABGR Hx Hy.
  destruct (bothPresent_data MB MC b c Hp) as (a32 & b32 & Ha & Hb & _).
  fold s in Ha, Hb.
  pose proof (stateAtRow_pristine MB MC b c t y (Nat.lt_le_incl _ _ Hy)) as Hpr.
  fold s in Hpr.
  destruct (copyRows_spec s y _ Hpr Hy) as (Hl & _ & Hside & _).
  destruct (Hside x Hx) as [Hsb Hsc].
  pose proof (row_in_canvas (width s) (height s) y Hy) as Hfit.
  destruct Hpr as [Hlen _].
  assert (Hd : d = diffData32
                     (diffPixels (width s) T (width s) (lowResScale s) 0 y
                        (rowKey y) (rowCursor s y)
                        (copyRows s y (stateAtRow MB MC b c t y)))).
  { subst d. rewrite stateAtRow_succ. unfold diffRow. fold s T. by rewrite Ha, Hb. }
  rewrite Hd.
  destruct (diffPixels_side (width s) T (y * width s * 3) (width s) (lowResScale s) 0 y
              (rowKey y) (rowCursor s y)
              (copyRows s y (stateAtRow MB MC b c t y)) x
              ltac:(lia) (cursorAt_rowCursor s y) ltac:(lia) ltac:(lia)) as [Hleft Hright].
  rewrite Hleft, Hright.
  rewrite (diffPixels_centre (width s) T (y * width s * 3) (width s) (lowResScale s) 0 y
             (rowKey y) (rowCursor s y)
             (copyRows s y (stateAtRow MB MC b c t y)) x
             ltac:(lia) (cursorAt_rowCursor s y)) by lia.
  by rewrite Hsb, Hsc.
Qed.

(** The rows below leave a finished row as it is. *)
Lemma final_state_row MB MC b c t y (j : nat) :
  let s := setupOf MB MC b c in
  (y < height s)%nat -> (j < S y * width s * 3)%nat ->
  diffData32 (stateAtRow MB MC b c t (height s)) !! j
  = diffData32 (stateAtRow MB MC b c t (S y)) !! j.
Proof.
  intros s Hy Hj.
  assert (E : stateAtRow MB MC b c t (height s)
              = diffRows (height s - S y) (Double.BRIGHTNESS_DIFFERENCE_THRESHOLD t) s (S y)
                  (stateAtRow MB MC b c t (S y))).
  { unfold stateAtRow. fold s.
    replace (height s) with (S y + (height s - S y))%nat at 1 by lia.
    by rewrite diffRows_app. }
  rewrite E. apply diffRows_below; [| lia | done].
  apply (stateAtRow_pristine MB MC b c t (S y)). exact Hy.
Qed.

Lemma foldl_iff {B} (f : list Z -> B -> list Z) (Q : list Z -> Prop) (l : list B) :
  (forall d a, Q (f d a) <-> Q d) -> forall d, Q (foldl f d l) <-> Q d.
Proof.
  intros H. induction l as [|a l IH]; intros d; cbn [foldl]; [done |].
  by rewrite IH, H.
Qed.

Lemma foldl_keeps {B} (f : list Z -> B -> list Z) (Q : list Z -> Prop) (l : list B) :
  (forall d a, Q d -> Q (f d a)) -> forall d, Q d -> Q (foldl f d l).
Proof.
  intros H. induction l as [|a l IH]; intros d Hd; cbn [foldl]; [done |].
  by apply IH, H.
Qed.

Lemma tintPixel_get32 d i j :
  get32 (tintPixel d i) j
  = if decide (i = j /\ (i < length d)%nat /\ get32 d i <> COLOR_HIGHLIGHT_ABGR)
    then overlayTint (get32 d i) else get32 d j.
Proof.
  unfold tintPixel, overlayTint.
  destruct (Z.eqb_spec (get32 d i) COLOR_HIGHLIGHT_ABGR) as [E|E]; cbn [negb].
  - destruct (decide _) as [(_ & _ & H)|]; [done | done].
  - destruct (decide _) as [(-> & Hl & _)|Hn].
    + by rewrite get32_insert_eq.
    + destruct (decide (i = j)) as [->|Hne].
      * unfold get32. rewrite list_insert_ge; [done |]. apply Nat.nlt_ge. intros Hl.
        apply Hn. by repeat split.
      * by apply get32_insert_ne.
Qed.

Lemma lowResOverlay_highlight s lowRes d j :
  get32 (lowResOverlay s lowRes d) j = COLOR_HIGHLIGHT_ABGR
  <-> get32 d j = COLOR_HIGHLIGHT_ABGR.
Proof.
  unfold lowResOverlay.
  apply (foldl_iff _ (fun d => get32 d j = COLOR_HIGHLIGHT_ABGR)). intros d1 lowResY.
  apply (foldl_iff _ (fun d => get32 d j = COLOR_HIGHLIGHT_ABGR)). intros d2 lowResX.
  destruct (0 <? _); [| done].
  apply (foldl_iff _ (fun d => get32 d j = COLOR_HIGHLIGHT_ABGR)). intros d3 y.
  apply (foldl_iff _ (fun d => get32 d j = COLOR_HIGHLIGHT_ABGR)). intros d4 x.
  rewrite tintPixel_get32. destruct (decide _) as [(-> & _ & Hn)|]; [| done].
  split; intros E; [by apply overlayTint_not_highlight in E | done].
Qed.

Lemma lowResOverlay_opaque s lowRes d j :
  byteOf (get32 d j) 3 = 255 -> byteOf (get32 (lowResOverlay s lowRes d) j) 3 = 255.
Proof.
  unfold lowResOverlay.
  apply (foldl_keeps _ (fun d => byteOf (get32 d j) 3 = 255)). intros d1 lowResY.
  apply (foldl_keeps _ (fun d => byteOf (get32 d j) 3 = 255)). intros d2 lowResX.
  destruct (0 <? _); [| done].
  apply (foldl_keeps _ (fun d => byteOf (get32 d j) 3 = 255)). intros d3 y.
  apply (foldl_keeps _ (fun d => byteOf (get32 d j) 3 = 255)). intros d4 x H.
  rewrite tintPixel_get32. destruct (decide _) as [(-> & _ & _)|]; [| done].
  by apply overlayTint_opaque.
Qed.

Lemma overlayTint_idempotent v : overlayTint (overlayTint v) = overlayTint v.
Proof.
  apply Z.bits_inj'. intros k Hk. destruct (Z.lt_ge_cases k 32) as [Hlt|Hge].
  - unfold overlayTint at 1. rewrite testbit_stored_or, testbit_js_and by lia.
    unfold overlayTint. rewrite testbit_stored_or, testbit_js_and by lia.
    by destruct (Z.testbit v k), (Z.testbit 0xff1f1f1f k), (Z.testbit 0x60c0e0 k).
  - unfold overlayTint, ToUint32. by rewrite !Z.mod_pow2_bits_high by lia.
Qed.

Lemma lowResOverlay_keeps_tinted s lowRes v d j :
  get32 d j = v \/ get32 d j = overlayTint v ->
  get32 (lowResOverlay s lowRes d) j = v
  \/ get32 (lowResOverlay s lowRes d) j = overlayTint v.
Proof.
  unfold lowResOverlay.
  apply (foldl_keeps _ (fun d => get32 d j = v \/ get32 d j = overlayTint v)).
  intros d1 lowResY.
  apply (foldl_keeps _ (fun d => get32 d j = v \/ get32 d j = overlayTint v)).
  intros d2 lowResX.
  destruct (0 <? _); [| done].
  apply (foldl_keeps _ (fun d => get32 d j = v \/ get32 d j = overlayTint v)).
  intros d3 y.
  apply (foldl_keeps _ (fun d => get32 d j = v \/ get32 d j = overlayTint v)).
  intros d4 x H.
  rewrite tintPixel_get32. destruct (decide _) as [(-> & _ & _)|]; [| done].
  right. destruct H as [->| ->]; [done | apply overlayTint_idempotent].
Qed.

Lemma lowResOverlay_tinted s lowRes d j :
  get32 (lowResOverlay s lowRes d) j = get32 d j
  \/ get32 (lowResOverlay s lowRes d) j = overlayTint (get32 d j).
Proof. apply lowResOverlay_keeps_tinted. by left. Qed.

(** The highlight of the diff line of a row when one image is missing. *)
Lemma copyRows_centre s y st x :
  pristineFrom s y st -> (y < height s)%nat -> (x < width s)%nat -> imagesCount s = 1%nat ->
  get32 (diffData32 (copyRows s y st)) (y * width s * 3 + width s + x)
  = COLOR_HIGHLIGHT_ABGR.
Proof.
  intros [Hlen Hzero] Hy Hx Hone.
  pose proof (row_in_canvas (width s) (height s) y Hy) as Hfit.
  unfold copyRows. rewrite Hone. cbn [Nat.eqb].
  set (w := width s) in *. set (rb := (y * w * 3)%nat) in *.
  set (d0 := fill32 _ _ _ _).
  assert (Hl0 : length d0 = length (diffData32 st)) by apply fill32_spec.
  assert (Hd0 : d0 !! (rb + w + x)%nat = Some COLOR_HIGHLIGHT_ABGR).
  { subst d0. unfold fill32.
    rewrite list_lookup_inserts by (rewrite ?length_replicate; lia).
    apply lookup_replicate_2. lia. }
  replace (rb + w - w)%nat with rb by lia.
  pose proof (copyRow_spec (baselineData32 s) (baselineOffset32 st)
                (baselineOffsetIncrement32 s) w rb d0 ltac:(lia)) as (Hl1 & Hf1 & _).
  destruct (copyRow (baselineData32 s) _ _ w rb d0) as [d1 bOff]. cbn [fst snd] in *.
  pose proof (copyRow_spec (candidateData32 s) (candidateOffset32 st)
                (candidateOffsetIncrement32 s) w (rb + w + w) d1 ltac:(lia))
    as (_ & Hf2 & _).
  destruct (copyRow (candidateData32 s) _ _ w (rb + w + w) d1) as [d2 cOff].
  cbn [fst snd diffData32] in *.
  unfold get32. by rewrite Hf2, Hf1, Hd0 by lia.
Qed.

Lemma prepare_cases MB MC b c :
  let s := setupOf MB MC b c in
  bothPresent b c
  \/ (imagesCount s = 1%nat /\ (baselineData32 s = None \/ candidateData32 s = None))
  \/ width s = 0%nat.
Proof.
  unfold setupOf, prepare, bothPresent.
  destruct (image b), (info b), (image c), (info c); cbn;
    (by left) || (right; left; split; [done | (by left) || (by right)]) || (by right; right).
Qed.

(** The cells of column [x] of row [y] once the row is done, with one image
    missing. *)
Lemma cells_after_row_missing MB MC b c t x y :
  let s := setupOf MB MC b c in
  let d := diffData32 (stateAtRow MB MC b c t (S y)) in
  imagesCount s = 1%nat -> baselineData32 s = None \/ candidateData32 s = None ->
  (x < width s)%nat -> (y < height s)%nat ->
  get32 d (y * width s * 3 + x) = baselinePixelAt MB MC b c t x y
  /\ get32 d (y * width s * 3 + width s + x) = COLOR_HIGHLIGHT_ABGR
  /\ get32 d (y * width s * 3 + 2 * width s + x) = candidatePixelAt MB MC b c t x y.
Proof.
  intros s d Hone Hmiss Hx Hy.
  pose proof (stateAtRow_pristine MB MC b c t y (Nat.lt_le_incl _ _ Hy)) as Hpr.
  fold s in Hpr.
  destruct (copyRows_spec s y _ Hpr Hy) as (_ & _ & Hside & _).
  destruct (Hside x Hx) as [Hsb Hsc].
  subst d. rewrite stateAtRow_succ. fold s. rewrite diffRow_missing by done.
  split; [exact Hsb |]. split; [| exact Hsc].
  by apply copyRows_centre.
Qed.

Lemma final_cell MB MC b c t x y (k : nat) :
  let s := setupOf MB MC b c in
  (x < width s)%nat -> (y < height s)%nat -> (k < 3)%nat ->
  get32 (diffData32 (stateAtRow MB MC b c t (height s))) (y * width s * 3 + k * width s + x)
  = get32 (diffData32 (stateAtRow MB MC b c t (S y))) (y * width s * 3 + k * width s + x).
Proof.
  intros s Hx Hy Hk. unfold get32. f_equal. apply final_state_row; [done |].
  fold s. nia.
Qed.

Lemma written_data MB MC b c path t p png :
  written <$> diffImages MB MC b c path t = Some (Some (p, png)) ->
  let s := setupOf MB MC b c in
  let st := stateAtRow MB MC b c t (height s) in
  (PNG.data png = diffData32 st
   \/ PNG.data png = lowResOverlay s (lowResHighlightData st) (diffData32 st))
  /\ (baselineData32 s = None \/ candidateData32 s = None -> PNG.data png = diffData32 st).
Proof.
  intros H s st.
  destruct (diffImages MB MC b c path t) as [out|] eqn:Eout; [| done].
  destruct (diffImages_resolved MB MC b c _ _ out Eout) as [(_ & _ & ->)|(_ & _ & E)];
    [done |].
  rewrite E in Eout. cbv zeta in Eout. injection Eout as <-.
  cbn [fmap option_fmap option_map written] in H.
  destruct (negb _); [| done]. injection H as <- <-. cbn [PNG.data].
  fold (setupOf MB MC b c). fold s. fold (stateAtRow MB MC b c t (height s)). fold st.
  destruct (baselineData32 s); [destruct (candidateData32 s) |].
  - split; [| by intros [|]]. destruct (0 <? _); [by right | by left].
  - split; [by left | done].
  - split; [by left | done].
Qed.

(** X16: with both images present, away from the mismatched pixels whose
    [x + y] is odd the side panels of the written canvas show the pixels of the
    two images as they are: the baseline's on the left and the candidate's on
    the right. *)
Theorem untinted_side_pixels (MB MC : Z) (b c : ImageAndTestInformation)
    (path p : string) (t : JsValue) (png : PNG.t) (x y : nat) :
  let s := setupOf MB MC b c in
  let T := Double.BRIGHTNESS_DIFFERENCE_THRESHOLD t in
  let bABGR := baselinePixelAt MB MC b c t x y in
  let cABGR := candidatePixelAt MB MC b c t x y in
  bothPresent b c ->
  written <$> diffImages MB MC b c path t = Some (Some (p, png)) ->
  (x < width s)%nat -> (y < height s)%nat ->
  isMismatch T bABGR cABGR && Nat.odd (x + y) = false ->
  get32 (PNG.data png) (y * width s * 3 + x) = bABGR
  /\ get32 (PNG.data png) (y * width s * 3 + 2 * width s + x) = cABGR.
Proof.
  intros s T bABGR cABGR Hp Hw Hx Hy Hno.
  destruct (cells_after_row MB MC b c t x y Hp Hx Hy) as (Hl & _ & Hr).
  fold s T bABGR cABGR in Hl, Hr.
  unfold leftPanelPixel in Hl. unfold rightPanelPixel in Hr.
  rewrite Hno in Hl, Hr. cbn [andb] in Hl, Hr.
  pose proof (final_cell MB MC b c t x y 0 Hx Hy ltac:(lia)) as F0.
  pose proof (final_cell MB MC b c t x y 2 Hx Hy ltac:(lia)) as F2.
  fold s in F0, F2. rewrite Nat.mul_0_l, Nat.add_0_r in F0.
  destruct (written_data MB MC b c path t p png Hw) as [[E|E] _]; fold s in E; rewrite E.
  - by rewrite F0, F2.
  - assert (Hfr : forall lowRes d (j : nat),
              (forall y' x', (x' < width s)%nat -> j <> (y' * width s * 3 + width s + x')%nat) ->
              get32 (lowResOverlay s lowRes d) j = get32 d j).
    { intros lowRes d j Hj. unfold get32. by rewrite lowResOverlay_frame. }
    rewrite !Hfr.
    + by rewrite F0, F2.
    + intros y' x' Hx'. by apply side_not_centre.
    + intros y' x' Hx'. by apply side_not_centre.
Qed.

Lemma untinted_side_pixels_witness :
  exists png,
    written <$> diffImages (-1) (-2) (fullFrame "baseline.png" black2x1)
                  (fullFrame "candidate.png" white2x1) "diff.png" (JsNum 0.03)
    = Some (Some ("diff.png"%string, png))
    /\ get32 (PNG.data png) 0 = 0xff000000
    /\ get32 (PNG.data png) 4 = 0xffffffff.
Proof.
  assert (H : exists png,
             written <$> diffImages (-1) (-2) (fullFrame "baseline.png" black2x1)
                           (fullFrame "candidate.png" white2x1) "diff.png" (JsNum 0.03)
             = Some (Some ("diff.png"%string, png))).
  { eexists. vm_compute. reflexivity. }
  destruct H as [png H]. exists png. split; [exact H |].
  apply (untinted_side_pixels (-1) (-2) (fullFrame "baseline.png" black2x1)
           (fullFrame "candidate.png" white2x1) "diff.png" "diff.png" (JsNum 0.03) png 0 0).
  - by repeat split.
  - exact H.
  - vm_compute. lia.
  - vm_compute. lia.
  - vm_compute. reflexivity.
Defined.

(** X17: with both images present, a pixel of the centre panel of the written
    canvas has the highlight colour exactly when the two images mismatch
    there; where they match it is the washed-out baseline pixel, with or
    without the tint of the low-resolution overlay. *)
Theorem centre_panel_marks_mismatches (MB MC : Z) (b c : ImageAndTestInformation)
    (path p : string) (t : JsValue) (png : PNG.t) (x y : nat) :
  let s := setupOf MB MC b c in
  let T := Double.BRIGHTNESS_DIFFERENCE_THRESHOLD t in
  let bABGR := baselinePixelAt MB MC b c t x y in
  let cABGR := candidatePixelAt MB MC b c t x y in
  let centre := get32 (PNG.data png) (y * width s * 3 + width s + x) in
  bothPresent b c ->
  written <$> diffImages MB MC b c path t = Some (Some (p, png)) ->
  (x < width s)%nat -> (y < height s)%nat ->
  (centre = COLOR_HIGHLIGHT_ABGR <-> isMismatch T bABGR cABGR = true)
  /\ (isMismatch T bABGR cABGR = false ->
      centre = washedOut bABGR \/ centre = overlayTint (washedOut bABGR)).
Proof.
  intros s T bABGR cABGR centre Hp Hw Hx Hy.
  destruct (cells_after_row MB MC b c t x y Hp Hx Hy) as (_ & Hc & _).
  fold s T bABGR cABGR in Hc.
  pose proof (final_cell MB MC b c t x y 1 Hx Hy ltac:(lia)) as F1.
  fold s in F1. rewrite Nat.mul_1_l in F1. rewrite Hc in F1. clear Hc.
  unfold centrePanelPixel in F1.
  set (d := diffData32 (stateAtRow MB MC b c t (height s))) in *.
  set (j := (y * width s * 3 + width s + x)%nat) in *.
  destruct (written_data MB MC b c path t p png Hw) as [[E|E] _]; fold s d in E;
    subst centre; rewrite E.
  - rewrite F1. destruct (isMismatch T bABGR cABGR); split.
    + done.
    + done.
    + split; [intros H; by apply washedOut_not_highlight in H | done].
    + intros _. by left.
  - split.
    + rewrite lowResOverlay_highlight, F1. destruct (isMismatch T bABGR cABGR); [done |].
      split; [intros H; by apply washedOut_not_highlight in H | done].
    + intros Hm. rewrite Hm in F1. rewrite <- F1. apply lowResOverlay_tinted.
Qed.

Lemma centre_panel_marks_mismatches_witness :
  exists png,
    written <$> diffImages (-1) (-2) (fullFrame "baseline.png" black2x1)
                  (fullFrame "candidate.png" white2x1) "diff.png" (JsNum 0.03)
    = Some (Some ("diff.png"%string, png))
    /\ (get32 (PNG.data png) 3 = COLOR_HIGHLIGHT_ABGR
        <-> isMismatch (Double.BRIGHTNESS_DIFFERENCE_THRESHOLD (JsNum 0.03))
              (baselinePixelAt (-1) (-2) (fullFrame "baseline.png" black2x1)
                 (fullFrame "candidate.png" white2x1) (JsNum 0.03) 1 0)
              (candidatePixelAt (-1) (-2) (fullFrame "baseline.png" black2x1)
                 (fullFrame "candidate.png" white2x1) (JsNum 0.03) 1 0) = true)
    /\ get32 (PNG.data png) 3 = COLOR_HIGHLIGHT_ABGR.
Proof.
  assert (H : exists png,
             written <$> diffImages (-1) (-2) (fullFrame "baseline.png" black2x1)
                           (fullFrame "candidate.png" white2x1) "diff.png" (JsNum 0.03)
             = Some (Some ("diff.png"%string, png))).
  { eexists. vm_compute. reflexivity. }
  destruct H as [png H]. exists png. split; [exact H |].
  destruct (centre_panel_marks_mismatches (-1) (-2) (fullFrame "baseline.png" black2x1)
              (fullFrame "candidate.png" white2x1) "diff.png" "diff.png" (JsNum 0.03)
              png 1 0 ltac:(by repeat split) H ltac:(vm_compute; lia) ltac:(vm_compute; lia))
    as [Hiff _].
  split; [exact Hiff |]. apply Hiff. vm_compute. reflexivity.
Defined.

(** X18: every pixel of the centre panel of a written canvas is fully opaque,
    whatever the alpha values of the two images and whether or not one of them
    is missing. *)
Theorem centre_panel_is_opaque (MB MC : Z) (b c : ImageAndTestInformation)
    (path p : string) (t : JsValue) (png : PNG.t) (x y : nat) :
  let s := setupOf MB MC b c in
  written <$> diffImages MB MC b c path t = Some (Some (p, png)) ->
  (x < width s)%nat -> (y < height s)%nat ->
  byteOf (get32 (PNG.data png) (y * width s * 3 + width s + x)) 3 = 255.
Proof.
  intros s Hw Hx Hy.
  pose proof (final_cell MB MC b c t x y 1 Hx Hy ltac:(lia)) as F1.
  fold s in F1. rewrite Nat.mul_1_l in F1.
  destruct (written_data MB MC b c path t p png Hw) as [Hd Hmiss]. fold s in Hd, Hmiss.
  pose proof (prepare_cases MB MC b c) as Hcases. cbv zeta in Hcases. fold s in Hcases.
  destruct Hcases as [Hp|[[Hone Hnone]|H0]].
  - destruct (cells_after_row MB MC b c t x y Hp Hx Hy) as (_ & Hc & _).
    fold s in Hc. rewrite Hc in F1. clear Hc.
    assert (Ho : byteOf (get32 (diffData32 (stateAtRow MB MC b c t (height s)))
                           (y * width s * 3 + width s + x)) 3 = 255).
    { rewrite F1. unfold centrePanelPixel. destruct (isMismatch _ _ _); [done |].
      apply washedOut_opaque. }
    destruct Hd as [-> | ->]; [done | by apply lowResOverlay_opaque].
  - destruct (cells_after_row_missing MB MC b c t x y Hone Hnone Hx Hy) as (_ & Hc & _).
    fold s in Hc. rewrite Hc in F1. by rewrite (Hmiss Hnone), F1.
  - lia.
Qed.

Lemma centre_panel_is_opaque_witness :
  exists png,
    written <$> diffImages (-1) (-2) (fullFrame "baseline.png" clearPixel)
                  (fullFrame "candidate.png" redPixel) "diff.png" (JsNum 0.03)
    = Some (Some ("diff.png"%string, png))
    /\ byteOf (get32 (PNG.data png) 1) 3 = 255.
Proof.
  assert (H : exists png,
             written <$> diffImages (-1) (-2) (fullFrame "baseline.png" clearPixel)
                           (fullFrame "candidate.png" redPixel) "diff.png" (JsNum 0.03)
             = Some (Some ("diff.png"%string, png))).
  { eexists. vm_compute. reflexivity. }
  destruct H as [png H]. exists png. split; [exact H |].
  apply (centre_panel_is_opaque (-1) (-2) (fullFrame "baseline.png" clearPixel)
           (fullFrame "candidate.png" redPixel) "diff.png" "diff.png" (JsNum 0.03) png 0 0).
  - exact H.
  - vm_compute. lia.
  - vm_compute. lia.
Defined.

(** X19: when exactly one image is there and a diff file is written, the whole
    centre panel has the highlight colour, the two side panels hold the copied
    rows untouched, and the panel of the missing image is blank. *)
Theorem one_image_canvas (MB MC : Z) (b c : ImageAndTestInformation)
    (path p : string) (t : JsValue) (png : PNG.t) (x y : nat) :
  let s := setupOf MB MC b c in
  let left := get32 (PNG.data png) (y * width s * 3 + x) in
  let centre := get32 (PNG.data png) (y * width s * 3 + width s + x) in
  let right := get32 (PNG.data png) (y * width s * 3 + 2 * width s + x) in
  imagesCount s = 1%nat ->
  written <$> diffImages MB MC b c path t = Some (Some (p, png)) ->
  (x < width s)%nat -> (y < height s)%nat ->
  centre = COLOR_HIGHLIGHT_ABGR
  /\ left = baselinePixelAt MB MC b c t x y
  /\ right = candidatePixelAt MB MC b c t x y
  /\ (left = 0 \/ right = 0).
Proof.
  intros s left centre right Hone Hw Hx Hy.
  assert (Hnone : baselineData32 s = None \/ candidateData32 s = None).
  { pose proof (prepare_cases MB MC b c) as Hcases. cbv zeta in Hcases. fold s in Hcases.
    destruct Hcases as [Hp|[[_ H]|H0]]; [| done | lia].
    destruct (bothPresent_data MB MC b c Hp) as (a32 & b32 & _).
    revert Hone Hp. subst s. unfold setupOf, prepare, bothPresent.
    destruct (image b), (info b), (image c), (info c); cbn; intros; try done;
      tauto. }
  destruct (cells_after_row_missing MB MC b c t x y Hone Hnone Hx Hy) as (Hl & Hc & Hr).
  fold s in Hl, Hc, Hr.
  pose proof (final_cell MB MC b c t x y 0 Hx Hy ltac:(lia)) as F0.
  pose proof (final_cell MB MC b c t x y 1 Hx Hy ltac:(lia)) as F1.
  pose proof (final_cell MB MC b c t x y 2 Hx Hy ltac:(lia)) as F2.
  fold s in F0, F1, F2.
  rewrite Nat.mul_0_l, Nat.add_0_r in F0. rewrite Nat.mul_1_l in F1.
  destruct (written_data MB MC b c path t p png Hw) as [_ Hmiss]. fold s in Hmiss.
  subst left centre right. rewrite (Hmiss Hnone), F0, F1, F2, Hl, Hc, Hr.
  repeat split.
  unfold baselinePixelAt, candidatePixelAt, sourcePixel. fold s.
  destruct Hnone as [-> | ->]; [by left | by right].
Qed.

Lemma one_image_canvas_witness :
  exists png,
    written <$> diffImages (-1) (-2) (fullFrame "baseline.png" black2x1)
                  {| image := None; info := None |} "diff.png" (JsNum 0.03)
    = Some (Some ("diff.png"%string, png))
    /\ get32 (PNG.data png) 3 = COLOR_HIGHLIGHT_ABGR
    /\ get32 (PNG.data png) 1 = 0xff000000
    /\ get32 (PNG.data png) 5 = 0.
Proof.
  assert (H : exists png,
             written <$> diffImages (-1) (-2) (fullFrame "baseline.png" black2x1)
                           {| image := None; info := None |} "diff.png" (JsNum 0.03)
             = Some (Some ("diff.png"%string, png))).
  { eexists. vm_compute. reflexivity. }
  destruct H as [png H]. exists png. split; [exact H |].
  destruct (one_image_canvas (-1) (-2) (fullFrame "baseline.png" black2x1)
              {| image := None; info := None |} "diff.png" "diff.png" (JsNum 0.03) png 1 0
              eq_refl H ltac:(vm_compute; lia) ltac:(vm_compute; lia))
    as (Hc & Hl & Hr & _).
  split; [exact Hc |]. split; [exact Hl | exact Hr].
Defined.

(** X22: where the code puts the tints.  With both images present and a diff
    file written, at a mismatched pixel whose [x + y] is odd the left panel,
    which holds the baseline, gets the red filter over the baseline pixel
    unless the candidate pixel is pure white, and the right panel, which holds
    the candidate, gets the green filter over the candidate pixel unless the
    baseline pixel is pure white. *)
Theorem side_panel_tints (MB MC : Z) (b c : ImageAndTestInformation)
    (path p : string) (t : JsValue) (png : PNG.t) (x y : nat) :
  let s := setupOf MB MC b c in
  let T := Double.BRIGHTNESS_DIFFERENCE_THRESHOLD t in
  let bABGR := baselinePixelAt MB MC b c t x y in
  let cABGR := candidatePixelAt MB MC b c t x y in
  bothPresent b c ->
  written <$> diffImages MB MC b c path t = Some (Some (p, png)) ->
  (x < width s)%nat -> (y < height s)%nat ->
  isMismatch T bABGR cABGR = true -> Nat.odd (x + y) = true ->
  get32 (PNG.data png) (y * width s * 3 + x)
  = (if cABGR =? PURE_WHITE then bABGR else redTint bABGR)
  /\ get32 (PNG.data png) (y * width s * 3 + 2 * width s + x)
     = (if bABGR =? PURE_WHITE then cABGR else greenTint cABGR).
Proof.
  intros s T bABGR cABGR Hp Hw Hx Hy Hm Hodd.
  destruct (cells_after_row MB MC b c t x y Hp Hx Hy) as (Hl & _ & Hr).
  fold s T bABGR cABGR in Hl, Hr.
  unfold leftPanelPixel in Hl. unfold rightPanelPixel in Hr.
  rewrite Hm, Hodd in Hl, Hr. cbn [andb] in Hl, Hr.
  pose proof (final_cell MB MC b c t x y 0 Hx Hy ltac:(lia)) as F0.
  pose proof (final_cell MB MC b c t x y 2 Hx Hy ltac:(lia)) as F2.
  fold s in F0, F2. rewrite Nat.mul_0_l, Nat.add_0_r in F0.
  assert (Hfr : forall lowRes d (j : nat),
            (forall y' x', (x' < width s)%nat -> j <> (y' * width s * 3 + width s + x')%nat) ->
            get32 (lowResOverlay s lowRes d) j = get32 d j).
  { intros lowRes d j Hj. unfold get32. by rewrite lowResOverlay_frame. }
  destruct (written_data MB MC b c path t p png Hw) as [[E|E] _]; fold s in E; rewrite E.
  - rewrite F0, F2, Hl, Hr.
    by destruct (cABGR =? PURE_WHITE), (bABGR =? PURE_WHITE).
  - rewrite !Hfr.
    + rewrite F0, F2, Hl, Hr.
      by destruct (cABGR =? PURE_WHITE), (bABGR =? PURE_WHITE).
    + intros y' x' Hx'. by apply side_not_centre.
    + intros y' x' Hx'. by apply side_not_centre.
Qed.

Lemma side_panel_tints_witness :
  exists png,
    written <$> diffImages (-1) (-2) (fullFrame "baseline.png" black2x1)
                  (fullFrame "candidate.png" blue2x1) "diff.png" (JsNum 0.03)
    = Some (Some ("diff.png"%string, png))
    /\ get32 (PNG.data png) 1 = redTint 0xff000000
    /\ get32 (PNG.data png) 5 = greenTint 0xffff0000.
Proof.
  assert (H : exists png,
             written <$> diffImages (-1) (-2) (fullFrame "baseline.png" black2x1)
                           (fullFrame "candidate.png" blue2x1) "diff.png" (JsNum 0.03)
             = Some (Some ("diff.png"%string, png))).
  { eexists. vm_compute. reflexivity. }
  destruct H as [png H]. exists png. split; [exact H |].
  apply (side_panel_tints (-1) (-2) (fullFrame "baseline.png" black2x1)
           (fullFrame "candidate.png" blue2x1) "diff.png" "diff.png" (JsNum 0.03) png 1 0).
  - by repeat split.
  - exact H.
  - vm_compute. lia.
  - vm_compute. lia.
  - vm_compute. reflexivity.
  - reflexivity.
Defined.

(** ** Rounding in the brightness difference *)

(** X23: the brightness difference and the threshold are doubles.  For a zero
    pixel against the pixel with blue 204 and alpha 68 the exact weighted sum
    [0.587 * 204 + 0.114 * 68] is 127.5, which is the effective threshold at
    0.5; the sum the code computes is the double just below, so that the pair
    is a match. *)
Theorem brightness_is_rounded :
  Uint32Array_of_bytes (Image.data tiePixel) = [0x44cc0000]
  /\ (0.299 * 0 + 0.587 * 204 + 0.114 * 68 == 127.5)%Q
  /\ (Double.BRIGHTNESS_DIFFERENCE_THRESHOLD (JsNum 0.5) == 127.5)%Q
  /\ (pixelBrightness 0 0x44cc0000 == 8972014882652159 # 70368744177664)%Q
  /\ (pixelBrightness 0 0x44cc0000 < 127.5)%Q
  /\ isMismatch (Double.BRIGHTNESS_DIFFERENCE_THRESHOLD (JsNum 0.5)) 0 0x44cc0000 = false
  /\ diffImagesAsync (-1) (-2) tieDisk (sampleJob (JsNum 0.5))
     = Some {| result := Some (DiffResult.mk 0 0); written := None |}.
Proof. repeat split; vm_compute; reflexivity. Qed.

(** ** The call without images *)

(** X20: a call that resolves gives no result exactly when neither of the two
    paths exists, and then no diff file is written. *)
Theorem no_result_iff_no_images (MB MC : Z) (disk : Disk) (o : Options) (out : Outcome) :
  diffImagesAsync MB MC disk o = Some out ->
  (result out = None
   <-> existsSync disk (baselineImagePath o) = false
       /\ existsSync disk (candidateImagePath o) = false)
  /\ (result out = None -> written out = None).
Proof.
  intros Hout.
  destruct (getImageAndTestInformation disk (baselineImagePath o)) as [b|] eqn:Lb.
  2: { unfold diffImagesAsync in Hout. by rewrite Lb in Hout. }
  destruct (getImageAndTestInformation disk (candidateImagePath o)) as [c|] eqn:Lc.
  2: { unfold diffImagesAsync in Hout. by rewrite Lb, Lc in Hout. }
  rewrite (diffImagesAsync_loaded MB MC disk o b c Lb Lc) in Hout.
  destruct (loaded_image disk _ b Lb) as [Hbt Hbf].
  destruct (loaded_image disk _ c Lc) as [Hct Hcf].
  destruct (diffImages_resolved MB MC b c _ _ out Hout) as [(Hb & Hc & ->)|(Hs & _ & E)].
  - cbn. split; [| done]. split; [| done]. intros _.
    destruct (existsSync disk (baselineImagePath o)).
    { destruct (Hbt eq_refl) as (ib & fb & Hib & _). congruence. }
    destruct (existsSync disk (candidateImagePath o)); [| done].
    destruct (Hct eq_refl) as (ic & fc & Hic & _). congruence.
  - rewrite E in Hout. cbv zeta in Hout. injection Hout as <-. cbn [result].
    split; [| done]. split; [done |]. intros [Eb Ec].
    destruct (Hbf Eb) as [Hib _]. destruct (Hcf Ec) as [Hic _]. by destruct Hs.
Qed.

Lemma no_result_iff_no_images_witness :
  exists out,
    diffImagesAsync (-1) (-2) (diskOf []) (sampleJob (JsNum 0.03)) = Some out
    /\ (result out = None
        <-> existsSync (diskOf []) "baseline.png" = false
            /\ existsSync (diskOf []) "candidate.png" = false)
    /\ (result out = None -> written out = None).
Proof.
  eexists. split; [reflexivity |].
  exact (no_result_iff_no_images (-1) (-2) (diskOf []) (sampleJob (JsNum 0.03)) _ eq_refl).
Defined.

(** ** The low-resolution grid *)

Lemma ceilDiv_bounds a b :
  (0 < b)%nat -> (a <= ceilDiv a b * b)%nat /\ (ceilDiv a b * b < a + b)%nat.
Proof.
  intros Hb. unfold ceilDiv.
  pose proof (Nat.div_mod (a + (b - 1)) b ltac:(lia)) as E.
  pose proof (Nat.mod_upper_bound (a + (b - 1)) b ltac:(lia)) as Hr.
  nia.
Qed.

Lemma ceilDiv_pos a b : (0 < a)%nat -> (0 < b)%nat -> (1 <= ceilDiv a b)%nat.
Proof. intros Ha Hb. destruct (ceilDiv_bounds a b Hb) as [H _]. nia. Qed.

Lemma ceilDiv_cells a : (0 < a)%nat -> (ceilDiv a (ceilDiv a 8) <= 8)%nat.
Proof.
  intros Ha.
  pose proof (ceilDiv_pos a 8 Ha ltac:(lia)) as Hs.
  destruct (ceilDiv_bounds a 8 ltac:(lia)) as [Hc _].
  destruct (ceilDiv_bounds a (ceilDiv a 8) ltac:(lia)) as [_ Ht].
  nia.
Qed.

Lemma prepare_grid MB MC b c :
  let s := setupOf MB MC b c in
  lowResScale s = ceilDiv (Nat.min (width s) (height s)) 8
  /\ lowResWidth s = ceilDiv (width s) (lowResScale s)
  /\ lowResHeight s = ceilDiv (height s) (lowResScale s)
  /\ length (lowResHighlightData (prepare MB MC b c).2)
     = (lowResWidth s * lowResHeight s)%nat.
Proof.
  unfold setupOf, prepare.
  destruct (image b), (info b), (image c), (info c); cbn [fst snd lowResScale lowResWidth
    lowResHeight width height lowResHighlightData]; by rewrite length_replicate.
Qed.

(** X21: for a comparison region that is not empty, the cells of the
    low-resolution grid are squares of at least one pixel, the grid is the
    smallest that covers the region, it has at most 8 cells along the shorter
    side of the region, and the array of its counts has one entry per cell. *)
Theorem lowRes_grid_covers_region (MB MC : Z) (b c : ImageAndTestInformation) :
  let s := setupOf MB MC b c in
  (0 < width s)%nat -> (0 < height s)%nat ->
  (1 <= lowResScale s)%nat
  /\ (width s <= lowResWidth s * lowResScale s < width s + lowResScale s)%nat
  /\ (height s <= lowResHeight s * lowResScale s < height s + lowResScale s)%nat
  /\ (Nat.min (lowResWidth s) (lowResHeight s) <= 8)%nat
  /\ length (lowResHighlightData (prepare MB MC b c).2)
     = (lowResWidth s * lowResHeight s)%nat.
Proof.
  intros s Hw Hh.
  destruct (prepare_grid MB MC b c) as (Hs & Hlw & Hlh & Hlen). fold s in Hs, Hlw, Hlh, Hlen.
  assert (Hpos : (1 <= lowResScale s)%nat).
  { rewrite Hs. apply ceilDiv_pos; lia. }
  split; [done |].
  split; [rewrite Hlw; apply ceilDiv_bounds; lia |].
  split; [rewrite Hlh; apply ceilDiv_bounds; lia |].
  split; [| done].
  destruct (Nat.le_ge_cases (width s) (height s)) as [Hle|Hge].
  - apply Nat.le_trans with (lowResWidth s); [apply Nat.le_min_l |].
    rewrite Hlw, Hs, Nat.min_l by done. by apply ceilDiv_cells.
  - apply Nat.le_trans with (lowResHeight s); [apply Nat.le_min_r |].
    rewrite Hlh, Hs, Nat.min_r by done. by apply ceilDiv_cells.
Qed.

Lemma lowRes_grid_covers_region_witness :
  (1 <= lowResScale (setupOf (-1) (-2) (fullFrame "baseline.png" black4x4)
                       (fullFrame "candidate.png" white2x1)))%nat
  /\ (Nat.min
        (lowResWidth (setupOf (-1) (-2) (fullFrame "baseline.png" black4x4)
                        (fullFrame "candidate.png" white2x1)))
        (lowResHeight (setupOf (-1) (-2) (fullFrame "baseline.png" black4x4)
                         (fullFrame "candidate.png" white2x1))) <= 8)%nat.
Proof.
  destruct (lowRes_grid_covers_region (-1) (-2) (fullFrame "baseline.png" black4x4)
              (fullFrame "candidate.png" white2x1)
              ltac:(vm_compute; lia) ltac:(vm_compute; lia)) as (H1 & _ & _ & H2 & _).
  split; [exact H1 | exact H2].
Defined.

(** ** Rounding in the low-resolution index *)

(** X24: the low-resolution cell of a mismatch is found by adding the double of
    [1 / lowResScale] once per column and truncating.  For a region of 17 by
    17 pixels the scale is 3 and the cells are 6 in a row; after six columns
    the sum is the double just below 2, so that a mismatch at column 6 of row
    0, which lies in the cell of columns 6 to 8, is booked on cell 1, that of
    columns 3 to 5.  In the written canvas the overlay tints the centre panel
    at columns 3 to 5 of row 0 and leaves columns 7 and 8 as they were. *)
Theorem lowRes_index_is_rounded :
  let b := fullFrame "baseline.png" black17 in
  let c := fullFrame "candidate.png" spot17 in
  let s := setupOf (-1) (-2) b c in
  let black := 0xff000000 in
  (lowResScale s, lowResWidth s, lowResHeight s) = (3, 6, 6)%nat
  /\ isMismatch (Double.BRIGHTNESS_DIFFERENCE_THRESHOLD (JsNum 0.03))
       (baselinePixelAt (-1) (-2) b c (JsNum 0.03) 6 0)
       (candidatePixelAt (-1) (-2) b c (JsNum 0.03) 6 0) = true
  /\ (indexLowRes (Nat.iter 6 (advance 3) (rowCursor s 0)) < 2)%Q
  /\ truncIndex (indexLowRes (Nat.iter 6 (advance 3) (rowCursor s 0))) = 1%nat
  /\ take 3 (lowResHighlightData (stateAtRow (-1) (-2) b c (JsNum 0.03) 17)) = [0; 1; 0]
  /\ exists png,
       diffImagesAsync (-1) (-2) spotDisk (sampleJob (JsNum 0.03))
       = Some {| result := Some (DiffResult.mk 1 4919);
                 written := Some ("diff.png"%string, png) |}
       /\ map (fun x => get32 (PNG.data png) (17 + x)) (seq 3 6)
          = [overlayTint (washedOut black); overlayTint (washedOut black);
             overlayTint (washedOut black); COLOR_HIGHLIGHT_ABGR;
             washedOut black; washedOut black].
Proof.
  cbv zeta. repeat split; try (vm_compute; reflexivity).
  eexists. split; vm_compute; reflexivity.
Qed.
